(** * Deal acquisition and validation pipeline

    A shallow embedding of the scraping tool's price parser and listing
    extraction (webScrapingTool) and of the scoring and filtering engine
    (dealFilteringTool, class DealFilteringService), with the properties
    the specification states about them.

    Modelling conventions.
    - A JavaScript number is a double, held as the rational [Q] that is
      its value.  The arithmetic of prices, discounts and scores
      ([JS.add], [JS.sub], [JS.mul], [JS.div]) rounds each exact result to
      the nearest double, ties to even ([JS.fl]); [Math.round], [Math.min],
      [Math.max], [Math.abs] and the comparisons are exact on doubles.
      The sums behind the final ordering (whose ties below the resolution
      of doubles are left aside), the averages of the summary, the delays
      of the retry and the differences of the storage comparisons are
      taken exactly.
      [JS.fl] has the least exponent of doubles and no largest one:
      overflow to an infinity, which takes a price of more than 308 digits,
      is left out.
      Comparisons of numbers are the boolean tests [JS.leb], [JS.ltb] and
      [JS.eqb]; equality of numbers in statements is [==].  Where the
      source can hold [NaN] or an infinity (the fields of an AI response)
      the types [ExtNumber] and [option ExtNumber] are used.
    - A JavaScript string is a [string] of Latin-1 code units.
    - Built-ins of the runtime whose result is not fixed by the program
      (number printing, [JSON.parse], string-to-number conversion) are
      the fields of the class [JSRuntime]; the AI providers are oracles.
    - Logging is dropped: it has no effect on any result. *)

From Stdlib Require Import QArith Qround Qabs Qminmax Qpower Qreduction.
From Stdlib Require Import ZArith String Ascii List Lia Lqa.
From Stdlib Require Import DecimalString Sorted Permutation.
From stdpp Require Import gmap strings list.

Open Scope Q_scope.

(** ** Characters and strings of the runtime *)

Module JS.

Definition code (c : ascii) : N := N_of_ascii c.

Definition isDigit (c : ascii) : bool :=
  ((48 <=? code c) && (code c <=? 57))%N.

(** The class [\s] of regular expressions, which is also what [trim]
    strips, on code units below 256. *)
Definition isWhiteSpace (c : ascii) : bool :=
  (((9 <=? code c) && (code c <=? 13)) || (code c =? 32) || (code c =? 160))%N.

Definition isChar (a : ascii) (c : ascii) : bool := Ascii.eqb a c.

(** [String.prototype.toLowerCase] on Latin-1. *)
Definition lowerChar (c : ascii) : ascii :=
  let n := code c in
  if ((65 <=? n) && (n <=? 90))%N then ascii_of_N (n + 32)
  else if ((192 <=? n) && (n <=? 222) && negb (n =? 215))%N then ascii_of_N (n + 32)
  else c.

Fixpoint toLowerCase (s : string) : string :=
  match s with
  | EmptyString => EmptyString
  | String c s' => String (lowerChar c) (toLowerCase s')
  end.

Fixpoint trimStart (s : string) : string :=
  match s with
  | EmptyString => EmptyString
  | String c s' => if isWhiteSpace c then trimStart s' else s
  end.

Fixpoint trimEnd (s : string) : string :=
  match s with
  | EmptyString => EmptyString
  | String c s' =>
      match trimEnd s' with
      | EmptyString => if isWhiteSpace c then EmptyString else String c EmptyString
      | t => String c t
      end
  end.

Definition trim (s : string) : string := trimEnd (trimStart s).

(** [s.replace(/[...]/g, '')] for a character class [p]. *)
Fixpoint removeAll (p : ascii -> bool) (s : string) : string :=
  match s with
  | EmptyString => EmptyString
  | String c s' => if p c then removeAll p s' else String c (removeAll p s')
  end.

(** [s.replace(/\s+/g, ' ')]: every maximal run of white space becomes one
    space; [inRun] tells that the previous character was white space. *)
Fixpoint collapseSpaces (inRun : bool) (s : string) : string :=
  match s with
  | EmptyString => EmptyString
  | String c s' =>
      if isWhiteSpace c
      then (if inRun then collapseSpaces true s'
            else String " " (collapseSpaces true s'))
      else String c (collapseSpaces false s')
  end.

Definition startsWith (s p : string) : bool := String.prefix p s.

(** [s.includes(p)] *)
Fixpoint includes (s p : string) : bool :=
  String.prefix p s ||
  match s with
  | EmptyString => false
  | String _ s' => includes s' p
  end.

(** [s.padEnd(n, '0')] *)
Definition padEnd0 (n : nat) (s : string) : string :=
  s +:+ string_of_list_ascii (repeat "0"%char (n - String.length s)).

(** Truthiness of a string: the empty string is falsy. *)
Definition truthy (s : string) : bool :=
  match s with EmptyString => false | _ => true end.

(** *** Doubles

    The value of a double is a whole multiple of a power of two, of at most
    53 bits, the power being at least [2^-1074].  The results that the
    program computes from doubles stay within the finite range, so that
    the greatest exponent plays no part here. *)

(** The exponent of the power of two at or below a positive number. *)
Definition binade (x : Q) : Z :=
  let k := (Z.log2 (Qnum x) - Z.log2 (Zpos (Qden x)))%Z in
  if Qle_bool (2 ^ k) x then k else (k - 1)%Z.

(** The nearest integer, ties to even. *)
Definition nearestEven (y : Q) : Z :=
  let f := Qfloor y in
  match Qcompare (y - inject_Z f) (1 # 2) with
  | Lt => f
  | Gt => (f + 1)%Z
  | Eq => if Z.even f then f else (f + 1)%Z
  end.

(** The gap between the doubles around a positive number. *)
Definition ulp (a : Q) : Q := 2 ^ Z.max (binade a - 52) (-1074).

(** The double nearest to a positive number, and to any number. *)
Definition flpos (a : Q) : Q := inject_Z (nearestEven (a / ulp a)) * ulp a.

Definition fl (x : Q) : Q :=
  match Qnum x with
  | Z0 => 0
  | Zpos _ => Qred (flpos x)
  | Zneg _ => Qred (- flpos (- x))
  end.

Definition isDouble (x : Q) : Prop := fl x == x.

(** [a + b], [a - b], [a * b], [a / b]: an operand written as a decimal
    stands for its nearest double. *)
Definition add (a b : Q) : Q := fl (fl a + fl b).
Definition sub (a b : Q) : Q := fl (fl a - fl b).
Definition mul (a b : Q) : Q := fl (fl a * fl b).
Definition div (a b : Q) : Q := fl (fl a / fl b).

(** [a === b] where one side is a decimal literal. *)
Definition same (a b : Q) : bool := Qeq_bool (fl a) (fl b).

(** *** Decimal literals *)

Definition digitValue (c : ascii) : Z := Z.of_N (code c) - 48.

Fixpoint digitsValue (acc : Z) (s : string) : Z :=
  match s with
  | EmptyString => acc
  | String c s' => digitsValue (10 * acc + digitValue c) s'
  end.

(** The longest prefix of digits, and what follows it. *)
Fixpoint spanDigits (s : string) : string * string :=
  match s with
  | EmptyString => (EmptyString, EmptyString)
  | String c s' =>
      if isDigit c then let '(d, r) := spanDigits s' in (String c d, r)
      else (EmptyString, s)
  end.

(** [parseInt] in base ten: leading white space, a sign, then the longest
    run of digits; [None] is [NaN]. *)
Definition parseInt (s : string) : option Z :=
  let t := trimStart s in
  let '(neg, t) :=
    match t with
    | String "-" r => (true, r)
    | String "+" r => (false, r)
    | _ => (false, t)
    end in
  match spanDigits t with
  | (EmptyString, _) => None
  | (d, _) => Some (if neg then - digitsValue 0 d else digitsValue 0 d)%Z
  end.

Definition pow10 (n : nat) : positive := Pos.pow 10 (Pos.of_nat n).

Definition decimal (int frac : string) : Q :=
  match frac with
  | EmptyString => inject_Z (digitsValue 0 int)
  | _ => Qmake (digitsValue 0 (int +:+ frac)) (pow10 (String.length frac))
  end.

(** The exponent part of a decimal literal, when one is there, and what
    follows it. *)
Definition exponentPart (s : string) : Z * string :=
  match s with
  | String e r =>
      if isChar "e" e || isChar "E" e then
        let '(neg, r') :=
          match r with
          | String "-" r' => (true, r')
          | String "+" r' => (false, r')
          | _ => (false, r)
          end in
        match spanDigits r' with
        | (EmptyString, _) => (0%Z, s)
        | (d, rest) => (if neg then (- digitsValue 0 d)%Z else digitsValue 0 d, rest)
        end
      else (0%Z, s)
  | EmptyString => (0%Z, s)
  end.

(** The longest prefix that is an unsigned decimal literal, as its value
    and what follows it. *)
Definition readDecimal (t : string) : option (Q * string) :=
  let '(int, r) := spanDigits t in
  let '(frac, r) :=
    match r with
    | String "." r' => spanDigits r'
    | _ => (EmptyString, r)
    end in
  match int, frac with
  | EmptyString, EmptyString => None
  | _, _ =>
      let '(e, rest) := exponentPart r in
      Some (decimal int frac * Qpower 10 e, rest)
  end.

(** [parseFloat]: leading white space, a sign, and the longest prefix that
    is a decimal literal, as its nearest double; [None] is [NaN].  The
    literal [Infinity] has no finite value and is not read. *)
Definition parseFloat (s : string) : option Q :=
  let t := trimStart s in
  let '(neg, t) :=
    match t with
    | String "-" r => (true, r)
    | String "+" r => (false, r)
    | _ => (false, t)
    end in
  match readDecimal t with
  | Some (m, _) => Some (fl (if neg then - m else m))
  | None => None
  end.

(** [Math.round]: the nearest integer, halves towards plus infinity. *)
Definition round (x : Q) : Q := inject_Z (Qfloor (x + (1 # 2))).

(** Comparisons of numbers: [a <= b], [a < b], [a === b]. *)
Definition leb (a b : Q) : bool := Qle_bool a b.
Definition ltb (a b : Q) : bool := negb (Qle_bool b a).
Definition eqb (a b : Q) : bool := Qeq_bool a b.

Definition min (a b : Q) : Q := if ltb b a then b else a.
Definition max (a b : Q) : Q := if ltb a b then b else a.
Definition abs (a : Q) : Q := Qabs a.

End JS.

(** ** Regular expressions

    The backtracking matcher of the language standard, in continuation
    passing style: a matcher takes the rest of the input, the captures so
    far and a continuation, and returns the first success in priority
    order.  Only the constructs the patterns of the program use are
    present. *)

Module RegExp.

Inductive regex : Type :=
| Class (p : ascii -> bool)                      (* [\d], [\s], a literal  *)
| Seq (r1 r2 : regex)                            (* [r1 r2]                *)
| Quant (r : regex) (lo : nat) (hi : option nat) (* greedy [r{lo,hi}]      *)
| Group (i : nat) (r : regex)                    (* capture group number i *)
| NotFollowedBy (r : regex).                     (* [(?!r)]                *)

Definition captures := list (option string).
Definition result := (string * captures)%type.
Definition continuation := string -> captures -> option result.
Definition matcher := string -> captures -> continuation -> option result.

(** What was consumed between the input [s] and its suffix [s']. *)
Definition consumed (s s' : string) : string :=
  String.substring 0 (String.length s - String.length s') s.

Fixpoint groupsOf (r : regex) : list nat :=
  match r with
  | Class _ => []
  | Seq r1 r2 => groupsOf r1 ++ groupsOf r2
  | Quant r' _ _ => groupsOf r'
  | Group i r' => i :: groupsOf r'
  | NotFollowedBy r' => groupsOf r'
  end.

Definition clearGroups (gs : list nat) (c : captures) : captures :=
  foldr (fun i acc => <[i := None]> acc) c gs.

(** RepeatMatcher of the standard, greedy; [fuel] bounds the number of
    iterations, each of which either counts towards [lo] or consumes
    input. *)
Fixpoint repeatMatcher (m : matcher) (gs : list nat) (fuel lo : nat)
    (hi : option nat) (s : string) (c : captures) (k : continuation)
    : option result :=
  match fuel with
  | O => None
  | S fuel' =>
      match hi with
      | Some O => k s c
      | _ =>
          let d : continuation := fun s' c' =>
            if Nat.eqb lo 0 && Nat.eqb (String.length s') (String.length s)
            then None
            else repeatMatcher m gs fuel' (pred lo) (pred <$> hi) s' c' k in
          let more := m s (clearGroups gs c) d in
          match lo with
          | S _ => more
          | O => match more with
                 | Some r => Some r
                 | None => k s c
                 end
          end
      end
  end.

Fixpoint matchR (r : regex) : matcher :=
  fun s c k =>
  match r with
  | Class p =>
      match s with
      | String a s' => if p a then k s' c else None
      | EmptyString => None
      end
  | Seq r1 r2 => matchR r1 s c (fun s' c' => matchR r2 s' c' k)
  | Quant r' lo hi =>
      repeatMatcher (matchR r') (groupsOf r') (S (String.length s + lo)) lo hi s c k
  | Group i r' =>
      matchR r' s c (fun s' c' => k s' (<[i := Some (consumed s s')]> c'))
  | NotFollowedBy r' =>
      match matchR r' s c (fun s' c' => Some (s', c')) with
      | Some _ => None
      | None => k s c
      end
  end.

(** [s.match(r)] for a pattern without the global flag: the leftmost
    match, as the array of the whole match and the [n] groups. *)
Fixpoint exec (r : regex) (n : nat) (s : string) : option captures :=
  match matchR r s (replicate (S n) None)
          (fun s' c' => Some (s', <[0%nat := Some (consumed s s')]> c')) with
  | Some (_, c) => Some c
  | None =>
      match s with
      | EmptyString => None
      | String _ s' => exec r n s'
      end
  end.

(** [m[i]], the empty string standing for an unset group. *)
Definition group (m : captures) (i : nat) : string :=
  match m !! i with
  | Some (Some g) => g
  | _ => EmptyString
  end.

Definition isSet (m : captures) (i : nat) : bool :=
  match m !! i with
  | Some (Some _) => true
  | _ => false
  end.

(** A pattern that cannot match without reading a digit first. *)
Fixpoint digitFirst (r : regex) : Prop :=
  match r with
  | Class p => forall c, p c = true -> JS.isDigit c = true
  | Seq r1 _ => digitFirst r1
  | Quant r' (S _) None | Quant r' (S _) (Some (S _)) => digitFirst r'
  | Quant _ _ _ => False
  | Group _ r' => digitFirst r'
  | NotFollowedBy _ => False
  end.

Definition noDigitAhead (s : string) : Prop :=
  match s with
  | EmptyString => True
  | String c _ => JS.isDigit c = false
  end.

(** What a greedy star over the class of all characters computes: the
    continuation is tried on every suffix of the input, the shortest
    first. *)
Fixpoint shortestSuffix (k : continuation) (s : string) (c : captures)
    : option result :=
  match s with
  | EmptyString => k s c
  | String _ s' =>
      match shortestSuffix k s' c with
      | Some r => Some r
      | None => k s c
      end
  end.

Definition digit : regex := Class JS.isDigit.
Definition space : regex := Class JS.isWhiteSpace.
Definition lit (a : ascii) : regex := Class (JS.isChar a).
Definition anyChar : regex := Class (fun _ => true).
Definition plus (r : regex) : regex := Quant r 1 None.
Definition star (r : regex) : regex := Quant r 0 None.
Definition opt (r : regex) : regex := Quant r 0 (Some 1%nat).

(** A continuation that reads a closing brace first. *)
Definition closing (k : continuation) : continuation :=
  fun s c => matchR (lit "}") s c k.

End RegExp.

(** ** The price parser of the site profiles

    All five profiles carry the same [priceParser]. *)

Section PricePatterns.
Import RegExp.

(** [/(\d+)\s*(\d{2})(?!\d)/] *)
Definition dollarsAndCentsRe : regex :=
  Seq (Group 1 (plus digit))
 (Seq (star space)
 (Seq (Group 2 (Quant digit 2 (Some 2%nat)))
      (NotFollowedBy digit))).

(** [\d+\.?\d{0,2}] *)
Definition amountRe : regex :=
  Seq (plus digit) (Seq (opt (lit ".")) (Quant digit 0 (Some 2%nat))).

(** [/(\d+\.?\d{0,2})\s*-\s*(\d+\.?\d{0,2})/] *)
Definition rangeRe : regex :=
  Seq (Group 1 amountRe)
 (Seq (star space)
 (Seq (lit "-")
 (Seq (star space)
      (Group 2 amountRe)))).

(** [/(\d+)(?:\.(\d{1,2}))?/] *)
Definition priceRe : regex :=
  Seq (Group 1 (plus digit))
      (opt (Seq (lit ".") (Group 2 (Quant digit 1 (Some 2%nat))))).

Definition cleanText (text : string) : string :=
  JS.trim (JS.collapseSpaces false
    (JS.removeAll (fun c => JS.isChar "," c || JS.isChar "$" c) text)).

Definition orZero (z : option Z) : Z := default 0%Z z.

(** [null] and [NaN] are both [None]: every caller tests the result for
    truthiness only. *)
Definition priceParser (text : string) : option Q :=
  let cleanText := cleanText text in
  match exec dollarsAndCentsRe 2 cleanText with
  | Some m =>
      (* the test on the length of the second group always holds *)
      JS.parseFloat (group m 1 +:+ "." +:+ group m 2)
  | None =>
      match exec rangeRe 2 cleanText with
      | Some m => JS.parseFloat (group m 1)
      | None =>
          match exec priceRe 2 cleanText with
          | Some m =>
              match JS.parseInt (group m 1) with
              | Some dollars =>
                  let cents :=
                    if isSet m 2
                    then orZero (JS.parseInt (JS.padEnd0 2 (group m 2)))
                    else 0%Z in
                  Some (JS.add (inject_Z dollars) (JS.div (inject_Z cents) 100))
              | None => None
              end
          | None => None
          end
      end
  end.

End PricePatterns.

(** A site profile, as far as extraction reads it. *)
Module SiteConfig.

Record t : Type := {
  name : string;
  baseUrl : string;
  selectsOriginalPrice : bool;   (* [selectors.originalPrice] is given *)
  selectsAvailability : bool;    (* [selectors.availability] is given  *)
  priceParser : string -> option Q
}.

End SiteConfig.

Definition SITE_CONFIGS : list SiteConfig.t :=
  [ {| SiteConfig.name := "Amazon";
       SiteConfig.baseUrl := "https://www.amazon.com";
       SiteConfig.selectsOriginalPrice := true;
       SiteConfig.selectsAvailability := true;
       SiteConfig.priceParser := priceParser |};
    {| SiteConfig.name := "eBay";
       SiteConfig.baseUrl := "https://www.ebay.com";
       SiteConfig.selectsOriginalPrice := true;
       SiteConfig.selectsAvailability := false;
       SiteConfig.priceParser := priceParser |};
    {| SiteConfig.name := "Walmart";
       SiteConfig.baseUrl := "https://www.walmart.com";
       SiteConfig.selectsOriginalPrice := true;
       SiteConfig.selectsAvailability := false;
       SiteConfig.priceParser := priceParser |};
    {| SiteConfig.name := "Best Buy";
       SiteConfig.baseUrl := "https://www.bestbuy.com";
       SiteConfig.selectsOriginalPrice := true;
       SiteConfig.selectsAvailability := false;
       SiteConfig.priceParser := priceParser |};
    {| SiteConfig.name := "Target";
       SiteConfig.baseUrl := "https://www.target.com";
       SiteConfig.selectsOriginalPrice := true;
       SiteConfig.selectsAvailability := true;
       SiteConfig.priceParser := priceParser |} ].

(** ** Deals *)

Record Deal : Type := {
  title : string;
  originalPrice : option Q;        (* [null] is [None] *)
  currentPrice : Q;
  discountPercentage : Q;
  url : string;
  image : option string;
  site : string;
  availability : string
}.

(** ** Extraction and normalization (class WebScrapingService) *)

Module WebScrapingService.

(** What the selectors of a profile find inside one product container:
    the text of an element, or the value of an attribute, [None] when the
    element or the attribute is absent. *)
Record Product : Type := {
  titleText : option string;
  currentPriceElText : option string;
  originalPriceElText : option string;
  imageSrc : option string;
  imageDataSrc : option string;
  linkHref : option string;
  availabilityElText : option string
}.

(** [a || b] on attribute values. *)
Definition orAttr (a b : option string) : option string :=
  match a with
  | Some x => if JS.truthy x then a else b
  | None => b
  end.

Definition truthyOpt (a : option string) : bool :=
  match a with
  | Some x => JS.truthy x
  | None => false
  end.

(** The discount computed from the two parsed prices. *)
Definition computeDiscount (originalPrice : option Q) (currentPrice : Q) : Q :=
  match originalPrice with
  | Some o =>
      if negb (JS.eqb o 0) && JS.ltb currentPrice o
      then JS.mul (JS.div (JS.sub o currentPrice) o) 100
      else 0
  | None => 0
  end.

Definition resolveUrl (cfg : SiteConfig.t) (u : option string) : option string :=
  match u with
  | Some fullUrl =>
      if JS.truthy fullUrl && negb (JS.startsWith fullUrl "http")
      then Some (SiteConfig.baseUrl cfg
                 +:+ (if JS.startsWith fullUrl "/" then "" else "/") +:+ fullUrl)
      else u
  | None => None
  end.

Definition resolveImageUrl (cfg : SiteConfig.t) (u : option string) : option string :=
  match u with
  | Some fullImageUrl =>
      if JS.truthy fullImageUrl && negb (JS.startsWith fullImageUrl "http")
         && negb (JS.startsWith fullImageUrl "data:")
      then Some (SiteConfig.baseUrl cfg
                 +:+ (if JS.startsWith fullImageUrl "/" then "" else "/")
                 +:+ fullImageUrl)
      else u
  | None => None
  end.

(** The body shared by the two loops that turn extracted texts into a
    [Deal]; [None] is a listing that is skipped. *)
Definition processListing (cfg : SiteConfig.t) (pageUrl : string)
    (title currentPriceText : string) (originalPriceText : option string)
    (imageUrl productUrl : option string) (availability : string)
    : option Deal :=
  let currentPrice := SiteConfig.priceParser cfg currentPriceText in
  let originalPrice :=
    if truthyOpt originalPriceText
    then SiteConfig.priceParser cfg (default "" originalPriceText)
    else None in
  match currentPrice with
  | None => None
  | Some currentPrice =>
      if JS.eqb currentPrice 0 || JS.leb currentPrice 0 then None
      else
        let discountPercentage := computeDiscount originalPrice currentPrice in
        if JS.ltb discountPercentage 10 then None
        else
          let fullUrl := resolveUrl cfg productUrl in
          let fullImageUrl := resolveImageUrl cfg imageUrl in
          Some {| title := title;
                  originalPrice := originalPrice;
                  currentPrice := currentPrice;
                  discountPercentage := JS.round discountPercentage;
                  url := if truthyOpt fullUrl then default "" fullUrl else pageUrl;
                  image := fullImageUrl;
                  site := SiteConfig.name cfg;
                  availability := availability |}
  end.

(** One product of [scrapeWithPuppeteer]: the in-page extraction, then the
    processing loop. *)
Definition puppeteerListing (cfg : SiteConfig.t) (pageUrl : string) (p : Product)
    : option Deal :=
  match titleText p, currentPriceElText p with
  | Some titleEl, Some currentPriceEl =>
      let title := JS.trim titleEl in
      let currentPriceText := JS.trim currentPriceEl in
      let originalPriceText :=
        if SiteConfig.selectsOriginalPrice cfg
        then JS.trim <$> originalPriceElText p else None in
      let imageUrl := orAttr (imageSrc p) (imageDataSrc p) in
      let productUrl := linkHref p in
      let availability :=
        let a := if SiteConfig.selectsAvailability cfg
                 then JS.trim <$> availabilityElText p else None in
        if truthyOpt a then default "" a else "Unknown" in
      if negb (JS.truthy title) || negb (JS.truthy currentPriceText) then None
      else processListing cfg pageUrl title currentPriceText originalPriceText
             imageUrl productUrl availability
  | _, _ => None
  end.

(** One product of [scrapeWithCheerio]: [find(...).text()] of an absent
    element is the empty string. *)
Definition cheerioListing (cfg : SiteConfig.t) (pageUrl : string) (p : Product)
    : option Deal :=
  let title := JS.trim (default "" (titleText p)) in
  let currentPriceText := JS.trim (default "" (currentPriceElText p)) in
  let originalPriceText :=
    if SiteConfig.selectsOriginalPrice cfg
    then JS.trim (default "" (originalPriceElText p)) else "" in
  let imageUrl := orAttr (orAttr (imageSrc p) (imageDataSrc p)) None in
  let productUrl := orAttr (linkHref p) None in
  let availability :=
    if SiteConfig.selectsAvailability cfg
    then JS.trim (default "" (availabilityElText p)) else "Unknown" in
  if negb (JS.truthy title) || negb (JS.truthy currentPriceText) then None
  else processListing cfg pageUrl title currentPriceText (Some originalPriceText)
         imageUrl productUrl availability.

(** The original price a listing is given: the parse of the trimmed text
    of its element, when the profile selects one and the text is not
    empty. *)
Definition parsedOriginal (cfg : SiteConfig.t) (p : Product) : option Q :=
  let ot := JS.trim (default "" (originalPriceElText p)) in
  if SiteConfig.selectsOriginalPrice cfg && JS.truthy ot
  then SiteConfig.priceParser cfg ot else None.

(** At most twenty products of a page are read. *)
Definition scrapeWithPuppeteer (cfg : SiteConfig.t) (pageUrl : string)
    (products : list Product) : list Deal :=
  omap (puppeteerListing cfg pageUrl) (take 20 products).

Definition scrapeWithCheerio (cfg : SiteConfig.t) (pageUrl : string)
    (products : list Product) : list Deal :=
  omap (cheerioListing cfg pageUrl) (take 20 products).

End WebScrapingService.

(** ** Values of an AI response *)

(** A number that is not [NaN]. *)
Inductive ExtNumber : Type :=
| Finite (q : Q)
| PosInfinity
| NegInfinity.

#[warnings="-register-all"]
Inductive JSON : Type :=
| JNull
| JBool (b : bool)
| JNumber (n : ExtNumber)
| JString (s : string)
| JArray (l : list JSON)
| JObject (o : gmap string JSON).

(** The built-ins whose results the program takes as given. *)
Class JSRuntime : Type := {
  (** [Number.prototype.toString] of a finite number *)
  numberToString : Q -> string;
  (** the conversion of a string to a number, [None] for [NaN] *)
  stringToNumber : string -> option ExtNumber;
  (** [JSON.parse], [None] when it throws *)
  JSON_parse : string -> option JSON
}.

Module Value.
Section WithRuntime.
Context {rt : JSRuntime}.

(** Equal numbers print alike: the number is printed from its reduced
    fraction. *)
Definition printNumber (q : Q) : string := numberToString (Qred q).

Definition printExt (n : ExtNumber) : string :=
  match n with
  | Finite q => printNumber q
  | PosInfinity => "Infinity"
  | NegInfinity => "-Infinity"
  end.

Definition printZ (z : Z) : string := NilZero.string_of_int (Z.to_int z).

(** [x.toFixed(1)] *)
Definition toFixed1 (x : Q) : string :=
  let a := Qabs x in
  if JS.leb (inject_Z (10 ^ 21)) a then printNumber x
  else
    let n := Qfloor (a * 10 + (1 # 2)) in
    (if JS.ltb x 0 then "-" else "")
      +:+ printZ (n / 10) +:+ "." +:+ printZ (n mod 10).

(** [String(v)]; [None] is the [TypeError] thrown.  A value read from
    JSON holds no function: an object with a property [toString] of its own
    has no method to convert it, and neither has an array that holds such an
    object; every other object takes the method of [Object.prototype]. *)
Fixpoint toString (v : JSON) : option string :=
  match v with
  | JNull => Some "null"
  | JBool b => Some (if b then "true" else "false")
  | JNumber n => Some (printExt n)
  | JString s => Some s
  | JArray l =>
      (fix join (l : list JSON) : option string :=
         match l with
         | [] => Some ""
         | x :: l' =>
             match (match x with JNull => Some "" | _ => toString x end) with
             | None => None
             | Some e =>
                 match l' with
                 | [] => Some e
                 | _ =>
                     match join l' with
                     | None => None
                     | Some r => Some (e +:+ "," +:+ r)
                     end
                 end
             end
         end) l
  | JObject o =>
      if bool_decide (is_Some (o !! "toString")) then None
      else Some "[object Object]"
  end.

(** [Boolean(v)]; [None] is [undefined]. *)
Definition toBoolean (v : option JSON) : bool :=
  match v with
  | None | Some JNull => false
  | Some (JBool b) => b
  | Some (JNumber (Finite q)) => negb (JS.eqb q 0)
  | Some (JNumber _) => true
  | Some (JString s) => JS.truthy s
  | Some (JArray _) | Some (JObject _) => true
  end.

(** [Number(v)]: [None] is the [TypeError] thrown, the result [None] is
    [NaN].  An array or an object is first converted to a string. *)
Definition toNumber (v : option JSON) : option (option ExtNumber) :=
  match v with
  | None => Some None
  | Some JNull => Some (Some (Finite 0))
  | Some (JBool b) => Some (Some (Finite (if b then 1 else 0)))
  | Some (JNumber n) => Some (Some n)
  | Some (JString s) => Some (stringToNumber s)
  | Some (JArray l) => stringToNumber <$> toString (JArray l)
  | Some (JObject o) => (fun _ => None) <$> toString (JObject o)
  end.

(** [n || d] for a number [n]: zero and [NaN] are falsy. *)
Definition numberOr (n : option ExtNumber) (d : Q) : ExtNumber :=
  match n with
  | None => Finite d
  | Some (Finite q) => if JS.eqb q 0 then Finite d else Finite q
  | Some e => e
  end.

(** [Math.max(lo, Math.min(hi, n))] *)
Definition clamp (lo hi : Q) (n : ExtNumber) : Q :=
  match n with
  | Finite q => JS.max lo (JS.min hi q)
  | PosInfinity => JS.max lo hi
  | NegInfinity => lo
  end.

(** [v.k]: [None] is [undefined].  None of the property names read from a
    response is a property of a primitive or of an array.  Reading a
    property of [null] throws, which the caller tests beforehand. *)
Definition prop (v : JSON) (k : string) : option JSON :=
  match v with
  | JObject o => o !! k
  | _ => None
  end.

End WithRuntime.
End Value.

(** ** The filtering service (class DealFilteringService) *)

Inductive Recommendation : Type := HIGH | MEDIUM | LOW.

Module PricingAnalysisResult.
Record t : Type := {
  isLegitimate : bool;
  confidenceScore : Q;
  pricingGlitchProbability : Q;
  analysis : string;
  suspiciousFactors : list JSON;
  recommendation : Recommendation
}.
End PricingAnalysisResult.

Record MathValidation : Type := {
  valid : bool;
  actualDiscount : Q;
  flags : list string
}.

Record FilteredDeal : Type := {
  deal : Deal;                       (* the spread [...deal] *)
  confidenceScore : Q;
  pricingGlitchProbability : Q;
  filteringReason : string;
  validationFlags : list string;
  aiAnalysis : string;
  suspiciousFactors : list JSON;
  recommendationLevel : Recommendation
}.

(** The two text-generation services.  The prompt is a function of the
    deal, so a provider is an oracle on the deal; the number is the
    position of the deal in the run, as answers may differ from call to
    call.  [None] is a failed call. *)
Record Providers : Type := {
  perplexity : nat -> Deal -> option string;
  openai : nat -> Deal -> option string
}.

(** ** Base64 of the UTF-8 bytes of a string ([Buffer]) *)

Module Buffer.

(** [Buffer.from(s)]: the UTF-8 encoding of Latin-1 code units. *)
Definition utf8 (c : ascii) : list Z :=
  let n := Z.of_N (JS.code c) in
  if (n <? 128)%Z then [n]
  else [Z.lor 192 (Z.shiftr n 6); Z.lor 128 (Z.land n 63)].

Fixpoint from (s : string) : list Z :=
  match s with
  | EmptyString => []
  | String c s' => utf8 c ++ from s'
  end.

Definition alphabet : string :=
  "ABCDEFGHIJKLMNOPQRSTUVWXYZabcdefghijklmnopqrstuvwxyz0123456789+/".

Definition sextet (n : Z) : ascii :=
  default "="%char (String.get (Z.to_nat n) alphabet).

(** [buf.toString('base64')] *)
Fixpoint base64 (bs : list Z) : string :=
  match bs with
  | [] => ""
  | [a] =>
      String (sextet (Z.shiftr a 2))
     (String (sextet (Z.shiftl (Z.land a 3) 4)) "==")
  | [a; b] =>
      String (sextet (Z.shiftr a 2))
     (String (sextet (Z.lor (Z.shiftl (Z.land a 3) 4) (Z.shiftr b 4)))
     (String (sextet (Z.shiftl (Z.land b 15) 2)) "="))
  | a :: b :: c :: rest =>
      String (sextet (Z.shiftr a 2))
     (String (sextet (Z.lor (Z.shiftl (Z.land a 3) 4) (Z.shiftr b 4)))
     (String (sextet (Z.lor (Z.shiftl (Z.land b 15) 2) (Z.shiftr c 6)))
     (String (sextet (Z.land c 63)) (base64 rest))))
  end.

End Buffer.

Module DealFilteringService.
Import Value.

(** What happens to one deal of the input within [filterDeals]. *)
Inductive Outcome : Type :=
| Duplicate                 (* skipped: hash already seen            *)
| MathInvalid               (* failed math validation                *)
| Failed                    (* both AI services failed: caught error *)
| FilteredOut               (* scored, but not selected              *)
| Accepted (fd : FilteredDeal).

Section WithRuntime.
Context {rt : JSRuntime}.

Definition dealKey (d : Deal) : string :=
  site d +:+ "-" +:+ JS.trim (JS.toLowerCase (title d)) +:+ "-"
    +:+ printNumber (currentPrice d).

Definition generateDealHash (d : Deal) : string :=
  String.substring 0 32 (Buffer.base64 (Buffer.from (dealKey d))).

Definition mismatchFlag (actualDiscount reported : Q) : string :=
  "Discount mismatch: calculated " +:+ toFixed1 actualDiscount
    +:+ "% vs reported " +:+ printNumber reported +:+ "%".

Definition extremeFlag : string :=
  "Extremely high discount (>95%) - likely pricing glitch".

Definition guardFlag : string :=
  "Reported discount much higher than calculated - suspicious".

Definition validateDiscountMath (d : Deal) : MathValidation :=
  match originalPrice d with
  | None =>
      {| valid := false; actualDiscount := 0;
         flags := ["No valid original price provided"] |}
  | Some original =>
      if JS.eqb original 0 || JS.leb original 0 then
        {| valid := false; actualDiscount := 0;
           flags := ["No valid original price provided"] |}
      else if JS.leb (currentPrice d) 0 then
        {| valid := false; actualDiscount := 0;
           flags := ["Invalid current price"] |}
      else if JS.leb original (currentPrice d) then
        {| valid := false; actualDiscount := 0;
           flags := ["Current price is not lower than original price"] |}
      else
        let actualDiscount :=
          JS.mul (JS.div (JS.sub original (currentPrice d)) original) 100 in
        let discountDifference :=
          JS.abs (JS.sub actualDiscount (discountPercentage d)) in
        let flags1 :=
          if JS.ltb 5 discountDifference
          then [mismatchFlag actualDiscount (discountPercentage d)] else [] in
        let flags2 :=
          if JS.ltb 95 actualDiscount
          then flags1 ++ [extremeFlag]
          else flags1 in
        if JS.ltb actualDiscount 50 && JS.leb 90 (discountPercentage d) then
          {| valid := false; actualDiscount := actualDiscount;
             flags := flags2 ++ [guardFlag] |}
        else
          {| valid := JS.leb 50 actualDiscount;
             actualDiscount := actualDiscount;
             flags := flags2 |}
  end.

Definition roundNumbers : list Q := [0.1; 0.5; 1.0; 5.0; 10.0; 20.0; 50.0].

Definition qualityBrands : list string :=
  ["apple"; "samsung"; "sony"; "nike"; "adidas"; "louis vuitton"; "gucci"; "prada"].

(** [/\d{10,}/] *)
Definition longNumberRe : RegExp.regex := RegExp.Quant RegExp.digit 10 None.

Definition pushIf (b : bool) (x : string) (l : list string) : list string :=
  if b then l ++ [x] else l.

Definition detectSuspiciousPricing (d : Deal) : list string :=
  let f1 := pushIf (JS.ltb (currentPrice d) 1)
              "Price under $1 - likely pricing error" [] in
  let f2 := pushIf (JS.same (currentPrice d) 0.01)
              "Penny pricing - classic pricing glitch" f1 in
  let f3 := pushIf (existsb (JS.same (currentPrice d)) roundNumbers
                    && match originalPrice d with
                       | Some o => negb (JS.eqb o 0) && JS.ltb 100 o
                       | None => false
                       end)
              "Suspiciously round pricing for expensive item" f2 in
  let title := JS.toLowerCase (title d) in
  let hasQualityBrand := existsb (JS.includes title) qualityBrands in
  let f4 := pushIf (hasQualityBrand && JS.ltb (currentPrice d) 20)
              "High-end brand at very low price - potential glitch" f3 in
  let f5 := pushIf (String.length title <? 10)%nat
              "Very short product title - possibly incomplete" f4 in
  let f6 := pushIf (bool_decide (is_Some (RegExp.exec longNumberRe 0 title)))
              "Title contains long number sequences - possibly corrupted" f5 in
  pushIf (JS.includes (JS.toLowerCase (availability d)) "limited"
          && JS.ltb 90 (discountPercentage d))
    "Limited availability with extreme discount - possible error" f6.

(** [/\{[\s\S]*\}/] *)
Definition jsonRe : RegExp.regex :=
  RegExp.Seq (RegExp.lit "{")
 (RegExp.Seq (RegExp.star RegExp.anyChar)
             (RegExp.lit "}")).

Definition extractJson (text : string) : string :=
  match RegExp.exec jsonRe 0 text with
  | Some jsonMatch => RegExp.group jsonMatch 0
  | None => text
  end.

Definition parseRecommendation (v : option JSON) : Recommendation :=
  match v with
  | Some (JString r) =>
      if String.eqb r "HIGH" then HIGH
      else if String.eqb r "LOW" then LOW
      else MEDIUM
  | _ => MEDIUM
  end.

(** The text of the analysis: [String(parsedResponse.analysis || ...)]. *)
Definition analysisText (v : option JSON) : option string :=
  if toBoolean v then toString (default JNull v)
  else Some "No analysis provided".

(** The validated and sanitized response; [None] when a conversion
    throws. *)
Definition sanitize (parsedResponse : JSON) : option PricingAnalysisResult.t :=
  let get := prop parsedResponse in
  confidence ← toNumber (get "confidenceScore");
  glitch ← toNumber (get "pricingGlitchProbability");
  analysis ← analysisText (get "analysis");
  Some
    {| PricingAnalysisResult.isLegitimate := toBoolean (get "isLegitimate");
       PricingAnalysisResult.confidenceScore := clamp 0 100 (numberOr confidence 50);
       PricingAnalysisResult.pricingGlitchProbability :=
         clamp 0 100 (numberOr glitch 0);
       PricingAnalysisResult.analysis := analysis;
       PricingAnalysisResult.suspiciousFactors :=
         match get "suspiciousFactors" with
         | Some (JArray l) => l
         | _ => []
         end;
       PricingAnalysisResult.recommendation :=
         parseRecommendation (get "recommendation") |}.

(** [None] is the error thrown for a response that cannot be parsed; a
    property of [null] cannot be read, and a field may have no conversion,
    which throw as well. *)
Definition parseAIResponse (text : string) : option PricingAnalysisResult.t :=
  let jsonStr := extractJson text in
  match JSON_parse jsonStr with
  | None => None
  | Some JNull => None
  | Some parsedResponse => sanitize parsedResponse
  end.

(** Perplexity first; on any failure of the call or of the parsing, OpenAI;
    [None] when both fail. *)
Definition analyzeWithAI (ai : Providers) (n : nat) (d : Deal)
    : option PricingAnalysisResult.t :=
  match perplexity ai n d ≫= parseAIResponse with
  | Some r => Some r
  | None => openai ai n d ≫= parseAIResponse
  end.

Definition calculateOverallScore (mathValidation : MathValidation)
    (aiAnalysis : PricingAnalysisResult.t) (suspiciousFactors : list string) : Q :=
  let score := 50 in
  let score :=
    if valid mathValidation
    then JS.add score (JS.min 30 (JS.mul (actualDiscount mathValidation) 0.3))
    else JS.sub score 20 in
  let aiScore :=
    JS.mul (JS.div (PricingAnalysisResult.confidenceScore aiAnalysis) 100) 40 in
  let score := JS.add score aiScore in
  let suspicionPenalty :=
    JS.min 30 (JS.mul (inject_Z (Z.of_nat (length suspiciousFactors))) 5) in
  let score := JS.sub score suspicionPenalty in
  let score :=
    if JS.ltb 70 (PricingAnalysisResult.pricingGlitchProbability aiAnalysis)
    then JS.add score 20 else score in
  JS.max 0 (JS.min 100 (JS.round score)).

(** The body of the loop of [filterDeals] for the [processed]-th deal, on
    the set of hashes seen so far. *)
Definition processDeal (ai : Providers)
    (minDiscountPercentage minConfidenceScore : Q)
    (seenDeals : gset string) (processed : nat) (d : Deal)
    : gset string * Outcome :=
  let dealHash := generateDealHash d in
  if bool_decide (dealHash ∈ seenDeals) then (seenDeals, Duplicate)
  else
    let seenDeals := seenDeals ∪ {[ dealHash ]} in
    let mathValidation := validateDiscountMath d in
    if negb (valid mathValidation) && JS.ltb (actualDiscount mathValidation) 50
    then (seenDeals, MathInvalid)
    else
      match analyzeWithAI ai processed d with
      | None => (seenDeals, Failed)
      | Some aiAnalysis =>
          let suspiciousFactors := detectSuspiciousPricing d in
          let confidenceScore :=
            calculateOverallScore mathValidation aiAnalysis suspiciousFactors in
          let qualifiesAsHighDiscount :=
            JS.leb minDiscountPercentage (actualDiscount mathValidation) in
          let qualifiesAsPricingGlitch :=
            JS.leb 70 (PricingAnalysisResult.pricingGlitchProbability aiAnalysis) in
          let meetsConfidenceThreshold :=
            JS.leb minConfidenceScore confidenceScore in
          if (qualifiesAsHighDiscount || qualifiesAsPricingGlitch)
             && meetsConfidenceThreshold
          then
            let filteringReason :=
              if qualifiesAsPricingGlitch
              then "Potential pricing glitch ("
                     +:+ printNumber (PricingAnalysisResult.pricingGlitchProbability aiAnalysis)
                     +:+ "% probability)"
              else "High discount deal ("
                     +:+ toFixed1 (actualDiscount mathValidation) +:+ "% off)" in
            (seenDeals,
             Accepted
               {| deal := d;
                  confidenceScore := confidenceScore;
                  pricingGlitchProbability := PricingAnalysisResult.pricingGlitchProbability aiAnalysis;
                  filteringReason := filteringReason;
                  validationFlags := flags mathValidation;
                  aiAnalysis := PricingAnalysisResult.analysis aiAnalysis;
                  suspiciousFactors :=
                    (JString <$> suspiciousFactors) ++ PricingAnalysisResult.suspiciousFactors aiAnalysis;
                  recommendationLevel := PricingAnalysisResult.recommendation aiAnalysis |})
          else (seenDeals, FilteredOut)
      end.

(** The state of the loop. *)
Record LoopState : Type := {
  seen : gset string;
  filteredDeals : list FilteredDeal;
  processedCount : nat
}.

Definition loopStep (ai : Providers) (minDiscountPercentage minConfidenceScore : Q)
    (st : LoopState) (d : Deal) : LoopState :=
  let processed := S (processedCount st) in
  let '(seen', o) :=
    processDeal ai minDiscountPercentage minConfidenceScore (seen st) processed d in
  {| seen := seen';
     filteredDeals :=
       match o with
       | Accepted fd => filteredDeals st ++ [fd]
       | _ => filteredDeals st
       end;
     processedCount := processed |}.

(** The key of the final ordering, and the comparison function. *)
Definition rank (a : FilteredDeal) : Q :=
  confidenceScore a + pricingGlitchProbability a * 0.5.

Definition compareFn (a b : FilteredDeal) : Q := rank b - rank a.

End WithRuntime.

(** [Array.prototype.sort] with a comparison function: a stable sort, by
    insertion. *)
Section Sort.
Context {A : Type} (cmp : A -> A -> Q).

Fixpoint insertSorted (x : A) (l : list A) : list A :=
  match l with
  | [] => [x]
  | y :: l' => if JS.leb (cmp x y) 0 then x :: l else y :: insertSorted x l'
  end.

Definition sort (l : list A) : list A := foldr insertSorted [] l.

End Sort.

(** [ToIntegerOrInfinity] of a finite number. *)
Definition truncate (q : Q) : Z := if JS.ltb q 0 then Qceiling q else Qfloor q.

(** [l.slice(0, end)] *)
Definition slice0 {A : Type} (l : list A) (e : Q) : list A :=
  let len := Z.of_nat (length l) in
  let relEnd := truncate e in
  let final := if (relEnd <? 0)%Z then Z.max (len + relEnd) 0 else Z.min relEnd len in
  take (Z.to_nat final) l.

Section WithRuntime.
Context {rt : JSRuntime}.

(** The loop over the deals, from the set of hashes the service has
    seen. *)
Definition runLoop (ai : Providers) (minDiscountPercentage minConfidenceScore : Q)
    (seenDeals : gset string) (deals : list Deal) : LoopState :=
  foldl (loopStep ai minDiscountPercentage minConfidenceScore)
    {| seen := seenDeals; filteredDeals := []; processedCount := 0 |} deals.

(** [filterDeals] on a service whose set of seen hashes is [seenDeals]:
    the list returned, and the set of seen hashes afterwards. *)
Definition filterDeals (ai : Providers) (seenDeals : gset string)
    (deals : list Deal)
    (minDiscountPercentage minConfidenceScore maxResults : Q)
    : list FilteredDeal * gset string :=
  let st := runLoop ai minDiscountPercentage minConfidenceScore seenDeals deals in
  let sorted := sort compareFn (filteredDeals st) in
  (slice0 sorted maxResults, seen st).

End WithRuntime.
End DealFilteringService.

(** ** A runtime for the examples

    Number printing by decimal expansion, string-to-number conversion of
    decimal literals, and a reader of JSON texts (escapes by four
    hexadecimal digits are not read).  The examples below run the
    service on this runtime. *)

Module Demo.

Fixpoint fractionDigits (fuel : nat) (num den : Z) : string :=
  match fuel with
  | O => ""
  | S fuel' =>
      if (num =? 0)%Z then ""
      else Value.printZ (num * 10 / den)
             +:+ fractionDigits fuel' ((num * 10) mod den) den
  end.

Definition printDecimal (q : Q) : string :=
  let n := Z.abs (Qnum q) in
  let d := Z.pos (Qden q) in
  (if (Qnum q <? 0)%Z then "-" else "")
    +:+ Value.printZ (n / d)
    +:+ (if (n mod d =? 0)%Z then "" else "." +:+ fractionDigits 20 (n mod d) d).

(** The exponent of the power of ten at or below a positive number. *)
Definition decade (a : Q) : Z :=
  let k := (JS.binade a * 30103 / 100000)%Z in
  if Qle_bool (10 ^ (k + 1)) a then (k + 1)%Z
  else if Qle_bool (10 ^ k) a then k else (k - 1)%Z.

(** The decimal of the fewest digits, from [digits] on, that reads back as
    the positive double [a]; the nearest one of that many digits is tried
    first, then its two neighbours. *)
Fixpoint shortest (fuel : nat) (digits : Z) (a : Q) : Q :=
  match fuel with
  | O => a
  | S fuel' =>
      let scale := 10 ^ (digits - 1 - decade a) in
      let m := JS.nearestEven (a * scale) in
      let reads (n : Z) := Qeq_bool (JS.fl (inject_Z n / scale)) (JS.fl a) in
      if reads m then inject_Z m / scale
      else if reads (m - 1)%Z then inject_Z (m - 1) / scale
      else if reads (m + 1)%Z then inject_Z (m + 1) / scale
      else shortest fuel' (digits + 1)%Z a
  end.

(** [Number.prototype.toString] in the range printed without an
    exponent. *)
Definition printNumber (q : Q) : string :=
  match Qnum q with
  | Z0 => "0"
  | Zpos _ => printDecimal (Qred (shortest 17 1 q))
  | Zneg _ => "-" +:+ printDecimal (Qred (shortest 17 1 (- q)))
  end.

Definition readNumber (s : string) : option ExtNumber :=
  let t := JS.trim s in
  let '(neg, u) :=
    match t with
    | String "-" r => (true, r)
    | String "+" r => (false, r)
    | _ => (false, t)
    end in
  if String.eqb t "" then Some (Finite 0)
  else if String.eqb u "Infinity" then Some (if neg then NegInfinity else PosInfinity)
  else
    match JS.readDecimal u with
    | Some (m, EmptyString) => Some (Finite (JS.fl (if neg then - m else m)))
    | _ => None
    end.

(** The double quote. *)
Definition quote : ascii := "034".

(** The texts of the examples are written with an apostrophe where the
    text has a double quote. *)
Fixpoint text (s : string) : string :=
  match s with
  | EmptyString => EmptyString
  | String c s' => String (if JS.isChar "'" c then quote else c) (text s')
  end.

Definition isJsonSpace (c : ascii) : bool :=
  JS.isChar " " c || (JS.code c =? 9)%N || (JS.code c =? 10)%N || (JS.code c =? 13)%N.

Fixpoint skipSpaces (s : string) : string :=
  match s with
  | String c s' => if isJsonSpace c then skipSpaces s' else s
  | EmptyString => s
  end.

(** The characters of a string literal after its opening quote. *)
Fixpoint readString (s : string) : option (string * string) :=
  match s with
  | EmptyString => None
  | String c s' =>
      if JS.isChar quote c then Some (EmptyString, s')
      else if JS.isChar "\" c then
        match s' with
        | String e s'' =>
            let unescaped :=
              if JS.isChar quote e || JS.isChar "\" e || JS.isChar "/" e then Some e
              else if JS.isChar "n" e then Some (ascii_of_N 10)
              else if JS.isChar "t" e then Some (ascii_of_N 9)
              else if JS.isChar "r" e then Some (ascii_of_N 13)
              else if JS.isChar "b" e then Some (ascii_of_N 8)
              else if JS.isChar "f" e then Some (ascii_of_N 12)
              else None in
            match unescaped, readString s'' with
            | Some a, Some (str, rest) => Some (String a str, rest)
            | _, _ => None
            end
        | EmptyString => None
        end
      else if (JS.code c <? 32)%N then None
      else
        match readString s' with
        | Some (str, rest) => Some (String c str, rest)
        | None => None
        end
  end.

(** A number literal: no leading zero before another digit, digits on
    both sides of a point. *)
Definition readLiteral (s : string) : option (JSON * string) :=
  let '(neg, u) :=
    match s with
    | String "-" r => (true, r)
    | _ => (false, s)
    end in
  let '(int, r) := JS.spanDigits u in
  let fracOk :=
    match r with
    | String "." r' => negb (String.eqb (JS.spanDigits r').1 "")
    | _ => true
    end in
  let intOk :=
    match int with
    | EmptyString => false
    | String "0" (String _ _) => false
    | _ => true
    end in
  if intOk && fracOk then
    match JS.readDecimal u with
    | Some (m, rest) => Some (JNumber (Finite (JS.fl (if neg then - m else m))), rest)
    | None => None
    end
  else None.

Section Reader.
Variable readValue : string -> option (JSON * string).

(** The elements of an array after the first, up to the closing bracket. *)
Fixpoint readElements (fuel : nat) (acc : list JSON) (s : string)
    : option (JSON * string) :=
  match fuel with
  | O => None
  | S fuel' =>
      match skipSpaces s with
      | String "]" rest => Some (JArray acc, rest)
      | String "," rest =>
          match readValue rest with
          | Some (v, rest') => readElements fuel' (acc ++ [v]) rest'
          | None => None
          end
      | _ => None
      end
  end.

Definition readMember (s : string) : option (string * JSON * string) :=
  match skipSpaces s with
  | String "034" r =>
      match readString r with
      | Some (k, r') =>
          match skipSpaces r' with
          | String ":" r'' =>
              match readValue r'' with
              | Some (v, rest) => Some (k, v, rest)
              | None => None
              end
          | _ => None
          end
      | None => None
      end
  | _ => None
  end.

(** The members of an object after the first, up to the closing brace; a
    later member replaces an earlier one of the same name. *)
Fixpoint readMembers (fuel : nat) (acc : gmap string JSON) (s : string)
    : option (JSON * string) :=
  match fuel with
  | O => None
  | S fuel' =>
      match skipSpaces s with
      | String "}" rest => Some (JObject acc, rest)
      | String "," rest =>
          match readMember rest with
          | Some (k, v, rest') => readMembers fuel' (<[k := v]> acc) rest'
          | None => None
          end
      | _ => None
      end
  end.

End Reader.

Fixpoint readValue (fuel : nat) (s : string) : option (JSON * string) :=
  match fuel with
  | O => None
  | S fuel' =>
      let s := skipSpaces s in
      match s with
      | String "{" r =>
          match skipSpaces r with
          | String "}" rest => Some (JObject ∅, rest)
          | _ =>
              match readMember (readValue fuel') r with
              | Some (k, v, rest) =>
                  readMembers (readValue fuel') (String.length rest) {[ k := v ]} rest
              | None => None
              end
          end
      | String "[" r =>
          match skipSpaces r with
          | String "]" rest => Some (JArray [], rest)
          | _ =>
              match readValue fuel' r with
              | Some (v, rest) =>
                  readElements (readValue fuel') (String.length rest) [v] rest
              | None => None
              end
          end
      | String "034" r =>
          match readString r with
          | Some (str, rest) => Some (JString str, rest)
          | None => None
          end
      | _ =>
          if JS.startsWith s "true" then Some (JBool true, String.substring 4 (String.length s) s)
          else if JS.startsWith s "false" then Some (JBool false, String.substring 5 (String.length s) s)
          else if JS.startsWith s "null" then Some (JNull, String.substring 4 (String.length s) s)
          else readLiteral s
      end
  end.

Definition parseJson (s : string) : option JSON :=
  match readValue (S (String.length s)) s with
  | Some (v, rest) =>
      match skipSpaces rest with
      | EmptyString => Some v
      | _ => None
      end
  | None => None
  end.

#[export] Instance runtime : JSRuntime := {|
  numberToString := printNumber;
  stringToNumber := readNumber;
  JSON_parse := parseJson
|}.

(** A deal of the examples: a title, the original and current price and
    the reported discount. *)
Definition listing (t : string) (o c r : Q) : Deal :=
  {| title := t; originalPrice := Some o; currentPrice := c;
     discountPercentage := r; url := "https://www.amazon.com/dp/1";
     image := None; site := "Amazon"; availability := "In Stock" |}.

(** Forty per cent off, reported as such. *)
Definition modest : Deal := listing "Stainless steel water bottle" 100 60 40.

(** Forty per cent off, reported as ninety. *)
Definition inflated : Deal := listing "Stainless steel water bottle" 100 60 90.

(** Sixty per cent off, reported as ninety. *)
Definition sixty : Deal := listing "Stainless steel water bottle" 100 40 90.

(** Fifty-five per cent off reported as fifty, and 63.75 per cent off
    reported as fifty. *)
Definition atTolerance : Deal := listing "Stainless steel water bottle" 100 45 50.
Definition threeQuarters : Deal := listing "Stainless steel water bottle" 80 29 50.

(** One cent below the bar of fifty per cent: 49 per cent off. *)
Definition fortyNine : Deal := listing "Stainless steel water bottle" 100 51 49.

(** Two deals at 92 and 95 per cent off. *)
Definition kettle : Deal := listing "Electric kettle 1.7 litre" 100 8 92.
Definition blender : Deal := listing "Countertop blender 900 watt" 200 10 95.

(** Providers whose first service answers every prompt with the same
    text. *)
Definition answering (t : string) : Providers :=
  {| perplexity := fun _ _ => Some t; openai := fun _ _ => None |}.

(** A verdict of a likely glitch, and a verdict of a sound deal. *)
Definition glitchVerdict : string :=
  text "{'isLegitimate': true, 'confidenceScore': 100, 'pricingGlitchProbability': 75, 'analysis': 'likely a pricing error', 'suspiciousFactors': [], 'recommendation': 'HIGH'}".

Definition soundVerdict : string :=
  text "The deal looks fine. {'isLegitimate': true, 'confidenceScore': 90, 'pricingGlitchProbability': 10, 'analysis': 'plausible clearance', 'suspiciousFactors': [], 'recommendation': 'HIGH'}".

(** Two products whose titles agree on their first twenty-four
    characters. *)
(** A reply with two objects in its prose. *)
Definition twoObjects : string :=
  text "Verdict: {'confidenceScore': 80} as JSON, with {'pricingGlitchProbability': 5} likewise.".

Definition phone : Deal := listing "Apple iPhone 15 Pro Max 256GB" 1199 99 92.
Definition phoneCase : Deal := listing "Apple iPhone 15 Pro Max case, clear" 40 4 90.

(** One product, its title written in two ways. *)
Definition shout : Deal := listing "  ELECTRIC Kettle 1.7 Litre " 100 (16 # 2) 92.


(** A product container with a title, two prices and a relative link. *)
Definition halfPrice : WebScrapingService.Product :=
  {| WebScrapingService.titleText := Some "  Noise cancelling headphones ";
     WebScrapingService.currentPriceElText := Some "$49.99";
     WebScrapingService.originalPriceElText := Some "$99.99";
     WebScrapingService.imageSrc := None;
     WebScrapingService.imageDataSrc := Some "/img/1.jpg";
     WebScrapingService.linkHref := Some "dp/B01";
     WebScrapingService.availabilityElText := None |}.


End Demo.


(** ** What the specification says, in its own words *)

Module Spec.

(** The three price conditions under which math validation is said to
    mark a deal invalid. *)
Definition pricesRejected (d : Deal) : Prop :=
  match originalPrice d with
  | None => True
  | Some o => o <= 0 \/ currentPrice d <= 0 \/ o <= currentPrice d
  end.

(** The score before clamping: 50, the discount or the penalty, the AI
    share, the suspicion penalty, the glitch bonus. *)
Definition rawScore (m : MathValidation) (a : PricingAnalysisResult.t) (n : nat) : Q :=
  50
  + (if valid m then Qmin 30 (actualDiscount m * 0.3) else - 20)
  + PricingAnalysisResult.confidenceScore a / 100 * 40
  - Qmin 30 (inject_Z (Z.of_nat n) * 5)
  + (if Qle_bool (PricingAnalysisResult.pricingGlitchProbability a) 70 then 0 else 20).

Definition clamp100 (x : Q) : Q := Qmax 0 (Qmin 100 x).

(** A result that is the number written [q]: the double nearest to it. *)
Definition isNumber (r : option Q) (q : Q) : Prop :=
  exists x, r = Some x /\ x == JS.fl q.

Fixpoint occurs (a : ascii) (s : string) : bool :=
  match s with
  | EmptyString => false
  | String c s' => JS.isChar a c || occurs a s'
  end.

Fixpoint hasDigit (s : string) : bool :=
  match s with
  | EmptyString => false
  | String c s' => JS.isDigit c || hasDigit s'
  end.


(** The same discount as doubles compute it, operation by operation:
    [((original - current) / original) * 100]. *)
Definition discountComputed (original : option Q) (current : Q) : Q :=
  match original with
  | Some o =>
      if Qle_bool o current then 0
      else JS.mul (JS.div (JS.sub o current) o) 100
  | None => 0
  end.

(** A value read from JSON that no conversion to a string or to a number
    accepts: an object with a property [toString] of its own, or an array
    that holds such a value. *)
Fixpoint unconvertible (v : JSON) : bool :=
  match v with
  | JArray l => existsb unconvertible l
  | JObject o => bool_decide (is_Some (o !! "toString"))
  | _ => false
  end.

(** The first balanced run of braces of a text: from the first opening
    brace to the closing brace that brings the depth back to zero. *)
Fixpoint balancedFrom (depth : nat) (s : string) : option string :=
  match s with
  | EmptyString => None
  | String c s' =>
      if JS.isChar "{" c then String c <$> balancedFrom (S depth) s'
      else if JS.isChar "}" c then
        match depth with
        | O => None
        | 1%nat => Some (String c EmptyString)
        | S depth' => String c <$> balancedFrom depth' s'
        end
      else String c <$> balancedFrom depth s'
  end.

Fixpoint firstBalancedObject (s : string) : option string :=
  match s with
  | EmptyString => None
  | String c s' =>
      if JS.isChar "{" c then balancedFrom 0 s else firstBalancedObject s'
  end.

(** The condition of acceptance, for a deal that got the verdict [r]:
    the actual discount reaches the caller's minimum or the glitch
    probability reaches 70, and the score reaches the caller's minimum. *)
Definition qualifies {rt : JSRuntime} (minDiscount minConfidence : Q) (d : Deal)
    (r : PricingAnalysisResult.t) : Prop :=
  (minDiscount <= actualDiscount (DealFilteringService.validateDiscountMath d)
   \/ 70 <= PricingAnalysisResult.pricingGlitchProbability r) /\
  minConfidence
    <= DealFilteringService.calculateOverallScore
         (DealFilteringService.validateDiscountMath d) r
         (DealFilteringService.detectSuspiciousPricing d).


End Spec.

(** * Further parts of the program *)

(** ** Retry with backoff (class WebScrapingService) *)

Module Retry.

(** What a run of [retryWithBackoff] does besides returning: it calls the
    operation and it sleeps. *)
Inductive Effect : Type :=
| Attempt (n : nat)
| Sleep (ms : Q).

Section WithOperation.
Context {T : Type}.

(** The operation, as the outcome of its [n]-th call: a value, or the
    message of the error thrown. *)
Variable operation : nat -> T + string.
Variables (maxRetries : nat) (baseDelay : Q).

(** [baseDelay * Math.pow(2, attempt - 1)] *)
Definition delay (attempt : nat) : Q :=
  baseDelay * inject_Z (2 ^ Z.of_nat (attempt - 1)).

(** The loop from [attempt] on, with [remaining] attempts to go. *)
Fixpoint loop (remaining attempt : nat) (lastError : string)
    : (T + string) * list Effect :=
  match remaining with
  | O => (inr lastError, [])
  | S remaining' =>
      match operation attempt with
      | inl v => (inl v, [Attempt attempt])
      | inr e =>
          let sleeps :=
            if (attempt <? maxRetries)%nat then [Sleep (delay attempt)] else [] in
          let '(r, effects) := loop remaining' (S attempt) e in
          (r, Attempt attempt :: sleeps ++ effects)
      end
  end.

Definition retryWithBackoff : (T + string) * list Effect :=
  loop maxRetries 1 "Operation failed".

(** The [i]-th call of the operation throws. *)
Definition fails (i : nat) : Prop :=
  match operation i with inr _ => True | inl _ => False end.

(** [n] failed attempts from the [a]-th on, each followed by its sleep. *)
Definition backoff (a n : nat) : list Effect :=
  flat_map (fun i => [Attempt i; Sleep (delay i)]) (seq a n).

End WithOperation.

(** The time slept in all. *)
Fixpoint slept (effects : list Effect) : Q :=
  match effects with
  | [] => 0
  | Sleep ms :: effects' => ms + slept effects'
  | Attempt _ :: effects' => slept effects'
  end.

Fixpoint attempts (effects : list Effect) : list nat :=
  match effects with
  | [] => []
  | Attempt n :: effects' => n :: attempts effects'
  | Sleep _ :: effects' => attempts effects'
  end.

(** An operation that times out twice. *)
Definition flaky (n : nat) : nat + string :=
  if (n <? 3)%nat then inr "timeout" else inl 7%nat.

Definition down (n : nat) : nat + string := inr "timeout".

End Retry.

(** ** Proxy rotation (class WebScrapingService) *)

Module Proxy.

(** [PROXY_CHECK_INTERVAL], in milliseconds *)
Definition PROXY_CHECK_INTERVAL : Z := 5 * 60 * 1000.

(** [PROXY_HEALTH] and [this.proxyIndex] *)
Record State : Type := {
  health : gmap string (bool * Z);      (* working, lastChecked *)
  proxyIndex : nat
}.

(** [checkProxyHealth] at the time [now]; [probe] is what the request
    through the proxy would give: [true] for a status of 200, [false] for
    another status or an error. *)
Definition checkProxyHealth (now : Z) (probe : bool)
    (health : gmap string (bool * Z)) (proxy : string)
    : bool * gmap string (bool * Z) :=
  match health !! proxy with
  | Some (working, lastChecked) =>
      if (now - lastChecked <? PROXY_CHECK_INTERVAL)%Z then (working, health)
      else (probe, <[proxy := (probe, now)]> health)
  | None => (probe, <[proxy := (probe, now)]> health)
  end.

Section WithWorld.
Variable PROXY_LIST : list string.

(** The time and the answer of the network at the [k]-th health check of
    a call of [getNextProxy]. *)
Variables (clock : nat -> Z) (probe : nat -> string -> bool).

Fixpoint tryProxies (remaining attempts : nat) (st : State)
    : option string * State :=
  match remaining with
  | O => (None, st)
  | S remaining' =>
      match PROXY_LIST !! (proxyIndex st mod length PROXY_LIST)%nat with
      | None => (None, st)
      | Some proxy =>
          let '(working, health') :=
            checkProxyHealth (clock attempts) (probe attempts proxy)
              (health st) proxy in
          let st' := {| health := health'; proxyIndex := S (proxyIndex st) |} in
          if working then (Some proxy, st')
          else tryProxies remaining' (S attempts) st'
      end
  end.

(** [getNextProxy]: [None] is a direct connection. *)
Definition getNextProxy (st : State) : option string * State :=
  match PROXY_LIST with
  | [] => (None, st)
  | _ => tryProxies (length PROXY_LIST) 0 st
  end.

End WithWorld.

(** No entry of the cache says that a proxy is down. *)
Definition healthy (st : State) : Prop :=
  forall proxy working t, health st !! proxy = Some (working, t) -> working = true.

(** A pool of two proxies. *)
Definition pool : list string := ["http://10.0.0.1:8080"; "http://10.0.0.2:8080"].

Definition start : State := {| health := ∅; proxyIndex := 0 |}.

Definition ticking (k : nat) : Z := 1000 * Z.of_nat k.

Definition allUp (k : nat) (proxy : string) : bool := true.

End Proxy.

(** ** Search addresses *)

Module URI.

Definition hexDigit (n : Z) : ascii :=
  default "0"%char (String.get (Z.to_nat n) "0123456789ABCDEF").

(** The characters [encodeURIComponent] leaves as they are. *)
Definition unreserved (c : ascii) : bool :=
  let n := JS.code c in
  (((65 <=? n) && (n <=? 90)) || ((97 <=? n) && (n <=? 122))
   || ((48 <=? n) && (n <=? 57)))%N
  || existsb (Ascii.eqb c)
       ["-"; "_"; "."; "!"; "~"; "*"; "'"; "("; ")"]%char.

Definition escapeByte (b : Z) : string :=
  String "%" (String (hexDigit (Z.shiftr b 4)) (String (hexDigit (Z.land b 15)) "")).

Definition escapeBytes (bs : list Z) : string :=
  foldr (fun b acc => escapeByte b +:+ acc) "" bs.

(** [encodeURIComponent] on Latin-1 code units. *)
Fixpoint encodeURIComponent (s : string) : string :=
  match s with
  | EmptyString => EmptyString
  | String c s' =>
      if unreserved c then String c (encodeURIComponent s')
      else escapeBytes (Buffer.utf8 c) +:+ encodeURIComponent s'
  end.

End URI.

(** ** The scraping tool (webScrapingTool) *)

Module WebScrapingTool.
Import WebScrapingService.

(** A site profile with what [scrapeDeals] reads of it besides the fields
    of extraction. *)
Record Site : Type := {
  config : SiteConfig.t;
  requiresJS : bool;
  searchUrl : string -> string
}.

Definition SITES : list Site :=
  [ {| config :=
         {| SiteConfig.name := "Amazon";
            SiteConfig.baseUrl := "https://www.amazon.com";
            SiteConfig.selectsOriginalPrice := true;
            SiteConfig.selectsAvailability := true;
            SiteConfig.priceParser := priceParser |};
       requiresJS := true;
       searchUrl := fun query =>
         "https://www.amazon.com/s?k=" +:+ URI.encodeURIComponent query
           +:+ "&ref=sr_pg_1" |};
    {| config :=
         {| SiteConfig.name := "eBay";
            SiteConfig.baseUrl := "https://www.ebay.com";
            SiteConfig.selectsOriginalPrice := true;
            SiteConfig.selectsAvailability := false;
            SiteConfig.priceParser := priceParser |};
       requiresJS := false;
       searchUrl := fun query =>
         "https://www.ebay.com/sch/i.html?_nkw=" +:+ URI.encodeURIComponent query |};
    {| config :=
         {| SiteConfig.name := "Walmart";
            SiteConfig.baseUrl := "https://www.walmart.com";
            SiteConfig.selectsOriginalPrice := true;
            SiteConfig.selectsAvailability := false;
            SiteConfig.priceParser := priceParser |};
       requiresJS := true;
       searchUrl := fun query =>
         "https://www.walmart.com/search?q=" +:+ URI.encodeURIComponent query |};
    {| config :=
         {| SiteConfig.name := "Best Buy";
            SiteConfig.baseUrl := "https://www.bestbuy.com";
            SiteConfig.selectsOriginalPrice := true;
            SiteConfig.selectsAvailability := false;
            SiteConfig.priceParser := priceParser |};
       requiresJS := true;
       searchUrl := fun query =>
         "https://www.bestbuy.com/site/searchpage.jsp?st="
           +:+ URI.encodeURIComponent query |};
    {| config :=
         {| SiteConfig.name := "Target";
            SiteConfig.baseUrl := "https://www.target.com";
            SiteConfig.selectsOriginalPrice := true;
            SiteConfig.selectsAvailability := true;
            SiteConfig.priceParser := priceParser |};
       requiresJS := true;
       searchUrl := fun query =>
         "https://www.target.com/s?searchTerm=" +:+ URI.encodeURIComponent query |} ].

(** What the network gives to a run of [scrapeDeals]. *)
Record World : Type := {
  (** [initBrowser] succeeds *)
  browserStarts : bool;
  (** the product containers found at an address by the browser ([true])
      or by the plain request ([false]) at the [n]-th attempt, or the message
      of the error thrown (a timeout, a missing selector, a status that is no
      success) *)
  fetch : bool -> string -> nat -> list Product + string
}.

Record Telemetry : Type := {
  sitesAttempted : nat;
  sitesSucceeded : nat;
  sitesFailed : nat;
  totalDeals : nat;
  errors : list string
}.

Section WithWorld.
Variable w : World.

(** The operation that [scrapeDeals] retries for a site. *)
Definition scrapeSite (browserInitialized : bool) (site : Site) (query : string)
    (attempt : nat) : list Deal + string :=
  let url := searchUrl site query in
  if requiresJS site && browserInitialized then
    match fetch w true url attempt with
    | inl products => inl (scrapeWithPuppeteer (config site) url products)
    | inr e => inr e
    end
  else
    match fetch w false url attempt with
    | inl products => inl (scrapeWithCheerio (config site) url products)
    | inr e => inr e
    end.

(** The sites of a run: all of them, or those whose name is asked for. *)
Definition sitesConfig (sitesToScrape : option (list string)) : list Site :=
  match sitesToScrape with
  | Some names =>
      filter (fun site => SiteConfig.name (config site) ∈ names) SITES
  | None => SITES
  end.

Definition browserInitialized (sites : list Site) : bool :=
  existsb requiresJS sites && browserStarts w.

(** The body of the loop over the sites. *)
Definition scrapeStep (initialized : bool) (query : string)
    (acc : list Deal * Telemetry) (site : Site) : list Deal * Telemetry :=
  let '(allDeals, t) := acc in
  match (Retry.retryWithBackoff (scrapeSite initialized site query) 3 2000).1 with
  | inl siteDeals =>
      (allDeals ++ siteDeals,
       {| sitesAttempted := sitesAttempted t;
          sitesSucceeded := S (sitesSucceeded t);
          sitesFailed := sitesFailed t;
          totalDeals := (totalDeals t + length siteDeals)%nat;
          errors := errors t |})
  | inr errorMsg =>
      (allDeals,
       {| sitesAttempted := sitesAttempted t;
          sitesSucceeded := sitesSucceeded t;
          sitesFailed := S (sitesFailed t);
          totalDeals := totalDeals t;
          errors := errors t
            ++ [SiteConfig.name (config site) +:+ ": " +:+ errorMsg] |})
  end.

Definition byDiscount (a b : Deal) : Q :=
  discountPercentage b - discountPercentage a.

(** [scrapeDeals]: the deals returned, and the telemetry logged. *)
Definition scrapeDeals (query : string) (sitesToScrape : option (list string))
    : list Deal * Telemetry :=
  let sites := sitesConfig sitesToScrape in
  let initialized := browserInitialized sites in
  let '(allDeals, telemetry) :=
    foldl (scrapeStep initialized query)
      ([], {| sitesAttempted := length sites; sitesSucceeded := 0;
              sitesFailed := 0; totalDeals := 0; errors := [] |})
      sites in
  (DealFilteringService.sort byDiscount allDeals, telemetry).

(** [[...new Set(l)]] on strings: the first occurrences, in order. *)
Fixpoint unique (seen : list string) (l : list string) : list string :=
  match l with
  | [] => []
  | x :: l' =>
      if bool_decide (x ∈ seen) then unique seen l' else x :: unique (x :: seen) l'
  end.

Record Summary : Type := {
  summary_totalDeals : nat;
  avgDiscount : Q;
  sitesScraped : list string;
  topDeal : option Deal
}.

Definition sum (l : list Q) : Q := foldl Qplus 0 l.

(** [execute] of the tool. *)
Definition execute (query : string) (sites : option (list string))
    (minDiscountPercentage : Q) : list Deal * Summary :=
  let allDeals := (scrapeDeals query sites).1 in
  let filteredDeals :=
    filter (fun d => JS.leb minDiscountPercentage (discountPercentage d) = true)
      allDeals in
  let sitesScraped := unique [] (site <$> allDeals) in
  let avgDiscount :=
    match filteredDeals with
    | [] => 0
    | _ => sum (discountPercentage <$> filteredDeals)
             / inject_Z (Z.of_nat (length filteredDeals))
    end in
  (filteredDeals,
   {| summary_totalDeals := length filteredDeals;
      avgDiscount := JS.round avgDiscount;
      sitesScraped := sitesScraped;
      topDeal := head filteredDeals |}).

End WithWorld.

(** The same network without a browser. *)
Definition headless (w : World) : World :=
  {| browserStarts := false; fetch := fetch w |}.

(** A network on which every page times out once and then shows one
    product, and a browser that starts. *)
Definition slow : World :=
  {| browserStarts := true;
     fetch := fun _ _ n =>
       if (n <? 2)%nat then inr "timeout" else inl [Demo.halfPrice] |}.

End WebScrapingTool.

(** ** The filtering tool (dealFilteringTool) *)

Module DealFilteringTool.
Import DealFilteringService.

(** [process.env]: a variable is absent, or a string. *)
Record Env : Type := {
  PERPLEXITY_API_KEY : option string;
  OPENAI_API_KEY : option string
}.

Record FilteringSummary : Type := {
  inputDeals : nat;
  processedDeals : nat;
  duplicatesRemoved : nat;
  mathValidationFailures : nat;
  lowConfidenceFiltered : nat;
  finalResults : nat;
  averageConfidenceScore : Q;
  averagePricingGlitchProbability : Q;
  topRecommendations : nat;
  pricingGlitchesFound : nat
}.

(** [Math.round] of the mean of a field, [0] for no deal. *)
Definition average (field : FilteredDeal -> Q) (l : list FilteredDeal) : Q :=
  match l with
  | [] => 0
  | _ => JS.round (foldl (fun sum deal => sum + field deal) 0 l
                   / inject_Z (Z.of_nat (length l)))
  end.

Definition isHigh (fd : FilteredDeal) : bool :=
  match recommendationLevel fd with HIGH => true | _ => false end.

Section WithRuntime.
Context {rt : JSRuntime}.

(** [execute] of the tool: the error thrown, or the result.  Each call
    makes a service of its own, which has seen no deal; [filterDeals]
    catches the errors of its loop, so that the handler around it is never
    entered. *)
Definition execute (env : Env) (ai : Providers) (deals : list Deal)
    (minDiscountPercentage minConfidenceScore maxResults : Q)
    : (list FilteredDeal * FilteringSummary) + string :=
  if negb (WebScrapingService.truthyOpt (PERPLEXITY_API_KEY env))
     && negb (WebScrapingService.truthyOpt (OPENAI_API_KEY env))
  then inr "Neither Perplexity nor OpenAI API keys configured - at least one is required for deal analysis"
  else
    let filteredDeals :=
      (filterDeals ai ∅ deals minDiscountPercentage minConfidenceScore maxResults).1 in
    inl (filteredDeals,
         {| inputDeals := length deals;
            processedDeals := length deals;
            duplicatesRemoved := 0;
            mathValidationFailures := 0;
            lowConfidenceFiltered := 0;
            finalResults := length filteredDeals;
            averageConfidenceScore := average confidenceScore filteredDeals;
            averagePricingGlitchProbability :=
              average pricingGlitchProbability filteredDeals;
            topRecommendations := length (List.filter isHigh filteredDeals);
            pricingGlitchesFound :=
              length (List.filter
                        (fun deal => JS.leb 70 (pricingGlitchProbability deal))
                        filteredDeals) |}).

End WithRuntime.
End DealFilteringTool.


(** ** Storage: the memory fallback (class PostgreSQLDealStorage) *)

Module StoredDeal.

(** A deal as it is kept: prices as texts, the three scores rounded. *)
Record t : Type := {
  hash : string;
  title : string;
  originalPrice : option string;
  currentPrice : string;
  discountPercentage : Q;
  url : string;
  image : option string;
  site : string;
  availability : string;
  confidenceScore : Q;
  pricingGlitchProbability : Q;
  filteringReason : string;
  validationFlags : list string;
  aiAnalysis : string;
  suspiciousFactors : list JSON;
  recommendationLevel : Recommendation;
  id : string;
  createdAt : Z;
  updatedAt : Z
}.

End StoredDeal.

Module PostgreSQLDealStorage.

(** [x || d] on numbers and on strings. *)
Definition orNumber (x d : Q) : Q := if JS.eqb x 0 then d else x.

Definition orString (s d : string) : string := if JS.truthy s then s else d.

(** What [formatDeal] makes of a kept deal: the deal, with its two prices
    read back as numbers ([Some None] is [NaN], [None] is [null]). *)
Record Formatted : Type := {
  stored : StoredDeal.t;
  originalPriceNumber : option (option Q);
  currentPriceNumber : option Q;
  _id : string
}.

Definition formatDeal (d : StoredDeal.t) : Formatted :=
  {| stored := d;
     originalPriceNumber :=
       match StoredDeal.originalPrice d with
       | Some s => if JS.truthy s then Some (JS.parseFloat s) else None
       | None => None
       end;
     currentPriceNumber := JS.parseFloat (StoredDeal.currentPrice d);
     _id := StoredDeal.id d |}.

Fixpoint findIndex (h : string) (l : list StoredDeal.t) : option nat :=
  match l with
  | [] => None
  | d :: l' =>
      if String.eqb (StoredDeal.hash d) h then Some 0%nat
      else S <$> findIndex h l'
  end.

Section WithRuntime.
Context {rt : JSRuntime}.

(** [dealWithDefaults], then [dealWithMeta], for a filtered deal saved at
    the time [now]; a filtered deal has no [sourceMeta], which is kept as
    the empty object and left out here. *)
Definition dealWithMeta (now : Z) (dealData : FilteredDeal) : StoredDeal.t :=
  let hash := DealFilteringService.generateDealHash (deal dealData) in
  {| StoredDeal.hash := hash;
     StoredDeal.title := title (deal dealData);
     StoredDeal.originalPrice :=
       match originalPrice (deal dealData) with
       | Some o => if JS.eqb o 0 then None else Some (Value.printNumber o)
       | None => None
       end;
     StoredDeal.currentPrice := Value.printNumber (currentPrice (deal dealData));
     StoredDeal.discountPercentage :=
       JS.round (orNumber (discountPercentage (deal dealData)) 0);
     StoredDeal.url := url (deal dealData);
     StoredDeal.image :=
       match image (deal dealData) with
       | Some i => if JS.truthy i then Some i else None
       | None => None
       end;
     StoredDeal.site := site (deal dealData);
     StoredDeal.availability := orString (availability (deal dealData)) "Unknown";
     StoredDeal.confidenceScore := JS.round (orNumber (confidenceScore dealData) 0);
     StoredDeal.pricingGlitchProbability :=
       JS.round (orNumber (pricingGlitchProbability dealData) 0);
     StoredDeal.filteringReason := orString (filteringReason dealData) "";
     StoredDeal.validationFlags := validationFlags dealData;
     StoredDeal.aiAnalysis := orString (aiAnalysis dealData) "";
     StoredDeal.suspiciousFactors := suspiciousFactors dealData;
     StoredDeal.recommendationLevel := recommendationLevel dealData;
     StoredDeal.id := hash;
     StoredDeal.createdAt := now;
     StoredDeal.updatedAt := now |}.

(** [saveDeal] without a database: what it returns, and [memoryDeals]
    afterwards. *)
Definition saveDeal (now : Z) (memoryDeals : list StoredDeal.t)
    (dealData : FilteredDeal) : Formatted * list StoredDeal.t :=
  let d := dealWithMeta now dealData in
  let memoryDeals :=
    match findIndex (StoredDeal.hash d) memoryDeals with
    | Some existingIndex => <[existingIndex := d]> memoryDeals
    | None => memoryDeals ++ [d]
    end in
  let memoryDeals :=
    if (1000 <? length memoryDeals)%nat
    then drop (length memoryDeals - 1000) memoryDeals
    else memoryDeals in
  (formatDeal d, memoryDeals).

End WithRuntime.

(** The two comparison functions: the first key, [||] the second. *)
Definition byKeys (k1 k2 : StoredDeal.t -> Q) (a b : StoredDeal.t) : Q :=
  orNumber (k1 b - k1 a) (k2 b - k2 a).

Definition confidence (d : StoredDeal.t) : Q :=
  orNumber (StoredDeal.confidenceScore d) 0.

Definition glitch (d : StoredDeal.t) : Q :=
  orNumber (StoredDeal.pricingGlitchProbability d) 0.

(** [getTopDeals] without a database. *)
Definition getTopDeals (memoryDeals : list StoredDeal.t) (minDiscount limit : Q)
    : list Formatted :=
  formatDeal <$>
    DealFilteringService.slice0
      (DealFilteringService.sort (byKeys StoredDeal.discountPercentage confidence)
         (List.filter
            (fun d => JS.leb minDiscount (StoredDeal.discountPercentage d)
                      && JS.leb 60 (confidence d))
            memoryDeals))
      limit.

(** [getPricingGlitches] without a database. *)
Definition getPricingGlitches (memoryDeals : list StoredDeal.t)
    (minProbability limit : Q) : list Formatted :=
  formatDeal <$>
    DealFilteringService.slice0
      (DealFilteringService.sort (byKeys glitch confidence)
         (List.filter (fun d => JS.leb minProbability (glitch d)) memoryDeals))
      limit.

(** The order of the two results: by the first key, highest first, and
    by the second among equals. *)
Definition lexDescending (k1 k2 : StoredDeal.t -> Q) (a b : StoredDeal.t) : Prop :=
  k1 b < k1 a \/ (k1 b == k1 a /\ k2 b <= k2 a).

(** The kettle of the examples, as [filterDeals] would return it. *)
Definition kettleDeal : FilteredDeal :=
  {| deal := Demo.kettle; confidenceScore := 97; pricingGlitchProbability := 75;
     filteringReason := "Potential pricing glitch (75% probability)";
     validationFlags := []; aiAnalysis := "likely a pricing error";
     suspiciousFactors := []; recommendationLevel := HIGH |}.

(** The same kettle as a later run would return it, and the blender. *)
Definition kettleAgain : FilteredDeal :=
  {| deal := Demo.kettle; confidenceScore := 80; pricingGlitchProbability := 20;
     filteringReason := "High discount deal (92.0% off)";
     validationFlags := []; aiAnalysis := "plausible clearance";
     suspiciousFactors := []; recommendationLevel := MEDIUM |}.

Definition blenderDeal : FilteredDeal :=
  {| deal := Demo.blender; confidenceScore := 90; pricingGlitchProbability := 10;
     filteringReason := "High discount deal (95.0% off)";
     validationFlags := []; aiAnalysis := "plausible clearance";
     suspiciousFactors := []; recommendationLevel := HIGH |}.

End PostgreSQLDealStorage.

(** * Properties *)

(** ** Numbers *)

Section Numbers.

Lemma leb_le (a b : Q) : JS.leb a b = true <-> a <= b.
Proof. apply Qle_bool_iff. Qed.

Lemma leb_gt (a b : Q) : JS.leb a b = false <-> b < a.
Proof.
  unfold JS.leb. split; intros H.
  - apply Qnot_le_lt. intros Hle. apply Qle_bool_iff in Hle. congruence.
  - destruct (Qle_bool a b) eqn:E; [|reflexivity].
    apply Qle_bool_iff in E. lra.
Qed.

Lemma ltb_lt (a b : Q) : JS.ltb a b = true <-> a < b.
Proof. unfold JS.ltb. rewrite negb_true_iff. apply (leb_gt b a). Qed.

Lemma ltb_ge (a b : Q) : JS.ltb a b = false <-> b <= a.
Proof. unfold JS.ltb. rewrite negb_false_iff. apply (leb_le b a). Qed.

Lemma eqb_eq (a b : Q) : JS.eqb a b = true <-> a == b.
Proof. apply Qeq_bool_iff. Qed.

Lemma eqb_neq (a b : Q) : JS.eqb a b = false <-> ~ a == b.
Proof.
  unfold JS.eqb. split; intros H.
  - intros E. apply Qeq_bool_iff in E. congruence.
  - destruct (Qeq_bool a b) eqn:E; [|reflexivity].
    apply Qeq_bool_iff in E. contradiction.
Qed.

Lemma min_spec (a b : Q) :
  (b < a /\ JS.min a b = b) \/ (a <= b /\ JS.min a b = a).
Proof.
  unfold JS.min. destruct (JS.ltb b a) eqn:E.
  - left. apply ltb_lt in E. auto.
  - right. apply ltb_ge in E. auto.
Qed.

Lemma max_spec (a b : Q) :
  (a < b /\ JS.max a b = b) \/ (b <= a /\ JS.max a b = a).
Proof.
  unfold JS.max. destruct (JS.ltb a b) eqn:E.
  - left. apply ltb_lt in E. auto.
  - right. apply ltb_ge in E. auto.
Qed.

Lemma min_mono (a b b' : Q) : b <= b' -> JS.min a b <= JS.min a b'.
Proof.
  intros H. destruct (min_spec a b) as [[H1 ->]|[H1 ->]];
    destruct (min_spec a b') as [[H2 ->]|[H2 ->]]; lra.
Qed.

Lemma min_Qmin (a b : Q) : JS.min a b == Qmin a b.
Proof.
  destruct (min_spec a b) as [[H ->]|[H ->]].
  - symmetry. apply Q.min_r. lra.
  - symmetry. apply Q.min_l. lra.
Qed.

Lemma max_Qmax (a b : Q) : JS.max a b == Qmax a b.
Proof.
  destruct (max_spec a b) as [[H ->]|[H ->]].
  - symmetry. apply Q.max_r. lra.
  - symmetry. apply Q.max_l. lra.
Qed.

Lemma clamp_bounds (lo hi x : Q) :
  lo <= hi -> lo <= JS.max lo (JS.min hi x) <= hi.
Proof.
  intros Hle.
  destruct (min_spec hi x) as [[H1 E1]|[H1 E1]]; rewrite E1;
    destruct (max_spec lo x) as [[H2 E2]|[H2 E2]];
    destruct (max_spec lo hi) as [[H3 E3]|[H3 E3]];
    rewrite ?E2, ?E3; lra.
Qed.

End Numbers.

(** ** Doubles *)

Section Doubles.
Import JS.

Lemma pow2_pos (e : Z) : 0 < 2 ^ e.
Proof. apply Qpower_0_lt. reflexivity. Qed.

Lemma pow2_succ (e : Z) : 2 ^ (e + 1) == 2 * 2 ^ e.
Proof. rewrite Qpower_plus by discriminate. rewrite Qpower_1_r. ring. Qed.

Lemma pow2_le (a b : Z) : (a <= b)%Z -> 2 ^ a <= 2 ^ b.
Proof. intros H. apply Qpower_le_compat_l; [exact H|discriminate]. Qed.

Lemma pow2_lt (a b : Z) : (a < b)%Z -> 2 ^ a < 2 ^ b.
Proof. intros H. apply Qpower_lt_compat_l; [exact H|reflexivity]. Qed.

Lemma pow2_lt_inv (a b : Z) : 2 ^ a < 2 ^ b -> (a < b)%Z.
Proof. intros H. apply (Qpower_lt_compat_l_inv 2); [exact H|reflexivity]. Qed.

Lemma pow2_Z (n : Z) : (0 <= n)%Z -> inject_Z (2 ^ n) == 2 ^ n.
Proof. intros H. rewrite Zpower_Qpower by exact H. reflexivity. Qed.

Lemma Q_pos_num (x : Q) : 0 < x <-> (0 < Qnum x)%Z.
Proof. destruct x as [n d]. unfold Qlt. cbn. lia. Qed.

Lemma Q_num_den (x : Q) : x * inject_Z (Z.pos (Qden x)) == inject_Z (Qnum x).
Proof.
  destruct x as [n d]. cbn [Qnum Qden]. unfold Qeq, Qmult, inject_Z. cbn. lia.
Qed.

Lemma binade_rough (x : Q) :
  0 < x ->
  2 ^ (Z.log2 (Qnum x) - Z.log2 (Z.pos (Qden x)) - 1) <= x
  /\ x < 2 ^ (Z.log2 (Qnum x) - Z.log2 (Z.pos (Qden x)) + 1).
Proof.
  intros Hx.
  assert (Hn : (0 < Qnum x)%Z) by (apply Q_pos_num; exact Hx).
  pose proof (Z.log2_spec _ Hn) as [Ha1 Ha2].
  pose proof (Z.log2_spec (Z.pos (Qden x)) eq_refl) as [Hb1 Hb2].
  pose proof (Z.log2_nonneg (Qnum x)) as Ha0.
  pose proof (Z.log2_nonneg (Z.pos (Qden x))) as Hb0.
  set (a := Z.log2 (Qnum x)) in *. set (b := Z.log2 (Z.pos (Qden x))) in *.
  pose proof (Q_num_den x) as Hxd.
  set (N := inject_Z (Qnum x)) in *. set (D := inject_Z (Z.pos (Qden x))) in *.
  assert (HD : 0 < D) by reflexivity.
  rewrite Zle_Qle in Ha1, Hb1. rewrite Zlt_Qlt in Ha2, Hb2.
  fold N in Ha1, Ha2. fold D in Hb1, Hb2.
  rewrite pow2_Z in Ha1, Hb1 by lia.
  replace (Z.succ a) with (a + 1)%Z in Ha2 by lia.
  replace (Z.succ b) with (b + 1)%Z in Hb2 by lia.
  rewrite pow2_Z in Ha2, Hb2 by lia.
  pose proof (pow2_pos b) as Hpb. pose proof (pow2_pos (a - b - 1)) as Hp1.
  pose proof (pow2_pos (a - b + 1)) as Hp2.
  assert (E1 : 2 ^ (a - b - 1) * 2 ^ (b + 1) == 2 ^ a).
  { rewrite <- Qpower_plus by discriminate. replace (a - b - 1 + (b + 1))%Z with a by lia.
    reflexivity. }
  assert (E2 : 2 ^ (a - b + 1) * 2 ^ b == 2 ^ (a + 1)).
  { rewrite <- Qpower_plus by discriminate. replace (a - b + 1 + b)%Z with (a + 1)%Z by lia.
    reflexivity. }
  split.
  - apply Qnot_lt_le. intros H.
    assert (x * D < 2 ^ (a - b - 1) * 2 ^ (b + 1)).
    { apply Qle_lt_trans with (2 ^ (a - b - 1) * D).
      - apply Qmult_le_compat_r; lra.
      - apply Qmult_lt_l; [exact Hp1|exact Hb2]. }
    lra.
  - apply Qnot_le_lt. intros H.
    assert (2 ^ (a - b + 1) * 2 ^ b <= x * D).
    { apply Qle_trans with (2 ^ (a - b + 1) * D).
      - apply Qmult_le_l; [exact Hp2|exact Hb1].
      - apply Qmult_le_compat_r; lra. }
    lra.
Qed.

Lemma binade_spec (x : Q) : 0 < x -> 2 ^ binade x <= x /\ x < 2 ^ (binade x + 1).
Proof.
  intros Hx. destruct (binade_rough x Hx) as [H1 H2]. unfold binade.
  set (k := (Z.log2 (Qnum x) - Z.log2 (Z.pos (Qden x)))%Z) in *.
  destruct (Qle_bool (2 ^ k) x) eqn:E.
  - apply Qle_bool_iff in E. tauto.
  - replace (k - 1 + 1)%Z with k by lia. split; [exact H1|].
    apply Qnot_le_lt. intros H. apply Qle_bool_iff in H. congruence.
Qed.

Lemma binade_unique (x : Q) (e : Z) : 2 ^ e <= x -> x < 2 ^ (e + 1) -> binade x = e.
Proof.
  intros H1 H2.
  assert (Hx : 0 < x) by (pose proof (pow2_pos e); lra).
  destruct (binade_spec x Hx) as [B1 B2].
  assert ((binade x < e + 1)%Z) by (apply pow2_lt_inv; lra).
  assert ((e < binade x + 1)%Z) by (apply pow2_lt_inv; lra).
  lia.
Qed.

Lemma binade_mono (x y : Q) : 0 < x -> x <= y -> (binade x <= binade y)%Z.
Proof.
  intros Hx Hxy.
  destruct (binade_spec x Hx) as [B1 _].
  destruct (binade_spec y ltac:(lra)) as [_ B2].
  assert ((binade x < binade y + 1)%Z) by (apply pow2_lt_inv; lra).
  lia.
Qed.

Lemma binade_comp (x y : Q) : 0 < x -> x == y -> binade x = binade y.
Proof.
  intros Hx E. symmetry. destruct (binade_spec x Hx) as [B1 B2].
  apply binade_unique; lra.
Qed.

Lemma binade_pow2 (e : Z) : binade (2 ^ e) = e.
Proof.
  apply binade_unique; [lra|]. apply pow2_lt. lia.
Qed.

(** Rounding to the nearest integer, ties to even. *)

Lemma nearestEven_Z (z : Z) : nearestEven (inject_Z z) = z.
Proof.
  unfold nearestEven. rewrite Qfloor_Z.
  assert (E : Qcompare (inject_Z z - inject_Z z) (1 # 2) = Lt).
  { rewrite <- Qlt_alt. lra. }
  rewrite E. reflexivity.
Qed.

Lemma nearestEven_bounds (y : Q) :
  (Qfloor y <= nearestEven y <= Qfloor y + 1)%Z /\
  inject_Z (nearestEven y) - (1 # 2) <= y <= inject_Z (nearestEven y) + (1 # 2).
Proof.
  unfold nearestEven.
  pose proof (Qfloor_le y) as H1. pose proof (Qlt_floor y) as H2.
  rewrite inject_Z_plus in H2. change (inject_Z 1) with 1 in H2.
  destruct (Qcompare_spec (y - inject_Z (Qfloor y)) (1 # 2)) as [E|E|E].
  - destruct (Z.even (Qfloor y)); (split; [lia|]);
      rewrite ?inject_Z_plus; change (inject_Z 1) with 1; lra.
  - split; [lia|]. lra.
  - split; [lia|]. rewrite inject_Z_plus. change (inject_Z 1) with 1. lra.
Qed.

Lemma nearestEven_mono (y1 y2 : Q) : y1 <= y2 -> (nearestEven y1 <= nearestEven y2)%Z.
Proof.
  intros H.
  pose proof (Qfloor_resp_le _ _ H) as Hf.
  destruct (nearestEven_bounds y1) as [[A1 A2] A3].
  destruct (nearestEven_bounds y2) as [[B1 B2] B3].
  destruct (Z.eq_dec (Qfloor y1) (Qfloor y2)) as [E|E]; [|lia].
  unfold nearestEven in *. rewrite <- E in *.
  destruct (Qcompare_spec (y1 - inject_Z (Qfloor y1)) (1 # 2)) as [E1|E1|E1];
    destruct (Qcompare_spec (y2 - inject_Z (Qfloor y1)) (1 # 2)) as [E2|E2|E2];
    try lia; try (destruct (Z.even (Qfloor y1)); lia); lra.
Qed.

Lemma nearestEven_comp (y1 y2 : Q) : y1 == y2 -> nearestEven y1 = nearestEven y2.
Proof.
  intros H. apply Z.le_antisymm; apply nearestEven_mono; lra.
Qed.

Lemma nearestEven_le (y : Q) (z : Z) : y <= inject_Z z -> (nearestEven y <= z)%Z.
Proof.
  intros H. rewrite <- (nearestEven_Z z). apply nearestEven_mono. exact H.
Qed.

Lemma nearestEven_ge (y : Q) (z : Z) : inject_Z z <= y -> (z <= nearestEven y)%Z.
Proof.
  intros H. rewrite <- (nearestEven_Z z). apply nearestEven_mono. exact H.
Qed.

Lemma ulp_pos (a : Q) : 0 < ulp a.
Proof. apply pow2_pos. Qed.

Lemma ulp_comp (a b : Q) : 0 < a -> a == b -> ulp a = ulp b.
Proof. intros Ha E. unfold ulp. rewrite (binade_comp a b Ha E). reflexivity. Qed.

Lemma flpos_comp (a b : Q) : 0 < a -> a == b -> flpos a == flpos b.
Proof.
  intros Ha E. unfold flpos. rewrite (ulp_comp a b Ha E).
  rewrite (nearestEven_comp (a / ulp b) (b / ulp b)); [reflexivity|].
  rewrite E. reflexivity.
Qed.

Lemma fl_pos (x : Q) : 0 < x -> fl x == flpos x.
Proof.
  intros H. apply Q_pos_num in H. unfold fl, flpos.
  destruct (Qnum x); try lia. apply Qred_correct.
Qed.

Lemma fl_neg (x : Q) : x < 0 -> fl x == - flpos (- x).
Proof.
  intros H. assert (Hn : (Qnum x < 0)%Z).
  { destruct x as [n d]. unfold Qlt in H. cbn in *. lia. }
  unfold fl, flpos. destruct (Qnum x); try lia. apply Qred_correct.
Qed.

Lemma fl_zero (x : Q) : x == 0 -> fl x = 0.
Proof.
  intros H. assert (Hn : Qnum x = 0%Z).
  { destruct x as [n d]. unfold Qeq in H. cbn in *. lia. }
  unfold fl. rewrite Hn. reflexivity.
Qed.

Lemma flpos_nonneg (a : Q) : 0 < a -> 0 <= flpos a.
Proof.
  intros Ha. unfold flpos. pose proof (ulp_pos a) as Hu.
  apply Qmult_le_0_compat; [|lra].
  change 0 with (inject_Z 0). rewrite <- Zle_Qle. apply nearestEven_ge.
  change (inject_Z 0) with 0. apply Qle_shift_div_l; [exact Hu|lra].
Qed.

Lemma ulp_exp (a : Q) :
  0 < a ->
  exists p, ulp a = 2 ^ p /\ (binade a - 52 <= p)%Z /\ (-1074 <= p)%Z /\
            (p = binade a - 52 \/ p = -1074)%Z.
Proof.
  intros _. exists (Z.max (binade a - 52) (-1074)). split; [reflexivity|]. lia.
Qed.

Lemma div_pow2 (a b : Z) : 2 ^ a / 2 ^ b == 2 ^ (a - b).
Proof. rewrite Qpower_minus by discriminate. reflexivity. Qed.

(** A positive number below a power of two rounds to at most that power;
    one from a power of two on rounds to at least that power. *)
Lemma flpos_upper (a : Q) : 0 < a -> flpos a <= 2 ^ (binade a + 1).
Proof.
  intros Ha. destruct (binade_spec a Ha) as [_ B2].
  destruct (ulp_exp a Ha) as (p & Hu & Hp1 & Hp2 & _). unfold flpos. rewrite Hu.
  pose proof (pow2_pos p) as Hpp.
  assert (Hy : a / 2 ^ p < 2 ^ (binade a + 1 - p)).
  { rewrite <- div_pow2. apply Qlt_shift_div_l; [exact Hpp|].
    unfold Qdiv. rewrite <- Qmult_assoc, (Qmult_comm (/ _)), Qmult_inv_r, Qmult_1_r by lra.
    exact B2. }
  destruct (Z_lt_le_dec (binade a + 1 - p) 0) as [Hj|Hj].
  - assert (Hh : 2 ^ (binade a + 1 - p) <= 2 ^ (-1)) by (apply pow2_le; lia).
    change (2 ^ (-1)) with (1 # 2) in Hh.
    assert (Hr : (nearestEven (a / 2 ^ p) <= 0)%Z).
    { change 0%Z with (nearestEven (1 # 2)). apply nearestEven_mono. lra. }
    rewrite Zle_Qle in Hr. change (inject_Z 0) with 0 in Hr.
    pose proof (pow2_pos (binade a + 1)).
    apply Qle_trans with 0; [|lra].
    setoid_replace 0 with (0 * 2 ^ p) using relation Qeq by ring.
    apply Qmult_le_compat_r; lra.
  - assert (Hr : (nearestEven (a / 2 ^ p) <= 2 ^ (binade a + 1 - p))%Z).
    { apply nearestEven_le. rewrite pow2_Z by exact Hj. lra. }
    rewrite Zle_Qle, pow2_Z in Hr by exact Hj.
    apply Qle_trans with (2 ^ (binade a + 1 - p) * 2 ^ p).
    + apply Qmult_le_compat_r; lra.
    + rewrite <- Qpower_plus by discriminate.
      replace (binade a + 1 - p + p)%Z with (binade a + 1)%Z by lia. lra.
Qed.

Lemma mul_div_pow2 (a : Q) (p : Z) : a / 2 ^ p * 2 ^ p == a.
Proof. pose proof (pow2_pos p). field. lra. Qed.

Lemma flpos_lower (a : Q) :
  0 < a -> (-1074 <= binade a - 52)%Z -> 2 ^ binade a <= flpos a.
Proof.
  intros Ha Hn. destruct (binade_spec a Ha) as [B1 _].
  unfold flpos, ulp. rewrite Z.max_l by lia.
  set (p := (binade a - 52)%Z). pose proof (pow2_pos p) as Hpp.
  assert (Hy : 2 ^ 52 <= a / 2 ^ p).
  { apply Qle_shift_div_l; [exact Hpp|]. rewrite <- Qpower_plus by discriminate.
    replace (52 + p)%Z with (binade a) by (unfold p; lia). exact B1. }
  assert (Hr : (2 ^ 52 <= nearestEven (a / 2 ^ p))%Z).
  { apply nearestEven_ge. rewrite pow2_Z by lia. exact Hy. }
  rewrite Zle_Qle, pow2_Z in Hr by lia.
  apply Qle_trans with (2 ^ 52 * 2 ^ p).
  - rewrite <- Qpower_plus by discriminate.
    replace (52 + p)%Z with (binade a) by (unfold p; lia). lra.
  - apply Qmult_le_compat_r; lra.
Qed.

Lemma flpos_mono (a b : Q) : 0 < a -> a <= b -> flpos a <= flpos b.
Proof.
  intros Ha Hab. assert (Hb : 0 < b) by lra.
  pose proof (binade_mono a b Ha Hab) as He.
  destruct (Z.eq_dec (Z.max (binade a - 52) (-1074)) (Z.max (binade b - 52) (-1074)))
    as [E|E].
  - unfold flpos, ulp. rewrite E. set (p := Z.max (binade b - 52) (-1074)).
    pose proof (pow2_pos p) as Hpp.
    apply Qmult_le_compat_r; [|lra]. rewrite <- Zle_Qle. apply nearestEven_mono.
    apply Qmult_le_compat_r; [exact Hab|]. apply Qlt_le_weak, Qinv_lt_0_compat. exact Hpp.
  - apply Qle_trans with (2 ^ (binade a + 1)); [apply flpos_upper; exact Ha|].
    apply Qle_trans with (2 ^ binade b); [apply pow2_le; lia|].
    apply flpos_lower; [exact Hb|lia].
Qed.

(** The double nearest to a number is monotone in the number. *)
Lemma fl_mono (x y : Q) : x <= y -> fl x <= fl y.
Proof.
  intros H.
  destruct (Q_dec x 0) as [[Hx|Hx]|Hx]; destruct (Q_dec y 0) as [[Hy|Hy]|Hy];
    rewrite ?(fl_zero x), ?(fl_zero y) by assumption;
    rewrite ?(fl_pos x), ?(fl_pos y), ?(fl_neg x), ?(fl_neg y) by assumption;
    try lra.
  - pose proof (flpos_mono (- y) (- x) ltac:(lra) ltac:(lra)). lra.
  - pose proof (flpos_nonneg (- x) ltac:(lra)). pose proof (flpos_nonneg y Hy). lra.
  - pose proof (flpos_nonneg (- x) ltac:(lra)). lra.
  - apply flpos_mono; lra.
  - apply flpos_nonneg. exact Hy.
Qed.

Lemma fl_comp (x y : Q) : x == y -> fl x == fl y.
Proof. intros H. apply Qle_antisym; apply fl_mono; lra. Qed.

#[global] Instance fl_proper : Proper (Qeq ==> Qeq) fl.
Proof. intros x y H. apply fl_comp. exact H. Qed.

(** Numbers with at most 53 bits, at a scale of at least [2^-1074], are
    doubles. *)
Lemma flpos_exact (a : Q) (m q : Z) :
  0 < a -> a == inject_Z m * 2 ^ q -> (m < 2 ^ 53)%Z -> (-1074 <= q)%Z ->
  flpos a == a.
Proof.
  intros Ha E Hm Hq. destruct (binade_spec a Ha) as [B1 _].
  pose proof (pow2_pos q) as Hpq.
  assert (Hlt : a < 2 ^ (53 + q)).
  { rewrite E, Qpower_plus by discriminate. apply Qmult_lt_r; [exact Hpq|].
    rewrite <- pow2_Z by lia. rewrite <- Zlt_Qlt. exact Hm. }
  assert (He : (binade a < 53 + q)%Z) by (apply pow2_lt_inv; lra).
  unfold flpos, ulp. set (p := Z.max (binade a - 52) (-1074)).
  assert (Hp : (p <= q)%Z) by (unfold p; lia).
  pose proof (pow2_pos p) as Hpp.
  assert (Hy : a / 2 ^ p == inject_Z (m * 2 ^ (q - p))).
  { rewrite inject_Z_mult, pow2_Z by lia. rewrite E, <- div_pow2. field. lra. }
  rewrite (nearestEven_comp _ _ Hy), nearestEven_Z, <- Hy.
  apply mul_div_pow2.
Qed.

Lemma fl_exact (x : Q) (m q : Z) :
  x == inject_Z m * 2 ^ q -> (Z.abs m < 2 ^ 53)%Z -> (-1074 <= q)%Z -> fl x == x.
Proof.
  intros E Hm Hq. pose proof (pow2_pos q) as Hpq.
  destruct (Z.lt_trichotomy m 0) as [Hs|[Hs|Hs]].
  - assert (Hx : x < 0).
    { rewrite E. setoid_replace 0 with (0 * 2 ^ q) using relation Qeq by ring.
      apply Qmult_lt_r; [exact Hpq|]. change 0 with (inject_Z 0).
      rewrite <- Zlt_Qlt. exact Hs. }
    rewrite (fl_neg x Hx).
    rewrite (flpos_exact (- x) (- m) q); [ring|lra| |lia|exact Hq].
    rewrite E, inject_Z_opp. ring.
  - subst m. rewrite (fl_zero x); [|rewrite E; change (inject_Z 0) with 0; ring].
    rewrite E. change (inject_Z 0) with 0. ring.
  - assert (Hx : 0 < x).
    { rewrite E. setoid_replace 0 with (0 * 2 ^ q) using relation Qeq by ring.
      apply Qmult_lt_r; [exact Hpq|]. change 0 with (inject_Z 0).
      rewrite <- Zlt_Qlt. exact Hs. }
    rewrite (fl_pos x Hx). apply (flpos_exact x m q); [exact Hx|exact E|lia|exact Hq].
Qed.

(** Whole numbers up to [2^53] are doubles. *)
Lemma fl_Z (z : Z) : (Z.abs z <= 2 ^ 53)%Z -> fl (inject_Z z) == inject_Z z.
Proof.
  intros H. destruct (Z.eq_dec (Z.abs z) (2 ^ 53)%Z) as [E|E].
  - change (2 ^ 53)%Z with 9007199254740992%Z in *.
    apply (fl_exact _ (z / 2) 1).
    + assert (Hz : z = (z / 2 * 2)%Z).
      { assert (Hc : z = 9007199254740992%Z \/ z = (-9007199254740992)%Z) by lia.
        destruct Hc as [->| ->]; reflexivity. }
      rewrite Hz at 1. rewrite inject_Z_mult. reflexivity.
    + assert (Hc : z = 9007199254740992%Z \/ z = (-9007199254740992)%Z) by lia.
      destruct Hc as [->| ->]; reflexivity.
    + lia.
  - apply (fl_exact _ z 0); [change (2 ^ 0) with 1; ring|lia|lia].
Qed.

Lemma flpos_mantissa (a : Q) :
  0 < a -> (0 <= nearestEven (a / ulp a) <= 2 ^ 53)%Z.
Proof.
  intros Ha. destruct (binade_spec a Ha) as [_ B2].
  destruct (ulp_exp a Ha) as (p & Hu & Hp1 & Hp2 & _). rewrite Hu.
  pose proof (pow2_pos p) as Hpp. split.
  - apply nearestEven_ge. change (inject_Z 0) with 0.
    apply Qle_shift_div_l; [exact Hpp|lra].
  - apply nearestEven_le. rewrite pow2_Z by lia.
    apply Qlt_le_weak, Qlt_shift_div_r; [exact Hpp|].
    rewrite <- Qpower_plus by discriminate.
    apply Qlt_le_trans with (2 ^ (binade a + 1)); [exact B2|]. apply pow2_le. lia.
Qed.

Lemma flpos_idem (a : Q) : 0 < a -> fl (flpos a) == flpos a.
Proof.
  intros Ha. destruct (flpos_mantissa a Ha) as [M0 M53].
  destruct (ulp_exp a Ha) as (p & Hu & _ & Hp2 & _).
  unfold flpos in *. rewrite Hu in *. set (m := nearestEven (a / 2 ^ p)) in *.
  destruct (Z.eq_dec m (2 ^ 53)%Z) as [E|E].
  - apply (fl_exact _ (2 ^ 52) (p + 1)); [|lia|lia].
    rewrite E, pow2_succ. rewrite !pow2_Z by lia.
    change (2 ^ 53) with (2 * 2 ^ 52). ring.
  - apply (fl_exact _ m p); [reflexivity|lia|exact Hp2].
Qed.

(** Rounding twice is rounding once. *)
Lemma fl_idem (x : Q) : fl (fl x) == fl x.
Proof.
  destruct (Q_dec x 0) as [[Hx|Hx]|Hx].
  - rewrite (fl_comp _ _ (fl_neg x Hx)).
    rewrite (fl_neg x Hx).
    pose proof (flpos_idem (- x) ltac:(lra)) as Hi.
    pose proof (flpos_nonneg (- x) ltac:(lra)) as Hn.
    destruct (Qle_lt_or_eq _ _ Hn) as [Hp|Hz].
    + rewrite (fl_neg (- flpos (- x))) by lra.
      rewrite (flpos_comp (- - flpos (- x)) (flpos (- x))); [|lra|ring].
      rewrite <- (fl_pos (flpos (- x)) Hp). rewrite Hi. reflexivity.
    + rewrite (fl_zero (- flpos (- x))); [|rewrite <- Hz; reflexivity].
      rewrite <- Hz. reflexivity.
  - rewrite (fl_pos x Hx) at 2. rewrite (fl_comp _ _ (fl_pos x Hx)).
    apply flpos_idem. exact Hx.
  - rewrite (fl_zero x Hx). reflexivity.
Qed.

(** The double nearest to a number is within half a unit in the last
    place: a relative error of [2^-53], or [2^-1075] near zero. *)
Lemma flpos_error (a : Q) :
  0 < a -> Qabs (flpos a - a) <= a * 2 ^ (-53) + 2 ^ (-1075).
Proof.
  intros Ha. destruct (binade_spec a Ha) as [B1 _].
  destruct (ulp_exp a Ha) as (p & Hu & _ & _ & Hcase).
  unfold flpos. rewrite Hu. pose proof (pow2_pos p) as Hpp.
  pose proof (nearestEven_bounds (a / 2 ^ p)) as [_ [Hl Hh]].
  pose proof (mul_div_pow2 a p) as Hy.
  set (y := a / 2 ^ p) in *. set (n := inject_Z (nearestEven y)) in *.
  assert (Hhalf : 2 ^ p == 2 * 2 ^ (p - 1)).
  { rewrite <- pow2_succ. replace (p - 1 + 1)%Z with p by lia. reflexivity. }
  assert (Hd : Qabs (n * 2 ^ p - a) <= 2 ^ (p - 1)).
  { rewrite <- Hy. apply Qabs_Qle_condition.
    assert (H1 : (n - y) * 2 ^ p <= (1 # 2) * 2 ^ p)
      by (apply Qmult_le_compat_r; lra).
    assert (H2 : (y - n) * 2 ^ p <= (1 # 2) * 2 ^ p)
      by (apply Qmult_le_compat_r; lra).
    split; lra. }
  pose proof (pow2_pos (-1075)) as He. pose proof (pow2_pos (-53)) as Hr.
  assert (Ha53 : 0 <= a * 2 ^ (-53)) by (apply Qmult_le_0_compat; lra).
  destruct Hcase as [-> | ->].
  - assert (E : 2 ^ (binade a - 52 - 1) == 2 ^ binade a * 2 ^ (-53)).
    { rewrite <- Qpower_plus by discriminate.
      replace (binade a + -53)%Z with (binade a - 52 - 1)%Z by lia. reflexivity. }
    assert (H3 : 2 ^ binade a * 2 ^ (-53) <= a * 2 ^ (-53))
      by (apply Qmult_le_compat_r; lra).
    lra.
  - change (-1074 - 1)%Z with (-1075)%Z in Hd. lra.
Qed.

Lemma fl_error (x : Q) : Qabs (fl x - x) <= Qabs x * 2 ^ (-53) + 2 ^ (-1075).
Proof.
  destruct (Q_dec x 0) as [[Hx|Hx]|Hx].
  - rewrite (fl_neg x Hx). rewrite (Qabs_neg x) by lra.
    pose proof (flpos_error (- x) ltac:(lra)) as H.
    setoid_replace (- flpos (- x) - x) with (- (flpos (- x) - - x))
      using relation Qeq by ring.
    rewrite Qabs_opp. exact H.
  - rewrite (fl_pos x Hx). rewrite (Qabs_pos x) by lra. apply flpos_error. exact Hx.
  - rewrite (fl_zero x Hx). rewrite Hx. pose proof (pow2_pos (-1075)).
    change (Qabs (0 - 0)) with 0. change (Qabs 0) with 0. lra.
Qed.

(** The same for a number of ordinary size. *)
Lemma fl_near (x b : Q) :
  Qabs x <= b -> 2 ^ (-1000) <= b -> Qabs (fl x - x) <= b * (1 # 2 ^ 52).
Proof.
  intros Hx Hb. pose proof (fl_error x) as H.
  assert (E1 : 2 ^ (-1075) <= 2 ^ (-1000) * 2 ^ (-53)).
  { rewrite <- Qpower_plus by discriminate. apply pow2_le. lia. }
  assert (E2 : 2 * 2 ^ (-53) == 1 # 2 ^ 52) by reflexivity.
  pose proof (pow2_pos (-53)) as Hr. pose proof (pow2_pos (-1000)) as Hl.
  assert (H1 : Qabs x * 2 ^ (-53) <= b * 2 ^ (-53))
    by (apply Qmult_le_compat_r; lra).
  assert (H2 : 2 ^ (-1000) * 2 ^ (-53) <= b * 2 ^ (-53))
    by (apply Qmult_le_compat_r; lra).
  rewrite <- E2. lra.
Qed.

End Doubles.

(** ** Arithmetic on doubles *)

Section DoubleArithmetic.
Import JS.

(** Rounding keeps a number between two whole numbers that bound it. *)
Lemma fl_ge_Z (z : Z) (x : Q) :
  (Z.abs z <= 2 ^ 53)%Z -> inject_Z z <= x -> inject_Z z <= fl x.
Proof. intros Hz H. rewrite <- (fl_Z z Hz). apply fl_mono. exact H. Qed.

Lemma fl_le_Z (z : Z) (x : Q) :
  (Z.abs z <= 2 ^ 53)%Z -> x <= inject_Z z -> fl x <= inject_Z z.
Proof. intros Hz H. rewrite <- (fl_Z z Hz). apply fl_mono. exact H. Qed.

Lemma fl_nonneg (x : Q) : 0 <= x -> 0 <= fl x.
Proof. intros H. apply (fl_ge_Z 0); [cbn; lia|exact H]. Qed.

Lemma fl_nonpos (x : Q) : x <= 0 -> fl x <= 0.
Proof. intros H. apply (fl_le_Z 0); [cbn; lia|exact H]. Qed.

Lemma small_Z (z : Z) : (Z.abs z <= 1000)%Z -> (Z.abs z <= 2 ^ 53)%Z.
Proof. intros H. change (2 ^ 53)%Z with 9007199254740992%Z. lia. Qed.

Lemma add_mono (a a' b b' : Q) : a <= a' -> b <= b' -> add a b <= add a' b'.
Proof.
  intros Ha Hb. unfold add. apply fl_mono.
  pose proof (fl_mono _ _ Ha). pose proof (fl_mono _ _ Hb). lra.
Qed.

Lemma sub_mono (a a' b b' : Q) : a <= a' -> b' <= b -> sub a b <= sub a' b'.
Proof.
  intros Ha Hb. unfold sub. apply fl_mono.
  pose proof (fl_mono _ _ Ha). pose proof (fl_mono _ _ Hb). lra.
Qed.

Lemma mul_mono (a a' b : Q) : 0 <= b -> a <= a' -> mul a b <= mul a' b.
Proof.
  intros Hb Ha. unfold mul. apply fl_mono.
  apply Qmult_le_compat_r; [apply fl_mono; exact Ha|apply fl_nonneg; exact Hb].
Qed.

Lemma div_mono (a a' b : Q) : 0 <= b -> a <= a' -> div a b <= div a' b.
Proof.
  intros Hb Ha. unfold div, Qdiv. apply fl_mono.
  apply Qmult_le_compat_r; [apply fl_mono; exact Ha|].
  apply Qinv_le_0_compat, fl_nonneg. exact Hb.
Qed.

(** The discount of two prices, as the scraper and the validator compute
    it, lies between 0 and 100. *)
(** Adding a whole number that is not negative to a double does not make
    it smaller. *)
Lemma add_grows (a : Q) (z : Z) :
  (0 <= z <= 1000)%Z -> fl a == a -> a <= add a (inject_Z z).
Proof.
  intros Hz Ha. unfold add. rewrite <- Ha at 1. apply fl_mono.
  rewrite Ha, (fl_Z z) by (apply small_Z; lia).
  assert (0 <= inject_Z z) by (change 0 with (inject_Z 0); rewrite <- Zle_Qle; lia).
  lra.
Qed.

Lemma fl_half : fl (1 # 2) == 1 # 2.
Proof. apply (fl_exact _ 1 (-1)); [reflexivity|cbn; lia|lia]. Qed.

Lemma fl_neg_half : fl (- (1 # 2)) == - (1 # 2).
Proof. apply (fl_exact _ (-1) (-1)); [reflexivity|cbn; lia|lia]. Qed.

(** The difference of a double and a whole number within one half of it is
    within one half as well, once rounded. *)
Lemma sub_near (a : Q) (z : Z) :
  fl a == a -> (Z.abs z <= 2 ^ 53)%Z ->
  Qabs (a - inject_Z z) <= 1 # 2 -> Qabs (sub a (inject_Z z)) <= 1 # 2.
Proof.
  intros Ha Hz H. apply Qabs_Qle_condition in H as [H1 H2].
  unfold sub. apply Qabs_Qle_condition. split.
  - rewrite <- fl_neg_half. apply fl_mono. rewrite Ha, (fl_Z z Hz). exact H1.
  - rewrite <- fl_half. apply fl_mono. rewrite Ha, (fl_Z z Hz). exact H2.
Qed.

Lemma percent_range (o c : Q) :
  0 < c -> c < o -> 0 <= mul (div (sub o c) o) 100 <= 100.
Proof.
  intros Hc Hlt.
  pose proof (fl_nonneg c ltac:(lra)) as HC.
  pose proof (fl_mono c o ltac:(lra)) as HCO.
  assert (Hs : 0 <= sub o c <= fl o).
  { unfold sub. split; [apply fl_nonneg; lra|].
    rewrite <- (fl_idem o) at 2. apply fl_mono. lra. }
  assert (Hq : 0 <= div (sub o c) o <= 1).
  { unfold div. unfold sub at 1 2. rewrite fl_idem. fold (sub o c).
    destruct (Qle_lt_or_eq 0 (fl o) ltac:(lra)) as [Hpos|Hz].
    - split.
      + apply fl_nonneg. apply Qle_shift_div_l; [exact Hpos|lra].
      + apply (fl_le_Z 1); [cbn; lia|]. change (inject_Z 1) with 1.
        apply Qle_shift_div_r; [exact Hpos|lra].
    - assert (E : sub o c / fl o == 0).
      { rewrite <- Hz. unfold Qdiv. change (/ 0) with 0. ring. }
      rewrite (fl_zero _ E). lra. }
  unfold mul. unfold div at 1 2. rewrite fl_idem. fold (div (sub o c) o).
  assert (E100 : fl 100 == 100) by (apply (fl_Z 100); cbn; lia).
  rewrite E100. split.
  - apply fl_nonneg. lra.
  - apply (fl_le_Z 100); [cbn; lia|]. change (inject_Z 100) with 100. lra.
Qed.

Lemma abs_le (x b : Q) : Qabs x <= b <-> - b <= x /\ x <= b.
Proof. apply Qabs_Qle_condition. Qed.

(** A quotient of two numbers, each close to a number of its own. *)
Lemma quotient_near (s d x o : Q) :
  0 < o -> 0 <= x <= o -> 0 <= s ->
  Qabs (s - x) <= o * (4 # 2 ^ 52) -> Qabs (d - o) <= o * (1 # 2 ^ 52) ->
  Qabs (s / d - x / o) <= 6 # 2 ^ 52.
Proof.
  change (4 # 2 ^ 52) with (4 # 4503599627370496).
  change (1 # 2 ^ 52) with (1 # 4503599627370496).
  change (6 # 2 ^ 52) with (6 # 4503599627370496).
  intros Ho [Hx0 Hx1] Hs0 Hs Hd.
  apply abs_le in Hs as [Hs1 Hs2]. apply abs_le in Hd as [Hd1 Hd2].
  assert (Hdpos : 0 < d) by lra.
  set (u := x / o). set (v := s / o). set (r := d / o).
  assert (Eu : u * o == x) by (unfold u; field; lra).
  assert (Ev : v * o == s) by (unfold v; field; lra).
  assert (Er : r * o == d) by (unfold r; field; lra).
  assert (Hu : 0 <= u <= 1).
  { unfold u. split; [apply Qle_shift_div_l|apply Qle_shift_div_r]; lra. }
  assert (Hv0 : 0 <= v) by (unfold v; apply Qle_shift_div_l; lra).
  assert (Hv : u - (4 # 4503599627370496) <= v <= u + (4 # 4503599627370496)).
  { split.
    - apply Qmult_le_r with o; [exact Ho|]. lra.
    - apply Qmult_le_r with o; [exact Ho|]. lra. }
  assert (Hr : 1 - (1 # 4503599627370496) <= r <= 1 + (1 # 4503599627370496)).
  { split.
    - apply Qmult_le_r with o; [exact Ho|]. lra.
    - apply Qmult_le_r with o; [exact Ho|]. lra. }
  assert (E : s / d == v / r).
  { unfold v, r. field. split; lra. }
  rewrite E. apply abs_le. split.
  - assert (Hg : (u - (6 # 4503599627370496)) * r <= v).
    { destruct (Qlt_le_dec u (6 # 4503599627370496)) as [Hneg|Hpos].
      - apply Qle_trans with 0; [|exact Hv0].
        setoid_replace 0 with (0 * r) using relation Qeq by ring.
        apply Qmult_le_compat_r; lra.
      - apply Qle_trans with
          ((u - (6 # 4503599627370496)) * (1 + (1 # 4503599627370496))).
        + rewrite !(Qmult_comm (u - _)). apply Qmult_le_compat_r; lra.
        + lra. }
    assert (Hq : u - (6 # 4503599627370496) <= v / r)
      by (apply Qle_shift_div_l; lra).
    lra.
  - assert (Hg : v <= (u + (6 # 4503599627370496)) * r).
    { apply Qle_trans with
        ((u + (6 # 4503599627370496)) * (1 - (1 # 4503599627370496))).
      - lra.
      - rewrite !(Qmult_comm (u + _)). apply Qmult_le_compat_r; lra. }
    assert (Hq : v / r <= u + (6 # 4503599627370496))
      by (apply Qle_shift_div_r; lra).
    lra.
Qed.

(** The discount that doubles compute is the exact one, up to the
    rounding of its three operations and of its operands. *)
Lemma percent_accuracy (o c : Q) :
  0 < c -> c < o -> 2 ^ (-1000) <= o ->
  Qabs (mul (div (sub o c) o) 100 - 100 * (o - c) / o) <= 1 # 10 ^ 12.
Proof.
  change (1 # 10 ^ 12) with (1 # 1000000000000).
  intros Hc Hlt Hl.
  pose proof (fl_near o o) as HO. rewrite Qabs_pos in HO by lra.
  specialize (HO ltac:(lra) Hl).
  pose proof (fl_near c o) as HC. rewrite Qabs_pos in HC by lra.
  specialize (HC ltac:(lra) Hl).
  change (1 # 2 ^ 52) with (1 # 4503599627370496) in HO, HC.
  pose proof HO as HO'. apply abs_le in HO as [HO1 HO2]. apply abs_le in HC as [HC1 HC2].
  assert (HS : Qabs (sub o c - (fl o - fl c)) <= 2 * o * (1 # 2 ^ 52)).
  { unfold sub. apply fl_near; [apply abs_le; lra|lra]. }
  change (1 # 2 ^ 52) with (1 # 4503599627370496) in HS.
  pose proof HS as HS'. apply abs_le in HS' as [HS1 HS2].
  assert (HS0 : 0 <= sub o c).
  { unfold sub. apply fl_nonneg. pose proof (fl_mono c o ltac:(lra)). lra. }
  assert (HT : Qabs (sub o c / fl o - (o - c) / o) <= 6 # 2 ^ 52).
  { apply quotient_near; [lra|lra|exact HS0| |exact HO'].
    change (4 # 2 ^ 52) with (4 # 4503599627370496). apply abs_le. lra. }
  change (6 # 2 ^ 52) with (6 # 4503599627370496) in HT.
  set (u := (o - c) / o) in *.
  assert (Hu : 0 <= u <= 1).
  { unfold u. split; [apply Qle_shift_div_l|apply Qle_shift_div_r]; lra. }
  assert (L2 : 2 ^ (-1000) <= 2).
  { change 2 with (2 ^ 1) at 2. apply pow2_le. lia. }
  assert (HQ : Qabs (div (sub o c) o - sub o c / fl o) <= 2 * (1 # 2 ^ 52)).
  { assert (Es : fl (sub o c) == sub o c) by apply fl_idem.
    unfold div. rewrite Es.
    apply fl_near; [|exact L2]. apply abs_le. apply abs_le in HT. lra. }
  change (1 # 2 ^ 52) with (1 # 4503599627370496) in HQ.
  set (q := div (sub o c) o) in *.
  assert (E100 : fl 100 == 100) by (apply (fl_Z 100); cbn; lia).
  assert (Eq : fl q == q) by (apply fl_idem).
  assert (HD : Qabs (mul q 100 - q * 100) <= 300 * (1 # 2 ^ 52)).
  { unfold mul. rewrite Eq, E100. apply abs_le in HT, HQ.
    apply fl_near; [apply abs_le|]; lra. }
  change (1 # 2 ^ 52) with (1 # 4503599627370496) in HD.
  assert (E : 100 * (o - c) / o == 100 * u) by (unfold u; field; lra).
  rewrite E. apply abs_le in HT, HQ, HD. apply abs_le. lra.
Qed.

Lemma inject_Z_sub (a b : Z) : inject_Z (a - b) == inject_Z a - inject_Z b.
Proof. unfold Z.sub. rewrite inject_Z_plus, inject_Z_opp. ring. Qed.

(** A positive double is a whole multiple of its unit in the last place. *)
Lemma double_grid (x : Q) :
  0 < x -> fl x == x ->
  exists n, x == inject_Z n * 2 ^ Z.max (binade x - 52) (-1074).
Proof.
  intros Hx E. exists (nearestEven (x / ulp x)).
  transitivity (fl x); [symmetry; exact E|]. apply fl_pos. exact Hx.
Qed.

(** When the discount that doubles compute reaches 50, the current price
    is at most half of the original price, as doubles: between half of a
    double and that double the difference of two doubles is exact, and the
    quotient then stays a unit in the last place below one half. *)
Lemma half_price (o c : Q) :
  0 < c -> c < o ->
  50 <= mul (div (sub o c) o) 100 ->
  0 < fl o /\ 50 <= 100 * (fl o - fl c) / fl o.
Proof.
  intros Hc Hlt H50.
  pose proof (fl_nonneg c ltac:(lra)) as HC0.
  pose proof (fl_mono c o ltac:(lra)) as HCO.
  assert (EO : fl (fl o) == fl o) by apply fl_idem.
  assert (EC : fl (fl c) == fl c) by apply fl_idem.
  assert (E100 : fl 100 == 100) by (apply (fl_Z 100); cbn; lia).
  unfold mul, div, sub in H50. rewrite !fl_idem, E100 in H50.
  set (O := fl o) in *. set (C := fl c) in *.
  destruct (Qlt_le_dec 0 O) as [HO|HO].
  2:{ exfalso. assert (Ez : O - C == 0) by lra.
      rewrite (fl_zero _ Ez) in H50.
      assert (Ez2 : 0 / O == 0) by (unfold Qdiv; ring).
      rewrite (fl_zero _ Ez2) in H50.
      assert (Ez3 : 0 * 100 == 0) by ring.
      rewrite (fl_zero _ Ez3) in H50. lra. }
  split; [exact HO|].
  destruct (Qlt_le_dec O (2 * C)) as [Hbad|Hgood].
  2:{ apply Qle_shift_div_l; [exact HO|]. lra. }
  exfalso.
  assert (HCpos : 0 < C) by lra.
  destruct (double_grid O HO EO) as [nO GO].
  destruct (double_grid C HCpos EC) as [nC GC].
  destruct (binade_spec O HO) as [BO1 BO2].
  destruct (binade_spec C HCpos) as [BC1 BC2].
  pose proof (binade_mono C O HCpos HCO) as Hb1.
  assert (Hb2 : (binade O <= binade C + 1)%Z).
  { assert (H : 2 ^ binade O < 2 ^ (binade C + 2)).
    { replace (binade C + 2)%Z with (binade C + 1 + 1)%Z by lia.
      rewrite (pow2_succ (binade C + 1)). lra. }
    apply pow2_lt_inv in H. lia. }
  set (pO := Z.max (binade O - 52) (-1074)) in *.
  set (pC := Z.max (binade C - 52) (-1074)) in *.
  pose proof (pow2_pos pO) as HpO. pose proof (pow2_pos pC) as HpC.
  (* the original price is below [2^53] units *)
  assert (HOtop : O < 2 ^ (pO + 53)).
  { apply Qlt_le_trans with (2 ^ (binade O + 1)); [exact BO2|].
    apply pow2_le. unfold pO. lia. }
  assert (HCtop : C < 2 ^ (pC + 53)).
  { apply Qlt_le_trans with (2 ^ (binade C + 1)); [exact BC2|].
    apply pow2_le. unfold pC. lia. }
  assert (E53 : forall p, 2 ^ (p + 53) == inject_Z (2 ^ 53) * 2 ^ p).
  { intros p. rewrite Qpower_plus by discriminate.
    rewrite (pow2_Z 53) by lia. ring. }
  (* both prices on the grid of the current price, and twice their
     difference on the grid of the original price *)
  assert (Hgrid : exists k K : Z,
            O - C == inject_Z k * 2 ^ pC /\ 2 * (O - C) == inject_Z K * 2 ^ pO).
  { assert (Hcase : pO = pC \/ pO = (pC + 1)%Z) by (unfold pO, pC; lia).
    destruct Hcase as [E|E].
    - exists (nO - nC)%Z, (2 * (nO - nC))%Z.
      rewrite GO, GC, E. rewrite !inject_Z_mult, !inject_Z_sub.
      change (inject_Z 2) with 2. split; ring.
    - exists (2 * nO - nC)%Z, (2 * nO - nC)%Z.
      rewrite GO, GC, E. rewrite (pow2_succ pC).
      rewrite !inject_Z_sub, !inject_Z_mult.
      change (inject_Z 2) with 2. split; ring. }
  destruct Hgrid as (k & K & Hk & HK).
  (* the difference is exact *)
  assert (Hexact : fl (O - C) == O - C).
  { apply (fl_exact _ k pC); [exact Hk| |unfold pC; lia].
    assert (Hlo : inject_Z (- 2 ^ 53) * 2 ^ pC < inject_Z k * 2 ^ pC).
    { rewrite <- Hk. rewrite inject_Z_opp.
      assert (0 < inject_Z (2 ^ 53) * 2 ^ pC).
      { apply Qmult_lt_0_compat; [|exact HpC]. reflexivity. }
      lra. }
    assert (Hhi : inject_Z k * 2 ^ pC < inject_Z (2 ^ 53) * 2 ^ pC).
    { rewrite <- Hk, <- E53. lra. }
    apply Qmult_lt_r in Hlo, Hhi; try exact HpC.
    rewrite <- Zlt_Qlt in Hlo, Hhi. lia. }
  (* twice the difference is a unit below the original price *)
  assert (Hstep : 2 * (O - C) <= O - 2 ^ pO).
  { assert (HKn : inject_Z K * 2 ^ pO < inject_Z nO * 2 ^ pO).
    { rewrite <- HK, <- GO. lra. }
    apply Qmult_lt_r in HKn; [|exact HpO]. rewrite <- Zlt_Qlt in HKn.
    assert (HK1 : inject_Z K <= inject_Z (nO - 1)) by (rewrite <- Zle_Qle; lia).
    rewrite inject_Z_sub in HK1. change (inject_Z 1) with 1 in HK1.
    assert (HL : inject_Z K * 2 ^ pO <= (inject_Z nO - 1) * 2 ^ pO)
      by (apply Qmult_le_compat_r; lra).
    rewrite HK. rewrite GO at 1. lra. }
  (* the quotient is at most the double below one half *)
  assert (Hq : (O - C) / O <= 9007199254740991 # 18014398509481984).
  { apply Qle_shift_div_r; [exact HO|].
    rewrite (E53 pO) in HOtop. change (inject_Z (2 ^ 53)) with 9007199254740992 in HOtop.
    lra. }
  assert (Eh : fl (9007199254740991 # 18014398509481984)
               == 9007199254740991 # 18014398509481984)
    by (vm_compute; reflexivity).
  rewrite Hexact in H50.
  pose proof (fl_mono _ _ Hq) as Hq'. rewrite Eh in Hq'.
  assert (Hm : fl (fl ((O - C) / O) * 100)
               <= fl ((9007199254740991 # 18014398509481984) * 100)).
  { apply fl_mono. lra. }
  assert (Hlast : fl ((9007199254740991 # 18014398509481984) * 100) < 50)
    by (vm_compute; reflexivity).
  lra.
Qed.

Lemma add_comp (x x' y y' : Q) : x == x' -> y == y' -> add x y == add x' y'.
Proof. intros Hx Hy. unfold add. rewrite Hx, Hy. reflexivity. Qed.

Lemma sub_comp (x x' y y' : Q) : x == x' -> y == y' -> sub x y == sub x' y'.
Proof. intros Hx Hy. unfold sub. rewrite Hx, Hy. reflexivity. Qed.

(** Three tenths of a discount of at most 100 stay at most 30, once
    rounded. *)
Lemma share_uncapped (a : Q) : a <= 100 -> mul a 0.3 <= 30.
Proof.
  intros H. apply Qle_trans with (mul 100 0.3).
  - apply mul_mono; [discriminate|exact H].
  - vm_compute. discriminate.
Qed.

End DoubleArithmetic.

(** Case analysis on every comparison of the goal, each with its meaning
    as a hypothesis. *)
Ltac js_compare :=
  repeat match goal with
  | |- context [JS.leb ?a ?b] =>
      let E := fresh "E" in
      destruct (JS.leb a b) eqn:E;
      [apply leb_le in E | apply leb_gt in E]
  | |- context [JS.ltb ?a ?b] =>
      let E := fresh "E" in
      destruct (JS.ltb a b) eqn:E;
      [apply ltb_lt in E | apply ltb_ge in E]
  | |- context [JS.eqb ?a ?b] =>
      let E := fresh "E" in
      destruct (JS.eqb a b) eqn:E;
      [apply eqb_eq in E | apply eqb_neq in E]
  end.

(** ** Math validation *)

Section MathValidation.
Import DealFilteringService.
Context {rt : JSRuntime}.

Lemma mismatchFlag_head (a r : Q) :
  exists rest, mismatchFlag a r = String "D" rest.
Proof. unfold mismatchFlag. simpl. eauto. Qed.

Lemma mismatchFlag_not_guard (a r : Q) : mismatchFlag a r <> guardFlag.
Proof. destruct (mismatchFlag_head a r) as [x ->]. discriminate. Qed.

Lemma mismatchFlag_not_extreme (a r : Q) : mismatchFlag a r <> extremeFlag.
Proof. destruct (mismatchFlag_head a r) as [x ->]. discriminate. Qed.

(** The three early returns. *)
Lemma validate_rejected (d : Deal) :
  Spec.pricesRejected d ->
  valid (validateDiscountMath d) = false /\
  actualDiscount (validateDiscountMath d) = 0 /\
  exists f, flags (validateDiscountMath d) = [f].
Proof.
  unfold Spec.pricesRejected, validateDiscountMath.
  destruct (originalPrice d) as [o|]; [|intros _; simpl; eauto].
  intros H. js_compare; simpl; eauto; lra.
Qed.

(** The computation past the early returns, as the flags it adds. *)
Lemma validate_computed (d : Deal) (o : Q) :
  originalPrice d = Some o -> 0 < o -> 0 < currentPrice d -> currentPrice d < o ->
  let a := JS.mul (JS.div (JS.sub o (currentPrice d)) o) 100 in
  actualDiscount (validateDiscountMath d) = a /\
  valid (validateDiscountMath d) = JS.leb 50 a /\
  flags (validateDiscountMath d) =
    (if JS.ltb 5 (JS.abs (JS.sub a (discountPercentage d)))
     then [mismatchFlag a (discountPercentage d)] else [])
    ++ (if JS.ltb 95 a then [extremeFlag] else [])
    ++ (if JS.ltb a 50 && JS.leb 90 (discountPercentage d) then [guardFlag] else []).
Proof.
  intros Ho H1 H2 H3 a. unfold validateDiscountMath. rewrite Ho.
  assert (JS.eqb o 0 = false) as -> by (apply eqb_neq; lra).
  assert (JS.leb o 0 = false) as -> by (apply leb_gt; lra).
  assert (JS.leb (currentPrice d) 0 = false) as -> by (apply leb_gt; lra).
  assert (JS.leb o (currentPrice d) = false) as -> by (apply leb_gt; lra).
  cbn [orb]. fold a.
  destruct (JS.ltb a 50) eqn:E50; destruct (JS.leb 90 (discountPercentage d)) eqn:E90;
    destruct (JS.ltb 5 _) eqn:E5; destruct (JS.ltb 95 a) eqn:E95; cbn;
    repeat split; try reflexivity;
    try (symmetry; apply leb_gt; apply ltb_lt in E50; lra).
Qed.

Lemma not_rejected (d : Deal) :
  ~ Spec.pricesRejected d ->
  exists o, originalPrice d = Some o /\ 0 < o /\ 0 < currentPrice d /\ currentPrice d < o.
Proof.
  unfold Spec.pricesRejected. destruct (originalPrice d) as [o|]; [|tauto].
  intros H. exists o. split; [reflexivity|].
  repeat split; apply Qnot_le_lt; tauto.
Qed.

(** C3, as amended.  [validateDiscountMath] returns at once, invalid, with
    [actualDiscount = 0] and exactly one flag, when the original price is
    missing or not positive, the current price is not positive, or the
    current price is not below the original price.  Otherwise
    [actualDiscount] is [((original - current) / original) * 100] as
    doubles compute it, each of the three operations rounded, a number from
    0 to 100 that is within [10^-12] of
    [100 * (original - current) / original] (for an original price of at
    least [2^-1000]); the mismatch flag is among the flags exactly when the
    absolute value of the rounded difference
    [actualDiscount - reportedDiscount] is above 5, and the deal is valid
    exactly when [actualDiscount >= 50]. *)
Theorem validateDiscountMath_spec (d : Deal) :
  let r := validateDiscountMath d in
  (Spec.pricesRejected d ->
     valid r = false /\ actualDiscount r == 0 /\ exists f, flags r = [f]) /\
  (~ Spec.pricesRejected d ->
     exists o, originalPrice d = Some o /\
       actualDiscount r = JS.mul (JS.div (JS.sub o (currentPrice d)) o) 100 /\
       0 <= actualDiscount r <= 100 /\
       (2 ^ (-1000) <= o ->
          Qabs (actualDiscount r - 100 * (o - currentPrice d) / o) <= 1 # 10 ^ 12) /\
       (In (mismatchFlag (actualDiscount r) (discountPercentage d)) (flags r)
          <-> 5 < Qabs (JS.sub (actualDiscount r) (discountPercentage d))) /\
       (valid r = true <-> 50 <= actualDiscount r)).
Proof.
  cbv zeta. split.
  - intros H. destruct (validate_rejected d H) as (Hv & Ha & Hf).
    rewrite Hv, Ha. split; [reflexivity|]. split; [reflexivity|exact Hf].
  - intros H. destruct (not_rejected d H) as (o & Ho & H1 & H2 & H3).
    destruct (validate_computed d o Ho H1 H2 H3) as (Ha & Hv & Hf).
    cbv zeta in Ha, Hv, Hf. exists o. split; [exact Ho|].
    rewrite Hv, Hf, Ha. split; [reflexivity|].
    split; [apply percent_range; lra|].
    split; [apply percent_accuracy; lra|]. split; [|apply leb_le].
    rewrite !in_app_iff. unfold JS.abs. split.
    + intros [Hin|[Hin|Hin]].
      * destruct (JS.ltb 5 _) eqn:E; [apply ltb_lt in E; exact E|destruct Hin].
      * destruct (JS.ltb 95 _); [|destruct Hin].
        destruct Hin as [Hin|[]]. symmetry in Hin.
        destruct (mismatchFlag_not_extreme _ _ Hin).
      * destruct (_ && _); [|destruct Hin].
        destruct Hin as [Hin|[]]. symmetry in Hin.
        destruct (mismatchFlag_not_guard _ _ Hin).
    + intros Hlt. left. apply ltb_lt in Hlt. rewrite Hlt. left. reflexivity.
Qed.

(** C8, as amended.  For a deal that passes the price checks, the guard
    rejects it (its flag is added, and the deal is invalid) exactly when
    [actualDiscount < 50] and [reportedDiscount >= 90]; whether
    [actualDiscount > 95] plays no part in it.  A deal with
    [actualDiscount > 95] gets the extreme-discount flag, is not touched by
    the guard and stays valid. *)
Theorem guard_spec (d : Deal) :
  let r := validateDiscountMath d in
  ~ Spec.pricesRejected d ->
  (In guardFlag (flags r)
     <-> actualDiscount r < 50 /\ 90 <= discountPercentage d) /\
  (In guardFlag (flags r) -> valid r = false) /\
  (95 < actualDiscount r ->
     In extremeFlag (flags r) /\ ~ In guardFlag (flags r) /\ valid r = true).
Proof.
  cbv zeta. intros H. destruct (not_rejected d H) as (o & Ho & H1 & H2 & H3).
  destruct (validate_computed d o Ho H1 H2 H3) as (Ha & Hv & Hf).
  cbv zeta in Ha, Hv, Hf. rewrite Hv, Hf, Ha.
  set (a := JS.mul (JS.div (JS.sub o (currentPrice d)) o) 100).
  assert (Hguard : In guardFlag
            ((if JS.ltb 5 (JS.abs (JS.sub a (discountPercentage d)))
              then [mismatchFlag a (discountPercentage d)] else [])
             ++ (if JS.ltb 95 a then [extremeFlag] else [])
             ++ (if JS.ltb a 50 && JS.leb 90 (discountPercentage d)
                 then [guardFlag] else []))
          <-> a < 50 /\ 90 <= discountPercentage d).
  { rewrite !in_app_iff. split.
    - intros [Hin|[Hin|Hin]].
      + destruct (JS.ltb 5 _); [|destruct Hin].
        destruct Hin as [Hin|[]]. destruct (mismatchFlag_not_guard _ _ Hin).
      + destruct (JS.ltb 95 a); [|destruct Hin].
        destruct Hin as [Hin|[]]. discriminate Hin.
      + destruct (JS.ltb a 50) eqn:E1; [|destruct Hin].
        destruct (JS.leb 90 _) eqn:E2; [|destruct Hin].
        apply ltb_lt in E1. apply leb_le in E2. auto.
    - intros [E1 E2]. right. right.
      apply ltb_lt in E1. apply leb_le in E2. rewrite E1, E2. left. reflexivity. }
  split; [exact Hguard|]. split.
  - intros Hin. apply Hguard in Hin. apply leb_gt. tauto.
  - intros H95. split; [|split].
    + rewrite !in_app_iff. right. left.
      apply ltb_lt in H95. rewrite H95. left. reflexivity.
    + intros Hin. apply Hguard in Hin. lra.
    + apply leb_le. lra.
Qed.

End MathValidation.

Section MathValidationExamples.
Import Demo.

Example discount_math_vector :
  actualDiscount (DealFilteringService.validateDiscountMath Demo.sixty) == 60 /\
  valid (DealFilteringService.validateDiscountMath Demo.sixty) = true /\
  In (DealFilteringService.mismatchFlag 60 90)
     (flags (DealFilteringService.validateDiscountMath Demo.sixty)).
Proof. vm_compute. intuition congruence. Qed.

(** C3, as stated, fails: the deal with original price 100, current price
    60 and reported discount 40 is marked invalid, and so is, with two
    flags, the same deal with a reported discount of 90, although the
    original price is positive and the current price is positive and below
    it. *)
Lemma validate_invalid_without_price_fault :
  valid (DealFilteringService.validateDiscountMath Demo.modest) = false /\
  ~ Spec.pricesRejected Demo.modest /\
  valid (DealFilteringService.validateDiscountMath Demo.inflated) = false /\
  length (flags (DealFilteringService.validateDiscountMath Demo.inflated)) = 2%nat /\
  ~ Spec.pricesRejected Demo.inflated.
Proof.
  split; [reflexivity|]. split.
  { unfold Spec.pricesRejected. cbn. intros [H|[H|H]]; lra. }
  split; [reflexivity|]. split; [reflexivity|].
  unfold Spec.pricesRejected. cbn. intros [H|[H|H]]; lra.
Qed.

(** Doubles show at the tolerance: for the deal with original price 100,
    current price 45 and reported discount 50 the discount computed is
    55.00000000000001 and the mismatch flag is raised, although
    [100 * (100 - 45) / 100] is five points from 50, not more.  The text of
    the flag prints the discount computed: the one of 80 to 29 is below
    63.75 and prints as 63.7. *)
Example mismatch_at_tolerance :
  flags (DealFilteringService.validateDiscountMath Demo.atTolerance)
    = ["Discount mismatch: calculated 55.0% vs reported 50%"] /\
  50 + 5 < actualDiscount (DealFilteringService.validateDiscountMath Demo.atTolerance) /\
  Qabs (100 * (100 - 45) / 100 - 50) == 5 /\
  flags (DealFilteringService.validateDiscountMath Demo.threeQuarters)
    = ["Discount mismatch: calculated 63.7% vs reported 50%"] /\
  100 * (80 - 29) / 80 == 63.75.
Proof. repeat split; vm_compute; reflexivity. Qed.

(** C8, as stated, fails: the deal with original price 100, current price
    60 and reported discount 90 is rejected by the guard although its
    actual discount, 40, is not above 95. *)
Lemma guard_fires_below_95 :
  In DealFilteringService.guardFlag
     (flags (DealFilteringService.validateDiscountMath Demo.inflated)) /\
  valid (DealFilteringService.validateDiscountMath Demo.inflated) = false /\
  actualDiscount (DealFilteringService.validateDiscountMath Demo.inflated) == 40 /\
  ~ 95 < actualDiscount (DealFilteringService.validateDiscountMath Demo.inflated).
Proof.
  vm_compute. split; [|split; [|split]]; try reflexivity.
  - right. left. reflexivity.
  - discriminate.
Qed.

(** The guard at work on the deal at 40 per cent off reported as 90. *)
Lemma guard_spec_witness :
  ~ Spec.pricesRejected Demo.inflated /\
  (In DealFilteringService.guardFlag
      (flags (DealFilteringService.validateDiscountMath Demo.inflated))
   <-> actualDiscount (DealFilteringService.validateDiscountMath Demo.inflated) < 50
       /\ 90 <= discountPercentage Demo.inflated).
Proof.
  assert (H : ~ Spec.pricesRejected Demo.inflated).
  { unfold Spec.pricesRejected. cbn. intros [H|[H|H]]; lra. }
  split; [exact H|]. exact (proj1 (guard_spec Demo.inflated H)).
Defined.

(** The deal at 100 marked down to 40: its actual discount is 60, up to
    rounding. *)
Lemma validateDiscountMath_spec_witness :
  ~ Spec.pricesRejected Demo.sixty /\
  Qabs (actualDiscount (DealFilteringService.validateDiscountMath Demo.sixty)
        - 100 * (100 - 40) / 100) <= 1 # 10 ^ 12 /\
  valid (DealFilteringService.validateDiscountMath Demo.sixty) = true.
Proof.
  assert (H : ~ Spec.pricesRejected Demo.sixty).
  { unfold Spec.pricesRejected. cbn. intros [H|[H|H]]; lra. }
  destruct (proj2 (validateDiscountMath_spec Demo.sixty) H)
    as (o & Ho & _ & _ & Hacc & _ & Hv).
  injection Ho as <-.
  split; [exact H|]. split.
  - apply Hacc. vm_compute. discriminate.
  - apply Hv. vm_compute. discriminate.
Defined.

End MathValidationExamples.

(** ** Scoring *)

Section Scoring.
Import DealFilteringService.

Lemma round_comp (x y : Q) : x == y -> JS.round x = JS.round y.
Proof. intros H. unfold JS.round. rewrite H. reflexivity. Qed.

Lemma ltb_Qle_bool (a b : Q) : JS.ltb a b = negb (Qle_bool b a).
Proof. reflexivity. Qed.

Lemma round_whole (x : Q) : exists z, JS.round x = inject_Z z.
Proof. exists (Qfloor (x + (1 # 2))). reflexivity. Qed.

Lemma clamp_whole (z : Z) :
  exists k, JS.max 0 (JS.min 100 (inject_Z z)) = inject_Z k /\ (0 <= k <= 100)%Z.
Proof.
  unfold JS.max, JS.min.
  destruct (JS.ltb (inject_Z z) 100) eqn:E1.
  - apply ltb_lt in E1. change 100 with (inject_Z 100) in E1.
    rewrite <- Zlt_Qlt in E1.
    destruct (JS.ltb 0 (inject_Z z)) eqn:E2.
    + apply ltb_lt in E2. change 0 with (inject_Z 0) in E2.
      rewrite <- Zlt_Qlt in E2. exists z. split; [reflexivity|lia].
    + exists 0%Z. split; [reflexivity|lia].
  - destruct (JS.ltb 0 100); [exists 100%Z|exists 0%Z]; (split; [reflexivity|lia]).
Qed.

(** Two numbers close to each other round alike, unless the second is
    close to the middle of two integers. *)
Lemma round_stable (x y e : Q) :
  Qabs (x - y) <= e ->
  (forall k : Z, e < Qabs (y + (1 # 2) - inject_Z k)) ->
  JS.round x = JS.round y.
Proof.
  intros Hxy Hfar. unfold JS.round. f_equal.
  set (k := Qfloor (y + (1 # 2))).
  pose proof (Qfloor_le (y + (1 # 2))) as H1.
  pose proof (Qlt_floor (y + (1 # 2))) as H2. fold k in H1, H2.
  pose proof (Hfar k) as F1. pose proof (Hfar (k + 1)%Z) as F2.
  rewrite Qabs_pos in F1 by lra. rewrite Qabs_neg in F2 by lra.
  apply abs_le in Hxy as [Hx1 Hx2].
  assert (Hlo : (k <= Qfloor (x + (1 # 2)))%Z).
  { rewrite <- (Qfloor_Z k). apply Qfloor_resp_le. lra. }
  assert (Hhi : (Qfloor (x + (1 # 2)) < k + 1)%Z).
  { rewrite Zlt_Qlt. pose proof (Qfloor_le (x + (1 # 2))). lra. }
  lia.
Qed.

Lemma min_near (b x y e : Q) :
  Qabs (x - y) <= e -> Qabs (JS.min b x - Qmin b y) <= e.
Proof.
  intros H. apply abs_le in H as [H1 H2]. apply abs_le.
  destruct (min_spec b x) as [[Hm ->]|[Hm ->]];
    destruct (Q.min_spec b y) as [[Hn ->]|[Hn ->]]; lra.
Qed.

Lemma add_near (x y b : Q) :
  Qabs x <= b -> Qabs y <= b -> 1 <= b ->
  Qabs (JS.add x y - (x + y)) <= 5 * b * (1 # 2 ^ 52).
Proof.
  intros Hx Hy Hb.
  assert (Hl : 2 ^ (-1000) <= b).
  { apply Qle_trans with 1; [|exact Hb]. change 1 with (2 ^ 0). apply pow2_le. lia. }
  pose proof (fl_near x b Hx Hl) as Ex. pose proof (fl_near y b Hy Hl) as Ey.
  assert (Es : Qabs (JS.add x y - (JS.fl x + JS.fl y)) <= 3 * b * (1 # 2 ^ 52)).
  { unfold JS.add. change (1 # 2 ^ 52) with (1 # 4503599627370496) in *.
    apply fl_near; [|lra]. apply abs_le in Hx, Hy, Ex, Ey. apply abs_le. lra. }
  change (1 # 2 ^ 52) with (1 # 4503599627370496) in *.
  apply abs_le in Ex, Ey, Es. apply abs_le. lra.
Qed.

Lemma sub_error (x y b : Q) :
  Qabs x <= b -> Qabs y <= b -> 1 <= b ->
  Qabs (JS.sub x y - (x - y)) <= 5 * b * (1 # 2 ^ 52).
Proof.
  intros Hx Hy Hb.
  assert (Hl : 2 ^ (-1000) <= b).
  { apply Qle_trans with 1; [|exact Hb]. change 1 with (2 ^ 0). apply pow2_le. lia. }
  pose proof (fl_near x b Hx Hl) as Ex. pose proof (fl_near y b Hy Hl) as Ey.
  assert (Es : Qabs (JS.sub x y - (JS.fl x - JS.fl y)) <= 3 * b * (1 # 2 ^ 52)).
  { unfold JS.sub. change (1 # 2 ^ 52) with (1 # 4503599627370496) in *.
    apply fl_near; [|lra]. apply abs_le in Hx, Hy, Ex, Ey. apply abs_le. lra. }
  change (1 # 2 ^ 52) with (1 # 4503599627370496) in *.
  apply abs_le in Ex, Ey, Es. apply abs_le. lra.
Qed.

(** The product with a constant [k], of which [kk] is the double. *)
Lemma mul_near (x k kk b K : Q) :
  JS.fl k == kk -> Qabs x <= b -> 1 <= b -> Qabs kk <= K -> 1 <= K ->
  Qabs (kk - k) <= 1 # 2 ^ 52 ->
  Qabs (JS.mul x k - x * k) <= 4 * (b * K) * (1 # 2 ^ 52).
Proof.
  intros Ek Hx Hb Hkk HK Hk.
  assert (Hl : 2 ^ (-1000) <= b).
  { apply Qle_trans with 1; [|exact Hb]. change 1 with (2 ^ 0). apply pow2_le. lia. }
  pose proof (fl_near x b Hx Hl) as Ex.
  change (1 # 2 ^ 52) with (1 # 4503599627370496) in *.
  set (fx := JS.fl x) in *.
  assert (HbK : b <= b * K).
  { rewrite <- (Qmult_1_r b) at 1. rewrite !(Qmult_comm b).
    apply Qmult_le_compat_r; lra. }
  assert (Hfx : Qabs fx <= 2 * b).
  { apply abs_le in Hx, Ex. apply abs_le. lra. }
  assert (Hp : Qabs (fx * kk) <= 2 * (b * K)).
  { rewrite Qabs_Qmult.
    apply Qle_trans with (2 * b * Qabs kk).
    - apply Qmult_le_compat_r; [exact Hfx|apply Qabs_nonneg].
    - setoid_replace (2 * (b * K)) with (2 * b * K) using relation Qeq by ring.
      rewrite !(Qmult_comm (2 * b)). apply Qmult_le_compat_r; [exact Hkk|lra]. }
  assert (Ef : Qabs (JS.mul x k - fx * kk) <= 2 * (b * K) * (1 # 4503599627370496)).
  { unfold JS.mul. rewrite Ek. fold fx.
    change (1 # 4503599627370496) with (1 # 2 ^ 52). apply fl_near; [exact Hp|lra]. }
  assert (Ed : Qabs (fx * kk - x * k)
               <= (b * K) * (1 # 4503599627370496) + b * (1 # 4503599627370496)).
  { setoid_replace (fx * kk - x * k) with ((fx - x) * kk + x * (kk - k))
      using relation Qeq by ring.
    eapply Qle_trans; [apply Qabs_triangle|]. rewrite !Qabs_Qmult.
    assert (H1 : Qabs (fx - x) * Qabs kk <= b * K * (1 # 4503599627370496)).
    { apply Qle_trans with (b * (1 # 4503599627370496) * Qabs kk).
      - apply Qmult_le_compat_r; [exact Ex|apply Qabs_nonneg].
      - setoid_replace (b * K * (1 # 4503599627370496))
          with (b * (1 # 4503599627370496) * K) using relation Qeq by ring.
        rewrite !(Qmult_comm (b * _)). apply Qmult_le_compat_r; [exact Hkk|lra]. }
    assert (H2 : Qabs x * Qabs (kk - k) <= b * (1 # 4503599627370496)).
    { apply Qle_trans with (b * Qabs (kk - k)).
      - apply Qmult_le_compat_r; [exact Hx|apply Qabs_nonneg].
      - rewrite !(Qmult_comm b). apply Qmult_le_compat_r; [exact Hk|lra]. }
    lra. }
  apply abs_le in Ef, Ed. apply abs_le. lra.
Qed.

(** The score that doubles compute is the exact sum, up to the rounding of
    its operations. *)
Lemma score_accuracy (m : MathValidation) (a : PricingAnalysisResult.t)
    (s : list string) :
  0 <= actualDiscount m <= 100 ->
  0 <= PricingAnalysisResult.confidenceScore a <= 100 ->
  exists x,
    calculateOverallScore m a s = JS.max 0 (JS.min 100 (JS.round x)) /\
    Qabs (x - Spec.rawScore m a (length s)) <= 1 # 10 ^ 12.
Proof.
  intros Hd Hc. unfold calculateOverallScore. cbv zeta.
  eexists. split; [reflexivity|].
  change (1 # 10 ^ 12) with (1 # 1000000000000).
  unfold Spec.rawScore.
  set (d := actualDiscount m) in *.
  set (c := PricingAnalysisResult.confidenceScore a) in *.
  set (n := inject_Z (Z.of_nat (length s))).
  assert (Hn : 0 <= n).
  { unfold n. change 0 with (inject_Z 0). rewrite <- Zle_Qle. lia. }
  (* the share of the discount *)
  assert (E3 : JS.fl 0.3 == 5404319552844595 # 18014398509481984)
    by (vm_compute; reflexivity).
  pose proof (mul_near d 0.3 _ 100 1 E3) as H1.
  rewrite Qabs_pos in H1 by lra.
  specialize (H1 ltac:(lra) ltac:(lra) ltac:(apply abs_le; lra) ltac:(lra)
                ltac:(apply abs_le; change (1 # 2 ^ 52) with (1 # 4503599627370496); lra)).
  change (1 # 2 ^ 52) with (1 # 4503599627370496) in H1.
  pose proof (min_near 30 _ _ _ H1) as Hm.
  set (share := JS.min 30 (JS.mul d 0.3)) in *.
  assert (Hq : 0 <= Qmin 30 (d * 0.3) <= 30).
  { destruct (Q.min_spec 30 (d * 0.3)) as [[? ->]|[? ->]]; lra. }
  assert (Hshare : Qabs share <= 50) by (apply abs_le in Hm; apply abs_le; lra).
  pose proof (add_near 50 share 50 ltac:(apply abs_le; lra) Hshare ltac:(lra)) as Hs1.
  assert (E30 : JS.sub 50 20 == 30) by (vm_compute; reflexivity).
  (* the share of the confidence *)
  assert (E100 : JS.fl 100 == 100) by (vm_compute; reflexivity).
  assert (E40 : JS.fl 40 == 40) by (vm_compute; reflexivity).
  assert (L2 : 2 ^ (-1000) <= 2).
  { change 2 with (2 ^ 1) at 2. apply pow2_le. lia. }
  assert (L100 : 2 ^ (-1000) <= 100) by lra.
  pose proof (fl_near c 100 ltac:(apply abs_le; lra) L100) as Hfc.
  change (1 # 2 ^ 52) with (1 # 4503599627370496) in *.
  assert (Hdiv : Qabs (JS.div c 100 - JS.fl c * (1 # 100)) <= 2 * (1 # 4503599627370496)).
  { unfold JS.div. rewrite E100. change (JS.fl c / 100) with (JS.fl c * (1 # 100)).
    change (1 # 4503599627370496) with (1 # 2 ^ 52).
    apply fl_near; [|exact L2]. apply abs_le in Hfc. apply abs_le.
    change (1 # 2 ^ 52) with (1 # 4503599627370496) in *. lra. }
  set (ratio := JS.div c 100) in *.
  assert (Hratio : Qabs ratio <= 2).
  { apply abs_le in Hfc, Hdiv. apply abs_le. lra. }
  pose proof (mul_near ratio 40 40 2 40 E40 Hratio ltac:(lra)
                ltac:(apply abs_le; lra) ltac:(lra)
                ltac:(apply abs_le; change (1 # 2 ^ 52) with (1 # 4503599627370496); lra))
    as Hai.
  change (1 # 2 ^ 52) with (1 # 4503599627370496) in Hai.
  set (aiScore := JS.mul ratio 40) in *.
  assert (Haiabs : Qabs aiScore <= 130).
  { apply abs_le in Hfc, Hdiv, Hai. apply abs_le. lra. }
  assert (Ec : c / 100 * 40 == c * (1 # 100) * 40) by reflexivity.
  rewrite Ec.
  (* the penalty *)
  assert (Hpen : JS.min 30 (JS.mul n 5) == Qmin 30 (n * 5)).
  { destruct (Qlt_le_dec n 6) as [Hlt|Hge].
    - assert (Hz : (Z.of_nat (length s) < 6)%Z).
      { rewrite Zlt_Qlt. exact Hlt. }
      assert (Em : JS.mul n 5 == n * 5).
      { unfold JS.mul, n. rewrite (fl_Z (Z.of_nat (length s))) by (apply small_Z; lia).
        change 5 with (inject_Z 5). rewrite (fl_Z 5) by (cbn; lia).
        rewrite <- inject_Z_mult. apply fl_Z. apply small_Z. lia. }
      rewrite min_Qmin, Em. reflexivity.
    - assert (Hm6 : 30 <= JS.mul n 5).
      { assert (E6 : JS.mul 6 5 == 30) by (vm_compute; reflexivity).
        rewrite <- E6. apply mul_mono; [lra|exact Hge]. }
      destruct (min_spec 30 (JS.mul n 5)) as [[? ->]|[? ->]];
        destruct (Q.min_spec 30 (n * 5)) as [[? ->]|[? ->]]; lra. }
  set (pen := JS.min 30 (JS.mul n 5)) in *.
  assert (Hpq : 0 <= Qmin 30 (n * 5) <= 30).
  { destruct (Q.min_spec 30 (n * 5)) as [[? ->]|[? ->]]; lra. }
  assert (Hpabs : Qabs pen <= 130) by (apply abs_le; lra).
  rewrite ltb_Qle_bool.
  (* the sum *)
  assert (Hsum : forall base b0,
            Qabs (base - b0) <= 1300 * (1 # 4503599627370496) -> 0 <= b0 <= 80 ->
            Qabs ((if negb (Qle_bool (PricingAnalysisResult.pricingGlitchProbability a) 70)
                   then JS.add (JS.sub (JS.add base aiScore) pen) 20
                   else JS.sub (JS.add base aiScore) pen)
                  - (b0 + c * (1 # 100) * 40 - Qmin 30 (n * 5)
                     + (if Qle_bool (PricingAnalysisResult.pricingGlitchProbability a) 70
                        then 0 else 20)))
            <= 1 # 1000000000000).
  { intros base b0 Hb Hb0.
    assert (Hbase : Qabs base <= 130) by (apply abs_le in Hb; apply abs_le; lra).
    pose proof (add_near base aiScore 130 Hbase Haiabs ltac:(lra)) as Hs2.
    change (1 # 2 ^ 52) with (1 # 4503599627370496) in Hs2.
    set (s2 := JS.add base aiScore) in *.
    assert (Hs2abs : Qabs s2 <= 130).
    { apply abs_le in Hb, Hfc, Hdiv, Hai, Hs2. apply abs_le. lra. }
    pose proof (sub_error s2 pen 130 Hs2abs Hpabs ltac:(lra)) as Hs3.
    change (1 # 2 ^ 52) with (1 # 4503599627370496) in Hs3.
    set (s3 := JS.sub s2 pen) in *.
    assert (Hs3abs : Qabs s3 <= 130).
    { apply abs_le in Hb, Hfc, Hdiv, Hai, Hs2, Hs3. apply abs_le. lra. }
    pose proof (add_near s3 20 130 Hs3abs ltac:(apply abs_le; lra) ltac:(lra)) as Hs4.
    change (1 # 2 ^ 52) with (1 # 4503599627370496) in Hs4.
    apply abs_le in Hb, Hfc, Hdiv, Hai, Hs2, Hs3, Hs4.
    destruct (Qle_bool _ 70); cbn [negb]; apply abs_le; lra. }
  destruct (valid m).
  - apply Hsum; [|lra].
    change (1 # 2 ^ 52) with (1 # 4503599627370496) in Hs1.
    apply abs_le in Hm, Hs1. apply abs_le. lra.
  - apply (Hsum (JS.sub 50 20) (50 + - 20)); [|lra].
    apply abs_le. lra.
Qed.

(** C4, as amended.  The overall score is a whole number from 0 to 100,
    whatever the inputs.  For an actual discount and an AI confidence from
    0 to 100 it is the clamp to [0, 100] of the rounding to the nearest
    integer of the sum that doubles compute, which is within [10^-12] of
    the sum of the specification: 50, plus [min(30, actualDiscount * 0.3)]
    if the math is valid and minus 20 otherwise, plus
    [aiConfidence / 100 * 40], minus [min(30, 5 * factors)], plus 20 for a
    glitch probability above 70.  So it is the clamp of the rounding of
    that sum whenever the sum is farther than [10^-12] from the middle of
    two integers. *)
Theorem calculateOverallScore_spec (m : MathValidation)
    (a : PricingAnalysisResult.t) (s : list string) :
  (0 <= calculateOverallScore m a s <= 100 /\
   exists k, calculateOverallScore m a s = inject_Z k) /\
  (0 <= actualDiscount m <= 100 ->
   0 <= PricingAnalysisResult.confidenceScore a <= 100 ->
   (exists x,
      Qabs (x - Spec.rawScore m a (length s)) <= 1 # 10 ^ 12 /\
      calculateOverallScore m a s == Spec.clamp100 (JS.round x)) /\
   ((forall k : Z,
       1 # 10 ^ 12 < Qabs (Spec.rawScore m a (length s) + (1 # 2) - inject_Z k)) ->
    calculateOverallScore m a s
      == Spec.clamp100 (JS.round (Spec.rawScore m a (length s))))).
Proof.
  split; [split|].
  - unfold calculateOverallScore. apply clamp_bounds. lra.
  - unfold calculateOverallScore. cbv zeta.
    match goal with |- context [JS.round ?x] => destruct (round_whole x) as [z ->] end.
    destruct (clamp_whole z) as (k & -> & _). exists k. reflexivity.
  - intros Hd Hc. destruct (score_accuracy m a s Hd Hc) as (x & -> & Hx).
    assert (Hcl : forall y, JS.max 0 (JS.min 100 y) == Spec.clamp100 y).
    { intros y. unfold Spec.clamp100. rewrite max_Qmax, min_Qmin. reflexivity. }
    split.
    + exists x. split; [exact Hx|apply Hcl].
    + intros Hfar. rewrite (round_stable x _ _ Hx Hfar). apply Hcl.
Qed.

End Scoring.

(** C4, as stated, fails: for a valid deal with actual discount 60, an AI
    confidence of 51, no suspicious factor and no glitch, the function
    returns 88 while the clamped sum is 88.4. *)
Lemma score_is_rounded :
  let m := {| valid := true; actualDiscount := 60; flags := [] |} in
  let a := {| PricingAnalysisResult.isLegitimate := true; PricingAnalysisResult.confidenceScore := 51;
              PricingAnalysisResult.pricingGlitchProbability := 0; PricingAnalysisResult.analysis := "ok";
              PricingAnalysisResult.suspiciousFactors := []; PricingAnalysisResult.recommendation := HIGH |} in
  DealFilteringService.calculateOverallScore m a [] == 88 /\
  Spec.clamp100 (Spec.rawScore m a 0) == 88.4.
Proof. cbv zeta. split; vm_compute; reflexivity. Qed.

(** Doubles show at the middle of two integers: for a valid deal with an
    actual discount of 68.33333333333333 and an AI confidence of 55 the
    sum of the specification is just below 92.5, the sum that doubles
    compute is 92.5, and the score is 93. *)
Example score_at_half :
  let m := {| valid := true; actualDiscount := 68.33333333333333; flags := [] |} in
  let a := {| PricingAnalysisResult.isLegitimate := true; PricingAnalysisResult.confidenceScore := 55;
              PricingAnalysisResult.pricingGlitchProbability := 0; PricingAnalysisResult.analysis := "ok";
              PricingAnalysisResult.suspiciousFactors := []; PricingAnalysisResult.recommendation := HIGH |} in
  DealFilteringService.calculateOverallScore m a [] == 93 /\
  Spec.clamp100 (JS.round (Spec.rawScore m a 0)) == 92.
Proof. cbv zeta. split; vm_compute; reflexivity. Qed.

(** The score of a valid deal with an actual discount of 60 and an AI
    confidence of 51: the sum, 88.4, is far from the middle of two
    integers. *)
Lemma calculateOverallScore_spec_witness :
  DealFilteringService.calculateOverallScore
    {| valid := true; actualDiscount := 60; flags := [] |}
    {| PricingAnalysisResult.isLegitimate := true;
       PricingAnalysisResult.confidenceScore := 51;
       PricingAnalysisResult.pricingGlitchProbability := 0;
       PricingAnalysisResult.analysis := "ok";
       PricingAnalysisResult.suspiciousFactors := [];
       PricingAnalysisResult.recommendation := HIGH |} []
  == Spec.clamp100 (JS.round (884 # 10)).
Proof.
  refine (proj2 (proj2 (calculateOverallScore_spec
                          {| valid := true; actualDiscount := 60; flags := [] |}
                          _ []) _ _) _).
  - cbn. lra.
  - cbn. lra.
  - intros k. change (1 # 10 ^ 12) with (1 # 1000000000000).
    change (Spec.rawScore _ _ _ + (1 # 2))
      with (50 + 60 * 0.3 + 51 / 100 * 40 - Qmin 30 (0 * 5) + 0 + (1 # 2)).
    assert (E : 50 + 60 * 0.3 + 51 / 100 * 40 - Qmin 30 (0 * 5) + 0 + (1 # 2)
                == 889 # 10) by (vm_compute; reflexivity).
    rewrite E. destruct (Z_le_gt_dec k 88) as [Hk|Hk].
    + assert (Hq : inject_Z k <= 88)
        by (change 88 with (inject_Z 88); rewrite <- Zle_Qle; exact Hk).
      rewrite Qabs_pos by lra. lra.
    + assert (Hq : 89 <= inject_Z k)
        by (change 89 with (inject_Z 89); rewrite <- Zle_Qle; lia).
      rewrite Qabs_neg by lra. lra.
Defined.

(** ** The price parser *)

Section PriceParser.
Import RegExp.

Lemma digitFirst_fails (r : regex) :
  digitFirst r -> forall s c k, noDigitAhead s -> matchR r s c k = None.
Proof.
  induction r as [p|r1 IH1 r2 IH2|r IH lo hi|i r IH|r IH]; simpl; intros Hr s c k Hs.
  - destruct s as [|a s]; [reflexivity|]. simpl in Hs.
    destruct (p a) eqn:E; [|reflexivity]. apply Hr in E. congruence.
  - apply IH1; assumption.
  - destruct lo as [|lo]; [destruct Hr|].
    destruct hi as [[|hi]|]; try destruct Hr; simpl; apply IH; assumption.
  - apply IH; assumption.
  - destruct Hr.
Qed.

Lemma exec_no_digit (r : regex) (n : nat) (s : string) :
  digitFirst r -> Spec.hasDigit s = false -> exec r n s = None.
Proof.
  intros Hr. induction s as [|a s IH]; intros Hs.
  - simpl. rewrite digitFirst_fails; [reflexivity|assumption|exact I].
  - simpl in Hs. apply orb_false_iff in Hs as [Ha Hs].
    cbn [exec]. rewrite digitFirst_fails; [auto|assumption|exact Ha].
Qed.

Lemma hasDigit_removeAll (p : ascii -> bool) (s : string) :
  Spec.hasDigit s = false -> Spec.hasDigit (JS.removeAll p s) = false.
Proof.
  induction s as [|a s IH]; simpl; [auto|].
  intros H. apply orb_false_iff in H as [Ha Hs].
  destruct (p a); simpl; rewrite ?Ha; auto.
Qed.

Lemma hasDigit_collapseSpaces (b : bool) (s : string) :
  Spec.hasDigit s = false -> Spec.hasDigit (JS.collapseSpaces b s) = false.
Proof.
  revert b. induction s as [|a s IH]; simpl; [auto|].
  intros b H. apply orb_false_iff in H as [Ha Hs].
  destruct (JS.isWhiteSpace a); [destruct b|]; cbn [Spec.hasDigit];
    rewrite ?Ha; try change (JS.isDigit " ") with false; cbn [orb]; auto.
Qed.

Lemma hasDigit_trimStart (s : string) :
  Spec.hasDigit s = false -> Spec.hasDigit (JS.trimStart s) = false.
Proof.
  induction s as [|a s IH]; simpl; [auto|].
  intros H. destruct (JS.isWhiteSpace a); [|exact H].
  apply orb_false_iff in H as [_ Hs]. auto.
Qed.

Lemma hasDigit_trimEnd (s : string) :
  Spec.hasDigit s = false -> Spec.hasDigit (JS.trimEnd s) = false.
Proof.
  induction s as [|a s IH]; simpl; [auto|].
  intros H. apply orb_false_iff in H as [Ha Hs]. specialize (IH Hs).
  destruct (JS.trimEnd s) as [|b t].
  - destruct (JS.isWhiteSpace a); simpl; rewrite ?Ha; reflexivity.
  - simpl in *. rewrite Ha. exact IH.
Qed.

Lemma hasDigit_cleanText (s : string) :
  Spec.hasDigit s = false -> Spec.hasDigit (cleanText s) = false.
Proof.
  intros H. unfold cleanText, JS.trim.
  auto using hasDigit_trimEnd, hasDigit_trimStart, hasDigit_collapseSpaces,
    hasDigit_removeAll.
Qed.

(** A text without any digit is not a price: the parser returns [null]. *)
Lemma priceParser_no_digit (text : string) :
  Spec.hasDigit text = false -> priceParser text = None.
Proof.
  intros H. apply hasDigit_cleanText in H. unfold priceParser.
  rewrite !exec_no_digit; try assumption; simpl; auto.
Qed.

(** The five profiles share the parser. *)
Lemma SITE_CONFIGS_parser :
  Forall (fun cfg => SiteConfig.priceParser cfg = priceParser) SITE_CONFIGS.
Proof. repeat constructor. Qed.

(** The test vectors that hold: split dollars and cents, a range, missing
    cents, and a text that is no price. *)
Example priceParser_vectors :
  Spec.isNumber (priceParser "99 99") 99.99 /\
  Spec.isNumber (priceParser "$10 - $20") 10 /\
  Spec.isNumber (priceParser "50") 50 /\
  priceParser "out of stock" = None.
Proof.
  repeat split;
    try (eexists; split; [vm_compute; reflexivity|vm_compute; reflexivity]).
Qed.

(** C5: the first test vector fails.  On the text of a price with a
    thousands separator the pattern for split dollars and cents matches
    inside the run of digits, as 12 dollars and 99 cents: the parser
    returns 12.99, not 1299.99. *)
Theorem priceParser_thousands :
  Spec.isNumber (priceParser "$1,299.99") 12.99 /\
  ~ Spec.isNumber (priceParser "$1,299.99") 1299.99.
Proof.
  assert (E : priceParser "$1,299.99" = Some (JS.fl 12.99))
    by (vm_compute; reflexivity).
  rewrite E. split.
  - eexists; split; reflexivity.
  - intros (x & [= <-] & H). vm_compute in H. discriminate.
Qed.

(** The same slip on any run of three digits. *)
Example priceParser_hundred : Spec.isNumber (priceParser "$100") 1.
Proof. eexists; split; vm_compute; reflexivity. Qed.

End PriceParser.

(** ** Extraction *)

Section Extraction.
Import WebScrapingService.

Lemma truthy_nonempty (s : string) : JS.truthy s = true <-> s <> EmptyString.
Proof. destruct s; simpl; split; congruence. Qed.

(** For a positive current price the discount of the code is the one of
    the specification, computed in doubles. *)
Lemma computeDiscount_spec (o : option Q) (c : Q) :
  0 < c -> computeDiscount o c = Spec.discountComputed o c.
Proof.
  intros Hc. unfold computeDiscount, Spec.discountComputed.
  destruct o as [o|]; [|reflexivity].
  fold (JS.leb o c). unfold JS.ltb. fold (JS.leb o c).
  destruct (JS.leb o c) eqn:E; cbn [negb].
  - rewrite andb_false_r. reflexivity.
  - apply leb_gt in E.
    assert (JS.eqb o 0 = false) as -> by (apply eqb_neq; lra).
    reflexivity.
Qed.

(** What the shared loop body lets through. *)
Lemma processListing_some (cfg : SiteConfig.t) (pageUrl ttl cpt : string)
    (opt : option string) (img link : option string) (av : string) (d : Deal) :
  processListing cfg pageUrl ttl cpt opt img link av = Some d ->
  title d = ttl /\
  SiteConfig.priceParser cfg cpt = Some (currentPrice d) /\
  originalPrice d
    = (if truthyOpt opt then SiteConfig.priceParser cfg (default EmptyString opt)
       else None) /\
  0 < currentPrice d /\
  10 <= computeDiscount (originalPrice d) (currentPrice d) /\
  discountPercentage d = JS.round (computeDiscount (originalPrice d) (currentPrice d)).
Proof.
  unfold processListing.
  destruct (SiteConfig.priceParser cfg cpt) as [c|]; [|discriminate].
  destruct (JS.eqb c 0) eqn:E0; [discriminate|].
  destruct (JS.leb c 0) eqn:E1; [discriminate|]. cbn [orb].
  destruct (JS.ltb _ 10) eqn:E2; [discriminate|].
  intros [= <-]. cbn. apply leb_gt in E1. apply ltb_ge in E2. auto 10.
Qed.

(** The listings that yield a deal, on either path. *)
Lemma extraction_produces (cfg : SiteConfig.t) (pageUrl : string) (p : Product)
    (d : Deal) :
  puppeteerListing cfg pageUrl p = Some d \/ cheerioListing cfg pageUrl p = Some d ->
  title d = JS.trim (default EmptyString (titleText p)) /\
  title d <> EmptyString /\
  SiteConfig.priceParser cfg (JS.trim (default EmptyString (currentPriceElText p)))
    = Some (currentPrice d) /\
  originalPrice d = parsedOriginal cfg p /\
  0 < currentPrice d /\
  discountPercentage d
    = JS.round (Spec.discountComputed (originalPrice d) (currentPrice d)) /\
  10 <= Spec.discountComputed (originalPrice d) (currentPrice d).
Proof.
  unfold parsedOriginal. intros [H|H].
  - unfold puppeteerListing in H.
    destruct (titleText p) as [t|]; [|discriminate].
    destruct (currentPriceElText p) as [ct|]; [|discriminate].
    destruct (JS.truthy (JS.trim t)) eqn:Et; [|discriminate].
    destruct (JS.truthy (JS.trim ct)) eqn:Ec; [|discriminate].
    cbn [negb orb] in H.
    apply processListing_some in H as (Ht & Hp & Ho & Hc & H10 & Hd).
    rewrite (computeDiscount_spec _ _ Hc) in H10, Hd.
    cbn [default]. rewrite Ht. repeat split; try assumption.
    + apply truthy_nonempty, Et.
    + rewrite Ho. destruct (SiteConfig.selectsOriginalPrice cfg); [|reflexivity].
      destruct (originalPriceElText p); reflexivity.
  - unfold cheerioListing in H.
    destruct (JS.truthy (JS.trim (default _ (titleText p)))) eqn:Et; [|discriminate].
    destruct (JS.truthy (JS.trim (default _ (currentPriceElText p)))) eqn:Ec;
      [|discriminate].
    cbn [negb orb] in H.
    apply processListing_some in H as (Ht & Hp & Ho & Hc & H10 & Hd).
    rewrite (computeDiscount_spec _ _ Hc) in H10, Hd.
    rewrite Ht. repeat split; try assumption.
    + apply truthy_nonempty, Et.
    + rewrite Ho. destruct (SiteConfig.selectsOriginalPrice cfg); reflexivity.
Qed.


(** Every deal of a page comes from one of its first twenty products. *)
Lemma scrape_listing (cfg : SiteConfig.t) (pageUrl : string)
    (products : list Product) (d : Deal) :
  In d (scrapeWithPuppeteer cfg pageUrl products)
  \/ In d (scrapeWithCheerio cfg pageUrl products) ->
  exists p, In p (take 20 products) /\
    (puppeteerListing cfg pageUrl p = Some d \/ cheerioListing cfg pageUrl p = Some d).
Proof.
  unfold scrapeWithPuppeteer, scrapeWithCheerio.
  intros [H|H]; apply list_elem_of_In, list_elem_of_omap in H as (p & Hp & E);
    exists p; rewrite <- list_elem_of_In; auto.
Qed.


End Extraction.



(** ** The loop of [filterDeals] *)

Section Filtering.
Import DealFilteringService.
Context {rt : JSRuntime}.

Lemma valid_ge_50 (d : Deal) :
  valid (validateDiscountMath d) = true ->
  50 <= actualDiscount (validateDiscountMath d).
Proof.
  unfold validateDiscountMath.
  destruct (originalPrice d) as [o|]; [|discriminate].
  js_compare; cbn; try discriminate; intros _; assumption.
Qed.

(** The math gate lets a deal pass exactly when its actual discount is at
    least 50. *)
Lemma gate_spec (d : Deal) :
  (negb (valid (validateDiscountMath d))
    && JS.ltb (actualDiscount (validateDiscountMath d)) 50) = false
  <-> 50 <= actualDiscount (validateDiscountMath d).
Proof.
  split.
  - intros H. apply andb_false_iff in H. destruct H as [Hv|Hlt].
    + apply negb_false_iff in Hv. apply valid_ge_50, Hv.
    + apply ltb_ge, Hlt.
  - intros H. apply ltb_ge in H. rewrite H. apply andb_false_r.
Qed.

Lemma processDeal_duplicate ai minD minC (seenDeals : gset string) n d :
  generateDealHash d ∈ seenDeals ->
  processDeal ai minD minC seenDeals n d = (seenDeals, Duplicate).
Proof.
  intros H. unfold processDeal. rewrite bool_decide_eq_true_2; auto.
Qed.

Lemma processDeal_seen ai minD minC (seenDeals : gset string) n d :
  (processDeal ai minD minC seenDeals n d).1 = seenDeals ∪ {[ generateDealHash d ]}.
Proof.
  unfold processDeal.
  destruct (decide (generateDealHash d ∈ seenDeals)) as [Hin|Hin].
  - rewrite bool_decide_eq_true_2 by exact Hin. cbn.
    apply set_eq. intros x. rewrite elem_of_union, elem_of_singleton.
    split; [auto|intros [Hx| ->]; assumption].
  - rewrite bool_decide_eq_false_2 by exact Hin.
    destruct (_ && _); [reflexivity|].
    destruct (analyzeWithAI ai n d); [|reflexivity].
    destruct (_ && _); reflexivity.
Qed.

(** What an accepted deal went through, and what it carries. *)
Lemma processDeal_accepted ai minD minC (seenDeals : gset string) n d fd :
  (processDeal ai minD minC seenDeals n d).2 = Accepted fd ->
  (generateDealHash d ∉ seenDeals) /\
  50 <= actualDiscount (validateDiscountMath d) /\
  exists r, analyzeWithAI ai n d = Some r /\
    Spec.qualifies minD minC d r /\
    deal fd = d /\
    confidenceScore fd
      = calculateOverallScore (validateDiscountMath d) r (detectSuspiciousPricing d) /\
    pricingGlitchProbability fd = PricingAnalysisResult.pricingGlitchProbability r.
Proof.
  unfold processDeal.
  destruct (decide (generateDealHash d ∈ seenDeals)) as [Hin|Hin];
    [rewrite bool_decide_eq_true_2 by exact Hin; discriminate|].
  rewrite bool_decide_eq_false_2 by exact Hin.
  destruct (_ && _) eqn:Eg; [discriminate|]. apply gate_spec in Eg.
  destruct (analyzeWithAI ai n d) as [r|]; [|discriminate].
  destruct (_ && _) eqn:Eq; [|discriminate].
  cbn. intros [= <-]. split; [exact Hin|]. split; [exact Eg|].
  exists r. split; [reflexivity|]. cbn.
  apply andb_true_iff in Eq as [Eq1 Eq2]. apply leb_le in Eq2.
  apply orb_true_iff in Eq1.
  unfold Spec.qualifies. repeat split; try assumption.
  destruct Eq1 as [E|E]; apply leb_le in E; auto.
Qed.

(** Every deal that is new, passes the gate, gets a verdict and qualifies
    is accepted. *)
Lemma processDeal_accepts ai minD minC (seenDeals : gset string) n d r :
  generateDealHash d ∉ seenDeals ->
  50 <= actualDiscount (validateDiscountMath d) ->
  analyzeWithAI ai n d = Some r ->
  Spec.qualifies minD minC d r ->
  exists fd, (processDeal ai minD minC seenDeals n d).2 = Accepted fd.
Proof.
  intros Hin Hg Hr [Hq Hc]. unfold processDeal.
  rewrite bool_decide_eq_false_2 by exact Hin.
  apply gate_spec in Hg. rewrite Hg, Hr.
  apply leb_le in Hc. rewrite Hc.
  assert (JS.leb minD (actualDiscount (validateDiscountMath d))
          || JS.leb 70 (PricingAnalysisResult.pricingGlitchProbability r) = true) as ->.
  { apply orb_true_iff. destruct Hq as [H|H]; apply leb_le in H; auto. }
  cbn. eauto.
Qed.

(** A deal below 50 per cent never reaches the AI stage. *)
Lemma processDeal_below_50 ai minD minC (seenDeals : gset string) n d :
  actualDiscount (validateDiscountMath d) < 50 ->
  (processDeal ai minD minC seenDeals n d).2 = Duplicate \/
  (processDeal ai minD minC seenDeals n d).2 = MathInvalid.
Proof.
  intros H. unfold processDeal.
  destruct (bool_decide _); [left; reflexivity|].
  destruct (_ && _) eqn:Eg; [right; reflexivity|].
  apply gate_spec in Eg. lra.
Qed.

(** *** The state of the loop *)

Section Loop.
Variables (ai : Providers) (minD minC : Q) (seen0 : gset string).

Local Abbreviation run := (runLoop ai minD minC seen0).
Local Abbreviation hashOf := (fun fd : FilteredDeal => generateDealHash (deal fd)).

Lemma run_snoc (deals : list Deal) (d : Deal) :
  run (deals ++ [d]) = loopStep ai minD minC (run deals) d.
Proof. apply foldl_snoc. Qed.

Lemma run_processed (deals : list Deal) : processedCount (run deals) = length deals.
Proof.
  induction deals as [|d deals IH] using rev_ind; [reflexivity|].
  rewrite run_snoc, length_app. unfold loopStep.
  destruct (processDeal _ _ _ _ _ _). cbn. rewrite IH. lia.
Qed.

Lemma loopStep_seen (st : LoopState) (d : Deal) :
  seen (loopStep ai minD minC st d) = seen st ∪ {[ generateDealHash d ]}.
Proof.
  unfold loopStep.
  rewrite <- (processDeal_seen ai minD minC (seen st) (S (processedCount st)) d).
  destruct (processDeal _ _ _ _ _ _). reflexivity.
Qed.

Lemma loopStep_filtered (st : LoopState) (d : Deal) :
  filteredDeals (loopStep ai minD minC st d)
  = filteredDeals st ++
      match (processDeal ai minD minC (seen st) (S (processedCount st)) d).2 with
      | Accepted fd => [fd]
      | _ => []
      end.
Proof.
  unfold loopStep. destruct (processDeal _ _ _ _ _ _) as [s o]. cbn.
  destruct o; rewrite ?app_nil_r; reflexivity.
Qed.

Lemma run_seen_mono (deals : list Deal) (d : Deal) :
  seen (run deals) ⊆ seen (run (deals ++ [d])).
Proof.
  rewrite run_snoc, loopStep_seen. intros x Hx. apply elem_of_union. auto.
Qed.

Lemma run_seen_initial (deals : list Deal) : seen0 ⊆ seen (run deals).
Proof.
  induction deals as [|d deals IH] using rev_ind; [reflexivity|].
  etransitivity; [exact IH|apply run_seen_mono].
Qed.

Lemma run_seen_input (deals : list Deal) (d : Deal) :
  In d deals -> generateDealHash d ∈ seen (run deals).
Proof.
  induction deals as [|x deals IH] using rev_ind; [intros []|].
  rewrite in_app_iff, run_snoc, loopStep_seen, elem_of_union, elem_of_singleton.
  intros [H|[->|[]]]; auto.
Qed.

(** The accepted deals are those of the input whose turn in the loop ends
    in acceptance. *)
Lemma run_filtered (deals : list Deal) (fd : FilteredDeal) :
  In fd (filteredDeals (run deals)) <->
  exists i d, deals !! i = Some d /\
    (processDeal ai minD minC (seen (run (take i deals))) (S i) d).2 = Accepted fd.
Proof.
  induction deals as [|x deals IH] using rev_ind.
  - cbn. split; [intros []|]. intros (i & d & H & _). destruct i; discriminate.
  - rewrite run_snoc, loopStep_filtered, in_app_iff, IH, run_processed. split.
    + intros [(i & d & Hi & Ho)|Hx].
      * exists i, d. pose proof (lookup_lt_Some _ _ _ Hi) as Hlt.
        rewrite lookup_app_l by exact Hlt.
        rewrite take_app_le by lia. auto.
      * exists (length deals), x.
        rewrite list_lookup_middle by reflexivity.
        rewrite take_app_length. split; [reflexivity|].
        destruct (processDeal _ _ _ _ _ _).2 as [| | | |fd0].
        1-4: destruct Hx.
        destruct Hx as [->|[]]. reflexivity.
    + intros (i & d & Hi & Ho).
      destruct (decide (i < length deals)%nat) as [Hlt|Hge].
      * left. exists i, d. rewrite lookup_app_l in Hi by exact Hlt.
        rewrite take_app_le in Ho by lia. auto.
      * right. pose proof (lookup_lt_Some _ _ _ Hi) as Hlt.
        rewrite length_app in Hlt. cbn in Hlt.
        assert (i = length deals) as -> by lia.
        rewrite list_lookup_middle in Hi by reflexivity. injection Hi as <-.
        rewrite take_app_length in Ho. rewrite Ho. left. reflexivity.
Qed.

(** One accepted deal per hash: the hashes of the accepted deals are
    distinct, new to the service, and seen afterwards. *)
Lemma run_hashes (deals : list Deal) :
  NoDup (hashOf <$> filteredDeals (run deals)) /\
  forall fd, In fd (filteredDeals (run deals)) ->
    In (deal fd) deals /\ (hashOf fd ∉ seen0) /\ (hashOf fd ∈ seen (run deals)).
Proof.
  induction deals as [|x deals [IHn IHs]] using rev_ind.
  - split; [constructor|intros fd []].
  - rewrite run_snoc, loopStep_filtered, loopStep_seen.
    destruct (processDeal _ _ _ _ _ _).2 as [| | | |fd0] eqn:Eo;
      rewrite ?app_nil_r.
    1-4: split; [exact IHn|]; intros fd Hfd;
      destruct (IHs fd Hfd) as (H1 & H2 & H3);
      rewrite in_app_iff, elem_of_union; auto.
    apply processDeal_accepted in Eo as (Hnew & _ & r & _ & _ & Hd & _).
    split.
    + rewrite fmap_app. apply NoDup_app. split; [exact IHn|]. split.
      * intros h Hh Hk. apply list_elem_of_In in Hk. destruct Hk as [Hk|[]].
        apply list_elem_of_In, in_map_iff in Hh as (fd & Hfd & Hin).
        destruct (IHs fd Hin) as (_ & _ & H3).
        apply Hnew. rewrite <- Hd. cbn in Hk, Hfd. rewrite Hk, <- Hfd. exact H3.
      * cbn. apply NoDup_singleton.
    + intros fd [Hfd|[<-|[]]]%in_app_iff.
      * destruct (IHs fd Hfd) as (H1 & H2 & H3).
        rewrite in_app_iff, elem_of_union. auto.
      * rewrite Hd, in_app_iff, elem_of_union, elem_of_singleton.
        repeat split; [right; left; reflexivity| |auto].
        intros H0. apply Hnew. apply run_seen_initial, H0.
Qed.

End Loop.

End Filtering.

(** ** Sorting and truncation *)

Section SortSlice.
Import DealFilteringService.

Lemma insertSorted_perm {A : Type} (cmp : A -> A -> Q) (x : A) (l : list A) :
  Permutation (insertSorted cmp x l) (x :: l).
Proof.
  induction l as [|y l IH]; cbn; [reflexivity|].
  destruct (JS.leb (cmp x y) 0); [reflexivity|].
  rewrite IH. apply perm_swap.
Qed.

Lemma sort_perm {A : Type} (cmp : A -> A -> Q) (l : list A) :
  Permutation (sort cmp l) l.
Proof.
  induction l as [|x l IH]; cbn; [reflexivity|].
  rewrite insertSorted_perm. constructor. exact IH.
Qed.




Lemma take_sorted {A : Type} (R : A -> A -> Prop) (k : nat) (l : list A) :
  StronglySorted R l -> StronglySorted R (take k l).
Proof.
  intros H. revert k. induction H as [|x l Hs IH Hx]; intros [|k]; cbn;
    try constructor; [apply IH|].
  apply Forall_forall. intros y Hy. rewrite Forall_forall in Hx. apply Hx.
  rewrite <- (take_drop k l). apply elem_of_app. auto.
Qed.

Lemma slice0_take {A : Type} (l : list A) (e : Q) :
  exists k, slice0 l e = take k l.
Proof. unfold slice0. eauto. Qed.

Lemma slice0_in {A : Type} (l : list A) (e : Q) (x : A) :
  In x (slice0 l e) -> In x l.
Proof.
  destruct (slice0_take l e) as [k ->]. intros H.
  rewrite <- (take_drop k l). apply in_or_app. auto.
Qed.

Lemma truncate_nonneg (e : Q) : 0 <= e -> truncate e = Qfloor e.
Proof. intros H. unfold truncate. apply ltb_ge in H. rewrite H. reflexivity. Qed.

(** At most [maxResults] elements, for a bound that is not negative. *)
Lemma slice0_length {A : Type} (l : list A) (e : Q) :
  0 <= e -> inject_Z (Z.of_nat (length (slice0 l e))) <= e.
Proof.
  intros He. unfold slice0. rewrite (truncate_nonneg e He).
  assert (H0 : (0 <= Qfloor e)%Z).
  { change 0%Z with (Qfloor 0). apply Qfloor_resp_le, He. }
  destruct (Z.ltb_spec (Qfloor e) 0) as [Hneg|_]; [lia|].
  rewrite length_take.
  apply Qle_trans with (inject_Z (Qfloor e)); [|apply Qfloor_le].
  rewrite <- Zle_Qle. lia.
Qed.

(** Nothing is cut when the bound is at least the length. *)
Lemma slice0_all {A : Type} (l : list A) (e : Q) :
  inject_Z (Z.of_nat (length l)) <= e -> slice0 l e = l.
Proof.
  intros He. unfold slice0.
  assert (H0 : 0 <= e).
  { apply Qle_trans with (inject_Z (Z.of_nat (length l))); [|exact He].
    rewrite <- (Zle_Qle 0). lia. }
  rewrite (truncate_nonneg e H0).
  assert (Hl : (Z.of_nat (length l) <= Qfloor e)%Z).
  { rewrite <- (Qfloor_Z (Z.of_nat (length l))). apply Qfloor_resp_le, He. }
  destruct (Z.ltb_spec (Qfloor e) 0) as [Hneg|_]; [lia|].
  apply take_ge. lia.
Qed.

End SortSlice.

(** ** Acceptance, ordering and truncation *)

Section FilterDeals.
Import DealFilteringService.
Context {rt : JSRuntime}.

(** The list returned holds accepted deals only. *)
Lemma filterDeals_in (ai : Providers) (seen0 : gset string)
    (deals : list Deal) (minD minC maxR : Q) (fd : FilteredDeal) :
  In fd (filterDeals ai seen0 deals minD minC maxR).1 ->
  In fd (filteredDeals (runLoop ai minD minC seen0 deals)).
Proof.
  unfold filterDeals. cbn [fst]. intros H. apply slice0_in in H.
  eapply Permutation_in; [apply sort_perm|exact H].
Qed.


(** C2, as amended.  A deal whose actual discount is below 50 is dropped
    at the math gate, or as a duplicate, before any AI service is asked,
    whatever glitch probability it would get: it is in no result of
    [filterDeals].  The glitch path is open from 50 upwards: a new deal with
    an actual discount of at least 50, below the caller's minimum or not,
    whose verdict has a glitch probability of at least 70 and whose score
    reaches the minimum confidence, is accepted. *)
Theorem below_50_dropped (d : Deal) :
  actualDiscount (validateDiscountMath d) < 50 ->
  (forall ai minD minC seenDeals n,
     (processDeal ai minD minC seenDeals n d).2 = Duplicate \/
     (processDeal ai minD minC seenDeals n d).2 = MathInvalid) /\
  (forall ai seen0 deals minD minC maxR fd,
     In fd (filterDeals ai seen0 deals minD minC maxR).1 -> deal fd <> d) /\
  (forall ai minD minC seenDeals n d' r,
     generateDealHash d' ∉ seenDeals ->
     50 <= actualDiscount (validateDiscountMath d') ->
     analyzeWithAI ai n d' = Some r ->
     70 <= PricingAnalysisResult.pricingGlitchProbability r ->
     minC <= calculateOverallScore (validateDiscountMath d') r
               (detectSuspiciousPricing d') ->
     exists fd, (processDeal ai minD minC seenDeals n d').2 = Accepted fd).
Proof.
  intros Hlow. split; [|split].
  - intros *. apply processDeal_below_50, Hlow.
  - intros ai seen0 deals minD minC maxR fd Hin Heq.
    apply filterDeals_in, run_filtered in Hin as (i & x & _ & Ho).
    apply processDeal_accepted in Ho as (_ & H50 & r & _ & _ & Hd & _).
    rewrite <- Hd, Heq in H50. lra.
  - intros ai minD minC seenDeals n d' r Hnew H50 Hr Hg Hc.
    eapply processDeal_accepts; eauto. split; auto.
Qed.

(** ** The identity hash and deduplication *)

Lemma generateDealHash_same (d1 d2 : Deal) :
  site d1 = site d2 ->
  currentPrice d1 == currentPrice d2 ->
  JS.trim (JS.toLowerCase (title d1)) = JS.trim (JS.toLowerCase (title d2)) ->
  generateDealHash d1 = generateDealHash d2.
Proof.
  intros Hs Hp Ht. unfold generateDealHash, dealKey, Value.printNumber.
  rewrite Hs, Ht, (Qred_complete _ _ Hp). reflexivity.
Qed.

(** C7.  Deals of the same site and current price whose titles are equal
    after lowercasing and trimming have the same hash.  A deal whose hash
    has been seen is skipped at once, and its hash stays seen.  The deals
    returned by a run have distinct hashes, none of which the service had
    seen before the run, and all of which, like the hash of every deal of
    the input, it has seen afterwards: so a later run on the same service
    returns no deal with the hash of a deal given to an earlier run. *)
Theorem dedup_spec :
  (forall d1 d2,
     site d1 = site d2 ->
     currentPrice d1 == currentPrice d2 ->
     JS.trim (JS.toLowerCase (title d1)) = JS.trim (JS.toLowerCase (title d2)) ->
     generateDealHash d1 = generateDealHash d2) /\
  (forall ai minD minC (seenDeals : gset string) n d,
     generateDealHash d ∈ seenDeals ->
     processDeal ai minD minC seenDeals n d = (seenDeals, Duplicate)) /\
  (forall ai (seen0 : gset string) deals minD minC maxR,
     let res := filterDeals ai seen0 deals minD minC maxR in
     NoDup ((fun fd => generateDealHash (deal fd)) <$> res.1) /\
     (forall fd, In fd res.1 ->
        In (deal fd) deals /\
        (generateDealHash (deal fd) ∉ seen0) /\
        (generateDealHash (deal fd) ∈ res.2)) /\
     seen0 ⊆ res.2 /\
     (forall d, In d deals -> generateDealHash d ∈ res.2)) /\
  (forall ai (seen0 : gset string) deals minD minC maxR
          ai' deals' minD' minC' maxR' d fd,
     let first := filterDeals ai seen0 deals minD minC maxR in
     let second := filterDeals ai' first.2 deals' minD' minC' maxR' in
     In d deals -> In fd second.1 ->
     generateDealHash (deal fd) <> generateDealHash d).
Proof.
  assert (Hrun : forall ai (seen0 : gset string) deals minD minC maxR,
     let res := filterDeals ai seen0 deals minD minC maxR in
     NoDup ((fun fd => generateDealHash (deal fd)) <$> res.1) /\
     (forall fd, In fd res.1 ->
        In (deal fd) deals /\
        (generateDealHash (deal fd) ∉ seen0) /\
        (generateDealHash (deal fd) ∈ res.2)) /\
     seen0 ⊆ res.2 /\
     (forall d, In d deals -> generateDealHash d ∈ res.2)).
  { intros ai seen0 deals minD minC maxR. cbv zeta. unfold filterDeals. cbn [fst snd].
    destruct (run_hashes ai minD minC seen0 deals) as [Hn Hs].
    split; [|split; [|split]].
    - destruct (slice0_take (sort compareFn
        (filteredDeals (runLoop ai minD minC seen0 deals))) maxR) as [k ->].
      rewrite fmap_take.
      assert (Hp : NoDup ((fun fd => generateDealHash (deal fd)) <$>
                    sort compareFn (filteredDeals (runLoop ai minD minC seen0 deals)))).
      { rewrite sort_perm. exact Hn. }
      rewrite <- (take_drop k) in Hp. apply NoDup_app in Hp. apply Hp.
    - intros fd Hfd. apply Hs. apply slice0_in in Hfd.
      eapply Permutation_in; [apply sort_perm|exact Hfd].
    - apply run_seen_initial.
    - apply run_seen_input. }
  split; [exact generateDealHash_same|].
  split; [intros *; apply processDeal_duplicate|].
  split; [exact Hrun|].
  intros ai seen0 deals minD minC maxR ai' deals' minD' minC' maxR' d fd.
  cbv zeta. intros Hd Hfd Heq.
  destruct (Hrun ai seen0 deals minD minC maxR) as (_ & _ & _ & H1).
  destruct (Hrun ai' (filterDeals ai seen0 deals minD minC maxR).2
              deals' minD' minC' maxR') as (_ & H2 & _).
  destruct (H2 fd Hfd) as (_ & Hnew & _). apply Hnew. rewrite Heq. apply H1, Hd.
Qed.

End FilterDeals.

Section FilterDealsExamples.
Import Demo DealFilteringService.


(** C2, as stated, fails.  The deal at 49 per cent off, for which both
    the verdict (glitch probability 75) and the score it would get (90, for
    a minimum confidence of 60) meet the glitch path, is dropped at the math
    gate: the result is empty. *)
Lemma glitch_below_50_rejected :
  let ai := answering glitchVerdict in
  actualDiscount (validateDiscountMath fortyNine) == 49 /\
  (exists r, analyzeWithAI ai 1 fortyNine = Some r /\
     PricingAnalysisResult.pricingGlitchProbability r == 75 /\
     60 <= calculateOverallScore (validateDiscountMath fortyNine) r
             (detectSuspiciousPricing fortyNine)) /\
  (processDeal ai 50 60 ∅ 1 fortyNine).2 = MathInvalid /\
  (filterDeals ai ∅ [fortyNine] 50 60 50).1 = [].
Proof.
  cbv zeta. split; [vm_compute; reflexivity|].
  split.
  - eexists. split; [vm_compute; reflexivity|].
    split; vm_compute; [reflexivity|discriminate].
  - split; vm_compute; reflexivity.
Qed.

(** The deal at 49 per cent off is in no result. *)
Lemma below_50_dropped_witness :
  actualDiscount (validateDiscountMath fortyNine) < 50 /\
  forall fd,
    In fd (filterDeals (answering glitchVerdict) ∅ [fortyNine] 50 60 50).1 ->
    deal fd <> fortyNine.
Proof.
  assert (H : actualDiscount (validateDiscountMath fortyNine) < 50)
    by (vm_compute; reflexivity).
  split; [exact H|].
  exact (proj1 (proj2 (below_50_dropped fortyNine H))
           (answering glitchVerdict) ∅ [fortyNine] 50 60 50).
Defined.

(** One product under two spellings of its title and of its price. *)
Lemma dedup_spec_witness :
  site kettle = site shout /\
  currentPrice kettle == currentPrice shout /\
  title kettle <> title shout /\
  generateDealHash kettle = generateDealHash shout.
Proof.
  assert (Hs : site kettle = site shout) by reflexivity.
  assert (Hp : currentPrice kettle == currentPrice shout) by reflexivity.
  assert (Ht : JS.trim (JS.toLowerCase (title kettle))
               = JS.trim (JS.toLowerCase (title shout))) by reflexivity.
  split; [exact Hs|]. split; [exact Hp|]. split; [discriminate|].
  exact (proj1 dedup_spec kettle shout Hs Hp Ht).
Defined.

End FilterDealsExamples.

Section Collision.
Import DealFilteringService.

(** The first [4 * n] characters of the base64 text are read off the first
    [3 * n] bytes. *)
Lemma base64_prefix (n : nat) (bs1 bs2 : list Z) :
  take (n * 3) bs1 = take (n * 3) bs2 ->
  String.substring 0 (n * 4) (Buffer.base64 bs1)
  = String.substring 0 (n * 4) (Buffer.base64 bs2).
Proof.
  revert bs1 bs2. induction n as [|n IH]; intros bs1 bs2 H.
  - cbn. destruct (Buffer.base64 bs1), (Buffer.base64 bs2); reflexivity.
  - destruct bs1 as [|a1 [|b1 [|c1 r1]]]; destruct bs2 as [|a2 [|b2 [|c2 r2]]];
      cbn in H; simplify_eq; try reflexivity.
    cbn [Nat.mul Nat.add Buffer.base64 String.substring].
    erewrite IH; [reflexivity|assumption].
Qed.

(** The hash reads nothing of the key beyond its first 24 bytes. *)
Lemma hash_reads_24_bytes {rt : JSRuntime} (d1 d2 : Deal) :
  take 24 (Buffer.from (dealKey d1)) = take 24 (Buffer.from (dealKey d2)) ->
  generateDealHash d1 = generateDealHash d2.
Proof. apply (base64_prefix 8). Qed.

(** C10.  The hash is the first 32 characters of the base64 text of the
    key, that is its first 24 bytes: deals whose keys agree on these have
    the same hash.  A telephone and a case for it, sold by the same site at
    different prices under titles that differ from the 25th character on,
    have keys that agree on their first 24 bytes (the name of the site, a
    dash and the first 17 characters of the title) and so the same hash, on
    every runtime; in a run on the two of them the second is skipped as a
    duplicate, and no deal returned is the second one. *)
Theorem hash_collision :
  (forall (rt : JSRuntime) d1 d2,
     take 24 (Buffer.from (dealKey d1)) = take 24 (Buffer.from (dealKey d2)) ->
     generateDealHash d1 = generateDealHash d2) /\
  exists d1 d2,
    JS.trim (JS.toLowerCase (title d1)) <> JS.trim (JS.toLowerCase (title d2)) /\
    ~ currentPrice d1 == currentPrice d2 /\
    forall rt : JSRuntime,
      generateDealHash d1 = generateDealHash d2 /\
      forall ai (seen0 : gset string) minD minC maxR,
        (processDeal ai minD minC
           (seen (runLoop ai minD minC seen0 [d1])) 2 d2).2 = Duplicate /\
        forall fd, In fd (filterDeals ai seen0 [d1; d2] minD minC maxR).1 ->
          deal fd <> d2.
Proof.
  split; [intros rt; apply hash_reads_24_bytes|].
  exists Demo.phone, Demo.phoneCase.
  split; [vm_compute; discriminate|].
  split; [vm_compute; discriminate|].
  intros rt.
  assert (Hh : generateDealHash Demo.phone = generateDealHash Demo.phoneCase)
    by (apply hash_reads_24_bytes; reflexivity).
  split; [exact Hh|].
  intros ai seen0 minD minC maxR.
  assert (Hdup : forall n,
    processDeal ai minD minC (seen (runLoop ai minD minC seen0 [Demo.phone]))
      n Demo.phoneCase
    = (seen (runLoop ai minD minC seen0 [Demo.phone]), Duplicate)).
  { intros n. apply processDeal_duplicate. rewrite <- Hh.
    apply run_seen_input. left. reflexivity. }
  split; [rewrite Hdup; reflexivity|].
  intros fd Hin Heq.
  apply filterDeals_in, run_filtered in Hin as (i & x & Hi & Ho).
  destruct i as [|[|i]]; cbn in Hi; try discriminate; injection Hi as <-.
  - apply processDeal_accepted in Ho as (_ & _ & r & _ & _ & Hd & _).
    rewrite Hd in Heq. discriminate Heq.
  - cbn [take] in Ho. rewrite Hdup in Ho. discriminate Ho.
Qed.

End Collision.

(** ** Parsing of an AI response *)

Section ParseAIResponse.
Import RegExp DealFilteringService Value.
Context {rt : JSRuntime}.

Lemma append_cons (a : ascii) (x y : string) :
  String a x +:+ y = String a (x +:+ y).
Proof. reflexivity. Qed.

Lemma append_nil (y : string) : EmptyString +:+ y = y.
Proof. reflexivity. Qed.

Lemma length_append (x y : string) :
  String.length (x +:+ y) = (String.length x + String.length y)%nat.
Proof. induction x as [|a x IH]; simpl; [reflexivity|]. rewrite IH. reflexivity. Qed.

Lemma substring_prefix (x y : string) :
  String.substring 0 (String.length x) (x +:+ y) = x.
Proof.
  induction x as [|a x IH]; simpl.
  - destruct y; reflexivity.
  - rewrite IH. reflexivity.
Qed.

Lemma consumed_prefix (x y : string) : consumed (x +:+ y) y = x.
Proof.
  unfold consumed. rewrite length_append.
  replace (String.length x + String.length y - String.length y)%nat
    with (String.length x) by lia.
  apply substring_prefix.
Qed.

Lemma append_assoc (x y z : string) : (x +:+ y) +:+ z = x +:+ (y +:+ z).
Proof.
  induction x as [|a x IH]; [reflexivity|].
  rewrite !append_cons, IH. reflexivity.
Qed.

(** The greedy star over all characters, in closed form. *)
Lemma star_anyChar (fuel : nat) (s : string) (c : captures) (k : continuation) :
  (String.length s < fuel)%nat ->
  repeatMatcher (matchR anyChar) [] fuel 0 None s c k = shortestSuffix k s c.
Proof.
  revert fuel c. induction s as [|a s IH]; intros fuel c Hf;
    (destruct fuel as [|fuel]; [cbn in Hf; lia|]).
  - reflexivity.
  - cbn [repeatMatcher matchR anyChar clearGroups foldr shortestSuffix].
    replace (Nat.eqb (String.length s) (String.length (String a s))) with false.
    + cbn [andb Nat.eqb pred fmap option_fmap option_map].
      rewrite IH by (cbn in Hf; lia). reflexivity.
    + symmetry. apply Nat.eqb_neq. cbn. lia.
Qed.

Lemma shortestSuffix_none (k : continuation) (s : string) (c : captures) :
  Spec.occurs "}" s = false -> shortestSuffix (closing k) s c = None.
Proof.
  induction s as [|a s IH]; cbn; [reflexivity|].
  intros H. apply orb_false_iff in H as [Ha Hs].
  rewrite (IH Hs). unfold lit. rewrite Ha. reflexivity.
Qed.

Lemma shortestSuffix_last (k : continuation) (mid post : string) (c : captures) :
  Spec.occurs "}" post = false ->
  (forall s' c', k s' c' <> None) ->
  shortestSuffix (closing k) (mid +:+ String "}" post) c = k post c.
Proof.
  intros Hpost Hk. induction mid as [|a mid IH].
  - rewrite append_nil. cbn.
    rewrite (shortestSuffix_none k post c Hpost). reflexivity.
  - rewrite append_cons. cbn [shortestSuffix]. rewrite IH.
    destruct (k post c) eqn:E; [reflexivity|]. destruct (Hk _ _ E).
Qed.

(** Every text either has no closing brace, or splits at its last one. *)
Lemma last_closing (s : string) :
  Spec.occurs "}" s = false \/
  exists mid post, s = mid +:+ String "}" post /\ Spec.occurs "}" post = false.
Proof.
  induction s as [|a s [IH|(mid & post & -> & Hp)]].
  - left. reflexivity.
  - destruct (JS.isChar "}" a) eqn:E.
    + right. exists EmptyString, s. apply Ascii.eqb_eq in E. subst a. auto.
    + left. cbn [Spec.occurs]. rewrite E. exact IH.
  - right. exists (String a mid), post. auto.
Qed.

Lemma jsonRe_at (s : string) (c : captures) (k : continuation) :
  matchR jsonRe s c k =
  match s with
  | String a s' => if JS.isChar "{" a then shortestSuffix (closing k) s' c else None
  | EmptyString => None
  end.
Proof.
  destruct s as [|a s']; [reflexivity|].
  cbn [jsonRe matchR lit star]. destruct (JS.isChar "{" a); [|reflexivity].
  fold anyChar. cbn [groupsOf anyChar]. rewrite star_anyChar by lia. reflexivity.
Qed.

Lemma exec_jsonRe_none (s : string) :
  Spec.occurs "}" s = false -> exec jsonRe 0 s = None.
Proof.
  induction s as [|a s IH]; intros H.
  - reflexivity.
  - cbn [exec]. rewrite jsonRe_at.
    cbn in H. apply orb_false_iff in H as [_ Hs].
    rewrite shortestSuffix_none by exact Hs.
    destruct (JS.isChar "{" a); apply IH, Hs.
Qed.

(** The match of [jsonRe]: from the first opening brace to the last
    closing brace. *)
Lemma exec_jsonRe_some (pre mid post : string) :
  Spec.occurs "{" pre = false ->
  Spec.occurs "}" post = false ->
  exec jsonRe 0 (pre +:+ String "{" (mid +:+ String "}" post))
  = Some [Some (String "{" (mid +:+ "}"))].
Proof.
  intros Hpre Hpost. induction pre as [|a pre IH].
  - rewrite append_nil. cbn [exec]. rewrite jsonRe_at.
    change (JS.isChar "{" "{") with true. cbn iota.
    rewrite shortestSuffix_last; [|exact Hpost|discriminate].
    cbn [replicate]. do 3 f_equal.
    change (String "{" (mid +:+ String "}" post))
      with ((String "{" mid) +:+ ("}" +:+ post)).
    rewrite <- append_assoc. rewrite consumed_prefix. reflexivity.
  - cbn [Spec.occurs] in Hpre. apply orb_false_iff in Hpre as [Ha Hpre].
    rewrite append_cons. cbn [exec]. rewrite jsonRe_at, Ha. apply IH, Hpre.
Qed.

(** A text without a match has no opening brace followed by a closing
    one. *)
Lemma exec_jsonRe_cases (s : string) :
  exec jsonRe 0 s = None \/
  exists pre mid post,
    s = pre +:+ String "{" (mid +:+ String "}" post) /\
    Spec.occurs "{" pre = false /\ Spec.occurs "}" post = false.
Proof.
  induction s as [|a s IH]; [left; reflexivity|].
  destruct (JS.isChar "{" a) eqn:Ea.
  - apply Ascii.eqb_eq in Ea. subst a.
    destruct (last_closing s) as [Hn|(mid & post & -> & Hp)].
    + left. cbn [exec]. rewrite jsonRe_at.
      change (JS.isChar "{" "{") with true. cbn iota.
      rewrite shortestSuffix_none by exact Hn. apply exec_jsonRe_none, Hn.
    + right. exists EmptyString, mid, post. auto.
  - destruct IH as [IH|(pre & mid & post & -> & Hpre & Hpost)].
    + left. cbn [exec]. rewrite jsonRe_at, Ea. exact IH.
    + right. exists (String a pre), mid, post. cbn [Spec.occurs]. rewrite Ea. auto.
Qed.

Lemma extractJson_braces (pre mid post : string) :
  Spec.occurs "{" pre = false ->
  Spec.occurs "}" post = false ->
  extractJson (pre +:+ String "{" (mid +:+ String "}" post))
  = String "{" (mid +:+ "}").
Proof.
  intros Hpre Hpost. unfold extractJson.
  rewrite exec_jsonRe_some by assumption. reflexivity.
Qed.

Lemma extractJson_whole (text : string) :
  (forall pre mid post, text <> pre +:+ String "{" (mid +:+ String "}" post)) ->
  extractJson text = text.
Proof.
  intros H. unfold extractJson.
  destruct (exec_jsonRe_cases text) as [->|(pre & mid & post & E & _)];
    [reflexivity|].
  destruct (H _ _ _ E).
Qed.

Lemma clamp_range (n : ExtNumber) : 0 <= clamp 0 100 n <= 100.
Proof.
  destruct n as [q| |]; cbn [clamp].
  - apply clamp_bounds. lra.
  - change (0 <= 100 <= 100). lra.
  - lra.
Qed.

Lemma clamp_finite (q : Q) : clamp 0 100 (Finite q) == Spec.clamp100 q.
Proof. cbn [clamp]. unfold Spec.clamp100. rewrite max_Qmax, min_Qmin. reflexivity. Qed.

End ParseAIResponse.

Section ParseAIResponseSpec.
Import RegExp DealFilteringService Value.
Context {rt : JSRuntime}.

(** Induction on a value, through its arrays. *)
Lemma JSON_array_ind (P : JSON -> Prop) :
  P JNull -> (forall b, P (JBool b)) -> (forall n, P (JNumber n)) ->
  (forall s, P (JString s)) ->
  (forall l, Forall P l -> P (JArray l)) ->
  (forall o, P (JObject o)) ->
  forall v, P v.
Proof.
  intros Hnull Hbool Hnum Hstr Harr Hobj. fix IH 1.
  intros [|b|n|s|l|o];
    [apply Hnull|apply Hbool|apply Hnum|apply Hstr| |apply Hobj].
  apply Harr. induction l as [|x l IHl]; constructor; [apply IH|exact IHl].
Qed.

Lemma toString_cons (x : JSON) (l : list JSON) :
  toString (JArray (x :: l))
  = match (match x with JNull => Some EmptyString | _ => toString x end) with
    | None => None
    | Some e =>
        match l with
        | [] => Some e
        | _ =>
            match toString (JArray l) with
            | None => None
            | Some r => Some (e +:+ "," +:+ r)
            end
        end
    end.
Proof. reflexivity. Qed.

(** The conversion to a string throws on the values without a conversion,
    and on no other. *)
Lemma toString_none (v : JSON) :
  toString v = None <-> Spec.unconvertible v = true.
Proof.
  induction v as [|b|n|s|l IH|o] using JSON_array_ind;
    try (split; discriminate).
  - change (Spec.unconvertible (JArray l)) with (existsb Spec.unconvertible l).
    induction IH as [|x l Hx _ IHl]; [split; discriminate|].
    rewrite toString_cons. cbn [existsb]. rewrite orb_true_iff, <- IHl, <- Hx.
    clear. destruct l as [|y l].
    + change (toString (JArray [])) with (Some EmptyString).
      destruct x; cbv iota;
        [cbn|cbn|cbn|cbn|destruct (toString _)|destruct (toString _)];
        intuition congruence.
    + generalize (toString (JArray (y :: l))) as r. intros r.
      destruct x; cbv iota;
        [cbn|cbn|cbn|cbn|destruct (toString _)|destruct (toString _)];
        destruct r; intuition congruence.
  - cbn [toString Spec.unconvertible].
    destruct (bool_decide _); split; congruence.
Qed.

Lemma toNumber_none (v : option JSON) :
  toNumber v = None <-> exists x, v = Some x /\ Spec.unconvertible x = true.
Proof.
  destruct v as [x|]; [|split; [discriminate|intros (x & [=] & _)]].
  transitivity (Spec.unconvertible x = true);
    [|split; [eauto|intros (y & [= <-] & H); exact H]].
  rewrite <- toString_none.
  destruct x as [|b|n|s|l|o]; cbn [toNumber]; try (split; discriminate);
    destruct (toString _); split; discriminate || reflexivity.
Qed.

Lemma analysisText_none (v : option JSON) :
  analysisText v = None <-> exists x, v = Some x /\ Spec.unconvertible x = true.
Proof.
  destruct v as [x|]; [|split; [discriminate|intros (x & [=] & _)]].
  transitivity (Spec.unconvertible x = true);
    [|split; [eauto|intros (y & [= <-] & H); exact H]].
  rewrite <- toString_none. unfold analysisText. cbn [default].
  destruct (toBoolean (Some x)) eqn:E; [reflexivity|].
  destruct x as [|b|[]|s|l|o]; try discriminate; split; discriminate.
Qed.

(** C9, as amended.  [parseAIResponse] reads the text from its first
    opening brace to its last closing brace, whatever stands before and
    after, or the whole text when no opening brace is followed by a closing
    one, and gives it to [JSON.parse]; it throws exactly when [JSON.parse]
    throws on that text or returns [null], or when the confidence, the
    glitch probability or the analysis of the value parsed has no
    conversion: it is an object with a property [toString] of its own, or
    an array that holds such an object.  Otherwise its two numeric fields
    lie in [0, 100]: a field that is missing or not a number becomes 50
    (confidence) or 0 (glitch probability), a confidence that is a number
    other than zero and a glitch probability that is a number are clamped;
    the recommendation is the field when it is one of the three levels and
    MEDIUM otherwise; the suspicious factors are the field when it is an
    array and the empty list otherwise. *)
Theorem parseAIResponse_spec (text : string) :
  (forall pre mid post,
     text = pre +:+ String "{" (mid +:+ String "}" post) ->
     Spec.occurs "{" pre = false -> Spec.occurs "}" post = false ->
     extractJson text = String "{" (mid +:+ "}")) /\
  ((forall pre mid post, text <> pre +:+ String "{" (mid +:+ String "}" post)) ->
     extractJson text = text) /\
  (parseAIResponse text = None <->
     JSON_parse (extractJson text) = None \/
     JSON_parse (extractJson text) = Some JNull \/
     exists v x, JSON_parse (extractJson text) = Some v /\
       Spec.unconvertible x = true /\
       (prop v "confidenceScore" = Some x \/
        prop v "pricingGlitchProbability" = Some x \/
        prop v "analysis" = Some x)) /\
  (forall r, parseAIResponse text = Some r ->
     exists v, JSON_parse (extractJson text) = Some v /\
       0 <= PricingAnalysisResult.confidenceScore r <= 100 /\
       0 <= PricingAnalysisResult.pricingGlitchProbability r <= 100 /\
       (toNumber (prop v "confidenceScore") = Some None ->
          PricingAnalysisResult.confidenceScore r = 50) /\
       (toNumber (prop v "pricingGlitchProbability") = Some None ->
          PricingAnalysisResult.pricingGlitchProbability r = 0) /\
       (forall q, toNumber (prop v "confidenceScore") = Some (Some (Finite q)) ->
          ~ q == 0 -> PricingAnalysisResult.confidenceScore r == Spec.clamp100 q) /\
       (forall q,
          toNumber (prop v "pricingGlitchProbability") = Some (Some (Finite q)) ->
          PricingAnalysisResult.pricingGlitchProbability r == Spec.clamp100 q) /\
       (PricingAnalysisResult.recommendation r = HIGH <-> prop v "recommendation" = Some (JString "HIGH")) /\
       (PricingAnalysisResult.recommendation r = LOW <-> prop v "recommendation" = Some (JString "LOW")) /\
       (forall l, prop v "suspiciousFactors" = Some (JArray l) ->
          PricingAnalysisResult.suspiciousFactors r = l) /\
       ((forall l, prop v "suspiciousFactors" <> Some (JArray l)) ->
          PricingAnalysisResult.suspiciousFactors r = [])).
Proof.
  split; [intros pre mid post ->; apply extractJson_braces|].
  split; [apply extractJson_whole|].
  assert (Hsan : forall v, sanitize v = None <->
            exists x, Spec.unconvertible x = true /\
              (prop v "confidenceScore" = Some x \/
               prop v "pricingGlitchProbability" = Some x \/
               prop v "analysis" = Some x)).
  { intros v. unfold sanitize. cbv zeta. split.
    - destruct (toNumber (prop v "confidenceScore")) eqn:E1; cbn [mbind option_bind].
      2:{ intros _. apply toNumber_none in E1 as (x & E & Hx). eauto. }
      destruct (toNumber (prop v "pricingGlitchProbability")) eqn:E2;
        cbn [mbind option_bind].
      2:{ intros _. apply toNumber_none in E2 as (x & E & Hx). eauto 6. }
      destruct (analysisText (prop v "analysis")) eqn:E3; cbn [mbind option_bind];
        [discriminate|].
      intros _. apply analysisText_none in E3 as (x & E & Hx). eauto 6.
    - intros (x & Hx & [E|[E|E]]).
      + assert (toNumber (prop v "confidenceScore") = None) as ->
          by (apply toNumber_none; eauto). reflexivity.
      + assert (toNumber (prop v "pricingGlitchProbability") = None) as ->
          by (apply toNumber_none; eauto).
        destruct (toNumber _); reflexivity.
      + assert (analysisText (prop v "analysis") = None) as ->
          by (apply analysisText_none; eauto).
        do 2 (destruct (toNumber _); cbn [mbind option_bind]; try reflexivity). }
  unfold parseAIResponse. split.
  - destruct (JSON_parse (extractJson text)) as [v|]; [|split; auto].
    transitivity (v = JNull \/ sanitize v = None).
    + destruct v; split; auto; intros [H|H]; try discriminate; auto.
    + rewrite Hsan. split.
      * intros [->|(x & Hx & H)]; [auto|]. right. right. exists v, x. auto.
      * intros [H|[[= ->]|(v' & x & [= <-] & Hx & H)]]; [discriminate|auto|].
        right. exists x. auto.
  - intros r Hr.
    destruct (JSON_parse (extractJson text)) as [v|]; [|discriminate].
    exists v. split; [reflexivity|].
    assert (Hs : sanitize v = Some r) by (destruct v; congruence).
    clear Hr. unfold sanitize in Hs. cbv zeta in Hs.
    destruct (toNumber (prop v "confidenceScore")) as [c|];
      cbn [mbind option_bind] in Hs; [|discriminate].
    destruct (toNumber (prop v "pricingGlitchProbability")) as [g|];
      cbn [mbind option_bind] in Hs; [|discriminate].
    destruct (analysisText (prop v "analysis")) as [a|];
      cbn [mbind option_bind] in Hs; [|discriminate].
    injection Hs as <-.
    cbn [PricingAnalysisResult.confidenceScore PricingAnalysisResult.pricingGlitchProbability
      PricingAnalysisResult.recommendation PricingAnalysisResult.suspiciousFactors].
    split; [apply clamp_range|]. split; [apply clamp_range|].
    split; [intros [= ->]; reflexivity|]. split; [intros [= ->]; reflexivity|].
    split.
    { intros q [= ->] Hq. cbn [numberOr].
      apply eqb_neq in Hq. rewrite Hq. apply clamp_finite. }
    split.
    { intros q [= ->]. cbn [numberOr]. destruct (JS.eqb q 0) eqn:E.
      - apply eqb_eq in E. rewrite clamp_finite.
        unfold Spec.clamp100. rewrite E. reflexivity.
      - apply clamp_finite. }
    split; [|split; [|split]].
    + unfold parseRecommendation.
      destruct (prop v "recommendation") as [[| | |s| |]|]; try (split; discriminate).
      destruct (String.eqb_spec s "HIGH") as [->|Hn]; [split; reflexivity|].
      split; [|congruence].
      destruct (String.eqb s "LOW"); discriminate.
    + unfold parseRecommendation.
      destruct (prop v "recommendation") as [[| | |s| |]|]; try (split; discriminate).
      destruct (String.eqb_spec s "HIGH") as [->|Hn]; [split; discriminate|].
      destruct (String.eqb_spec s "LOW") as [->|Hl]; [split; reflexivity|].
      split; [discriminate|congruence].
    + intros l ->. reflexivity.
    + intros H. destruct (prop v "suspiciousFactors") as [[| | | |l|]|];
        try reflexivity. destruct (H l eq_refl).
Qed.

End ParseAIResponseSpec.

Section ParseAIResponseExamples.
Import Demo DealFilteringService.

(** C9, as stated, fails.  In a reply with two objects in its prose the
    first balanced object is a JSON text that can be parsed, but the text
    read is the one from the first opening brace to the last closing brace,
    which [JSON.parse] rejects: [parseAIResponse] throws. *)
Lemma greedy_extraction_throws :
  Spec.firstBalancedObject twoObjects = Some (text "{'confidenceScore': 80}") /\
  JSON_parse (text "{'confidenceScore': 80}")
    = Some (JObject {[ "confidenceScore" := JNumber (Finite 80) ]}) /\
  extractJson twoObjects
    = text "{'confidenceScore': 80} as JSON, with {'pricingGlitchProbability': 5}" /\
  JSON_parse (extractJson twoObjects) = None /\
  parseAIResponse twoObjects = None.
Proof. repeat split; vm_compute; reflexivity. Qed.

(** Surrounding prose is tolerated, fields out of range are clamped, and
    fields that are missing get their defaults. *)
Example parse_partial_response :
  parseAIResponse (text "Sure. {'confidenceScore': 180, 'recommendation': 'BUY'} Bye.")
  = Some {| PricingAnalysisResult.isLegitimate := false; PricingAnalysisResult.confidenceScore := 100;
            PricingAnalysisResult.pricingGlitchProbability := 0;
            PricingAnalysisResult.analysis := "No analysis provided";
            PricingAnalysisResult.suspiciousFactors := []; PricingAnalysisResult.recommendation := MEDIUM |}.
Proof. vm_compute. reflexivity. Qed.

(** A field without a conversion makes the call throw, although the
    object is parsed. *)
Example conversion_throws :
  JSON_parse (text "{'confidenceScore': {'toString': 1}}")
    = Some (JObject {[ "confidenceScore" :=
                         JObject {[ "toString" := JNumber (Finite 1) ]} ]}) /\
  parseAIResponse (text "{'confidenceScore': {'toString': 1}}") = None /\
  parseAIResponse (text "{'analysis': [[{'toString': null}]]}") = None /\
  (PricingAnalysisResult.confidenceScore
     <$> parseAIResponse (text "{'confidenceScore': {'valueOf': 1}}")) = Some 50.
Proof. repeat split; vm_compute; reflexivity. Qed.

End ParseAIResponseExamples.

(** * Retry with backoff *)

Section RetryProps.
Import Retry.
Context {T : Type}.
Variable operation : nat -> T + string.
Variables (maxRetries : nat) (baseDelay : Q).

(** The trace of [n] failed attempts from [a] on. *)
Local Abbreviation failedAttempts a n :=
  (flat_map
     (fun i => Attempt i
               :: (if (i <? maxRetries)%nat then [Sleep (delay baseDelay i)] else []))
     (seq a n)).

Local Abbreviation fails := (Retry.fails operation).
Local Abbreviation backoff := (Retry.backoff baseDelay).
Local Abbreviation retry := (retryWithBackoff operation maxRetries baseDelay).

Lemma loop_success (k : nat) (v : T) :
  forall remaining a lastError,
    (k < remaining)%nat ->
    (forall i, (a <= i < a + k)%nat -> fails i) ->
    operation (a + k)%nat = inl v ->
    loop operation maxRetries baseDelay remaining a lastError
      = (inl v, failedAttempts a k ++ [Attempt (a + k)%nat]).
Proof.
  induction k as [|k IH]; intros remaining a lastError Hk Hfail Hv.
  - destruct remaining as [|r]; [lia|]. cbn [loop].
    rewrite Nat.add_0_r in Hv. rewrite Hv. rewrite Nat.add_0_r. reflexivity.
  - destruct remaining as [|r]; [lia|]. cbn [loop].
    pose proof (Hfail a ltac:(lia)) as Ha. unfold fails in Ha.
    destruct (operation a) as [?|e] eqn:Hop; [contradiction|].
    rewrite (IH r (S a) e); [|lia| |].
    + cbn [seq flat_map].
      rewrite <- app_assoc. cbn [app].
      replace (S a + k)%nat with (a + S k)%nat by lia. reflexivity.
    + intros i Hi. apply Hfail. lia.
    + replace (S a + k)%nat with (a + S k)%nat by lia. exact Hv.
Qed.

Lemma loop_exhausted :
  forall remaining a lastError,
    (forall i, (a <= i < a + remaining)%nat -> fails i) ->
    loop operation maxRetries baseDelay remaining a lastError
      = (inr (match remaining with
              | O => lastError
              | S r => match operation (a + r)%nat with
                       | inr e => e
                       | inl _ => lastError
                       end
              end),
         failedAttempts a remaining).
Proof.
  induction remaining as [|r IH]; intros a lastError Hfail.
  - reflexivity.
  - cbn [loop].
    pose proof (Hfail a ltac:(lia)) as Ha. unfold fails in Ha.
    destruct (operation a) as [?|e] eqn:Hop; [contradiction|].
    rewrite (IH (S a) e) by (intros i Hi; apply Hfail; lia).
    cbn [seq flat_map app].
    destruct r as [|r'].
    + rewrite Nat.add_0_r, Hop. reflexivity.
    + replace (S a + r')%nat with (a + S r')%nat by lia.
      pose proof (Hfail (a + S r')%nat ltac:(lia)) as Hl. unfold fails in Hl.
      destruct (operation (a + S r')%nat); [contradiction|reflexivity].
Qed.

Lemma failedAttempts_backoff (n a : nat) :
  (a + n <= maxRetries)%nat -> failedAttempts a n = backoff a n.
Proof.
  revert a. induction n as [|n IH]; intros a Hn; [reflexivity|].
  unfold Retry.backoff in *. cbn [seq flat_map].
  rewrite IH by lia.
  destruct (Nat.ltb_spec a maxRetries); [reflexivity|lia].
Qed.

Lemma slept_app (l1 l2 : list Effect) :
  slept (l1 ++ l2) == slept l1 + slept l2.
Proof.
  induction l1 as [|[n|ms] l1 IH]; cbn [app slept]; rewrite ?IH; ring.
Qed.

Lemma attempts_app (l1 l2 : list Effect) :
  attempts (l1 ++ l2) = attempts l1 ++ attempts l2.
Proof.
  induction l1 as [|[n|ms] l1 IH]; cbn [app attempts]; rewrite ?IH; reflexivity.
Qed.

Lemma inject_pow2_succ (n : nat) :
  inject_Z (2 ^ Z.of_nat (S n)) == 2 * inject_Z (2 ^ Z.of_nat n).
Proof.
  rewrite Nat2Z.inj_succ, Z.pow_succ_r by lia.
  rewrite inject_Z_mult. reflexivity.
Qed.

(** The sleeps double: together they last [baseDelay * (2^n - 1)]. *)
Lemma slept_backoff (n : nat) :
  slept (backoff 1 n) == baseDelay * (inject_Z (2 ^ Z.of_nat n) - 1).
Proof.
  induction n as [|n IH].
  - change (0 == baseDelay * (1 - 1)). ring.
  - unfold Retry.backoff in *. rewrite seq_S, flat_map_app, slept_app, IH.
    cbn [flat_map app slept Nat.add]. unfold delay.
    replace (S n - 1)%nat with n by lia.
    rewrite inject_pow2_succ. ring.
Qed.

Lemma attempts_backoff (a n : nat) : attempts (backoff a n) = seq a n.
Proof.
  revert a. induction n as [|n IH]; intros a; [reflexivity|].
  unfold Retry.backoff in *. cbn [seq flat_map app attempts]. rewrite IH. reflexivity.
Qed.

(** X1.  [retryWithBackoff] returns the value of the first attempt that
    succeeds, when there is one among the first [maxRetries]: if attempts
    [1..k-1] throw and attempt [k <= maxRetries] returns [v], the call returns
    [v]; the operation has been called exactly [k] times, with a sleep of
    [baseDelay * 2^(i-1)] after the failed attempt [i], [baseDelay * (2^(k-1) - 1)]
    in all, and nothing happens after the success. *)
Theorem retry_first_success (k : nat) (v : T) :
  (1 <= k <= maxRetries)%nat ->
  (forall i, (1 <= i < k)%nat -> fails i) ->
  operation k = inl v ->
  retry.1 = inl v /\
  retry.2 = backoff 1 (k - 1) ++ [Attempt k] /\
  attempts retry.2 = seq 1 k /\
  slept retry.2 == baseDelay * (inject_Z (2 ^ Z.of_nat (k - 1)) - 1).
Proof.
  intros Hk Hfail Hv. unfold retryWithBackoff.
  rewrite (loop_success (k - 1) v). cbn [fst snd].
  - replace (1 + (k - 1))%nat with k by lia.
    rewrite failedAttempts_backoff by lia.
    split; [reflexivity|]. split; [reflexivity|]. split.
    + rewrite attempts_app, attempts_backoff. cbn [attempts].
      replace k with (S (k - 1)) at 2 3 by lia.
      rewrite seq_S. replace (1 + (k - 1))%nat with k by lia.
      replace (S (k - 1)) with k by lia. reflexivity.
    + rewrite slept_app, slept_backoff. cbn [slept]. ring.
  - lia.
  - intros i Hi. apply Hfail. lia.
  - replace (1 + (k - 1))%nat with k by lia. exact Hv.
Qed.

(** X2.  When every one of the [maxRetries] attempts throws,
    [retryWithBackoff] throws the error of the last attempt (the error
    'Operation failed' of its own when [maxRetries] is 0, without calling the
    operation); it has called the operation [maxRetries] times and slept
    after each failure but the last, [baseDelay * (2^(maxRetries-1) - 1)] in
    all. *)
Theorem retry_exhausted :
  (forall i, (1 <= i <= maxRetries)%nat -> fails i) ->
  retry.1 = inr (match operation maxRetries with
                 | inr e => if (maxRetries =? 0)%nat then "Operation failed" else e
                 | inl _ => "Operation failed"
                 end) /\
  retry.2 = match maxRetries with
            | O => []
            | S n => backoff 1 n ++ [Attempt maxRetries]
            end /\
  attempts retry.2 = seq 1 maxRetries /\
  slept retry.2 == baseDelay * (inject_Z (2 ^ Z.of_nat (maxRetries - 1)) - 1).
Proof.
  intros Hfail. unfold retryWithBackoff.
  rewrite loop_exhausted by (intros i Hi; apply Hfail; lia).
  unfold fst, snd.
  destruct maxRetries as [|n] eqn:Hn.
  - split; [|split; [|split]].
    + destruct (operation 0%nat); reflexivity.
    + reflexivity.
    + reflexivity.
    + change (0 == baseDelay * (1 - 1)). ring.
  - replace (1 + n)%nat with (S n) by lia.
    assert (Heff : failedAttempts 1 (S n) = backoff 1 n ++ [Attempt (S n)]).
    { rewrite seq_S, flat_map_app.
      rewrite failedAttempts_backoff by lia.
      cbn [flat_map app]. replace (1 + n)%nat with (S n) by lia.
      rewrite Hn, Nat.ltb_irrefl. reflexivity. }
    rewrite Hn in Heff. rewrite Heff. split; [|split; [|split]].
    + cbn [Nat.eqb]. destruct (operation (S n)); reflexivity.
    + reflexivity.
    + rewrite attempts_app, attempts_backoff. cbn [attempts].
      rewrite (seq_S n 1). reflexivity.
    + rewrite slept_app, slept_backoff. cbn [slept].
      replace (S n - 1)%nat with n by lia. ring.
Qed.

End RetryProps.

Section RetryExamples.
Import Retry.

Lemma retry_first_success_witness :
  (retryWithBackoff flaky 3 2000).1 = inl 7%nat /\
  (retryWithBackoff flaky 3 2000).2
    = [Attempt 1; Sleep 2000; Attempt 2; Sleep 4000; Attempt 3] /\
  slept (retryWithBackoff flaky 3 2000).2 == 6000.
Proof.
  assert (Hk : (1 <= 3 <= 3)%nat) by lia.
  assert (Hf : forall i, (1 <= i < 3)%nat -> fails flaky i).
  { intros i Hi. unfold fails, flaky.
    destruct (Nat.ltb_spec i 3); [exact I|lia]. }
  destruct (retry_first_success flaky 3 2000 3 7%nat Hk Hf eq_refl)
    as (H1 & H2 & _ & H4).
  split; [exact H1|]. split; [exact H2|]. exact H4.
Defined.

Lemma retry_exhausted_witness :
  (retryWithBackoff down 3 2000).1 = inr "timeout" /\
  attempts (retryWithBackoff down 3 2000).2 = [1; 2; 3]%nat /\
  slept (retryWithBackoff down 3 2000).2 == 6000.
Proof.
  destruct (retry_exhausted down 3 2000 (fun i _ => I)) as (H1 & _ & H3 & H4).
  split; [exact H1|]. split; [exact H3|]. exact H4.
Defined.

End RetryExamples.

(** * Proxy rotation *)

Section ProxyProps.
Import Proxy.

(** X3.  A health check leaves in the cache the answer it gives, with a
    time stamp less than five minutes old, and touches the entry of no
    other proxy; any later check of the same proxy less than five minutes
    after that stamp gives the same answer without asking the network (the
    probe plays no part) and without touching the cache. *)
Theorem checkProxyHealth_cached (now : Z) (probe : bool)
    (h : gmap string (bool * Z)) (proxy : string) :
  exists t,
    (checkProxyHealth now probe h proxy).2 !! proxy
      = Some ((checkProxyHealth now probe h proxy).1, t) /\
    (now - t < PROXY_CHECK_INTERVAL)%Z /\
    (forall other, other <> proxy ->
       (checkProxyHealth now probe h proxy).2 !! other = h !! other) /\
    (forall now' probe',
       (now' - t < PROXY_CHECK_INTERVAL)%Z ->
       checkProxyHealth now' probe' (checkProxyHealth now probe h proxy).2 proxy
         = checkProxyHealth now probe h proxy).
Proof.
  unfold checkProxyHealth.
  destruct (h !! proxy) as [[working lastChecked]|] eqn:Hc.
  - destruct (Z.ltb_spec (now - lastChecked) PROXY_CHECK_INTERVAL) as [Hlt|Hge].
    + exists lastChecked. cbn [fst snd]. split; [exact Hc|]. split; [exact Hlt|].
      split; [reflexivity|].
      intros now' probe' Hn. rewrite Hc.
      destruct (Z.ltb_spec (now' - lastChecked) PROXY_CHECK_INTERVAL); [|lia].
      reflexivity.
    + exists now. cbn [fst snd]. split; [apply lookup_insert_eq|].
      split; [unfold PROXY_CHECK_INTERVAL; lia|].
      split; [intros other Ho; apply lookup_insert_ne; congruence|].
      intros now' probe' Hn. rewrite lookup_insert_eq.
      destruct (Z.ltb_spec (now' - now) PROXY_CHECK_INTERVAL); [|lia].
      reflexivity.
  - exists now. cbn [fst snd]. split; [apply lookup_insert_eq|].
    split; [unfold PROXY_CHECK_INTERVAL; lia|].
    split; [intros other Ho; apply lookup_insert_ne; congruence|].
    intros now' probe' Hn. rewrite lookup_insert_eq.
    destruct (Z.ltb_spec (now' - now) PROXY_CHECK_INTERVAL); [|lia].
    reflexivity.
Qed.

Lemma check_entry (now : Z) (probe : bool) (h h' : gmap string (bool * Z))
    (proxy : string) (b : bool) :
  checkProxyHealth now probe h proxy = (b, h') ->
  (exists t, h' !! proxy = Some (b, t)) /\
  (forall other, other <> proxy -> h' !! other = h !! other).
Proof.
  unfold checkProxyHealth. intros H.
  destruct (h !! proxy) as [[working lastChecked]|] eqn:Hc.
  - destruct (now - lastChecked <? PROXY_CHECK_INTERVAL)%Z; injection H as <- <-.
    + split; [eauto|reflexivity].
    + split; [exists now; apply lookup_insert_eq|].
      intros other Ho. apply lookup_insert_ne. congruence.
  - injection H as <- <-. split; [exists now; apply lookup_insert_eq|].
    intros other Ho. apply lookup_insert_ne. congruence.
Qed.

Section WithWorld.
Variable PROXY_LIST : list string.
Variables (clock : nat -> Z) (probe : nat -> string -> bool).

Local Abbreviation n := (length PROXY_LIST).
Local Abbreviation try := (tryProxies PROXY_LIST clock probe).

Lemma tryProxies_some (remaining : nat) :
  forall attempts st proxy st',
    try remaining attempts st = (Some proxy, st') ->
    exists k t,
      (1 <= k <= remaining)%nat /\
      proxyIndex st' = (proxyIndex st + k)%nat /\
      PROXY_LIST !! ((proxyIndex st + k - 1) mod n)%nat = Some proxy /\
      health st' !! proxy = Some (true, t).
Proof.
  induction remaining as [|r IH]; intros attempts st proxy st' H; [discriminate|].
  cbn [tryProxies] in H.
  destruct (PROXY_LIST !! (proxyIndex st mod n)%nat) as [p|] eqn:Hp; [|discriminate].
  destruct (checkProxyHealth _ _ _ _) as [working h'] eqn:Hc.
  destruct working.
  - injection H as <- <-.
    destruct (check_entry _ _ _ _ _ _ Hc) as [[t Ht] _].
    exists 1%nat, t. cbn [proxyIndex health].
    replace (proxyIndex st + 1 - 1)%nat with (proxyIndex st) by lia.
    repeat split; [lia|lia|lia|exact Hp|exact Ht].
  - destruct (IH _ _ _ _ H) as (k & t & Hk & Hi & Hl & Hh).
    cbn [proxyIndex] in Hi, Hl.
    exists (S k), t.
    replace (proxyIndex st + S k - 1)%nat with (S (proxyIndex st) + k - 1)%nat by lia.
    repeat split; [lia|lia|lia|exact Hl|exact Hh].
Qed.

Lemma tryProxies_none (remaining : nat) :
  forall attempts st st',
    PROXY_LIST <> [] ->
    try remaining attempts st = (None, st') ->
    proxyIndex st' = (proxyIndex st + remaining)%nat /\
    (forall q t, health st !! q = Some (false, t) ->
                 exists t', health st' !! q = Some (false, t')) /\
    (forall j, (j < remaining)%nat ->
       exists q t, PROXY_LIST !! ((proxyIndex st + j) mod n)%nat = Some q /\
                   health st' !! q = Some (false, t)).
Proof.
  induction remaining as [|r IH]; intros attempts st st' Hne H.
  - injection H as <-. split; [lia|]. split; [eauto|]. intros j Hj. lia.
  - cbn [tryProxies] in H.
    destruct (PROXY_LIST !! (proxyIndex st mod n)%nat) as [p|] eqn:Hp.
    2:{ apply lookup_ge_None in Hp.
        assert (0 < n)%nat by (destruct PROXY_LIST; [congruence|cbn; lia]).
        pose proof (Nat.mod_upper_bound (proxyIndex st) n). lia. }
    destruct (checkProxyHealth _ _ _ _) as [working h'] eqn:Hc.
    destruct working; [discriminate|].
    destruct (check_entry _ _ _ _ _ _ Hc) as [[t0 Ht0] Hother].
    destruct (IH _ _ _ Hne H) as (Hi & Hkeep & Hall).
    cbn [proxyIndex health] in Hi, Hkeep, Hall.
    assert (Hkeep' : forall q t, health st !! q = Some (false, t) ->
                       exists t', health st' !! q = Some (false, t')).
    { intros q t Hq. destruct (decide (q = p)) as [->|Hqp].
      - exact (Hkeep _ _ Ht0).
      - apply (Hkeep q t). rewrite Hother by exact Hqp. exact Hq. }
    split; [lia|]. split; [exact Hkeep'|].
    intros [|j] Hj.
    + rewrite Nat.add_0_r. destruct (Hkeep _ _ Ht0) as [t' Ht'].
      exists p, t'. split; [exact Hp|exact Ht'].
    + destruct (Hall j ltac:(lia)) as (q & t & Hq & Hh).
      exists q, t. replace (proxyIndex st + S j)%nat with (S (proxyIndex st) + j)%nat by lia.
      split; [exact Hq|exact Hh].
Qed.

Lemma rotation_covers (i m : nat) :
  (m < n)%nat -> exists j, (j < n)%nat /\ ((i + j) mod n = m)%nat.
Proof.
  intros Hm. exists ((m + n - i mod n) mod n)%nat.
  assert (Hr : (i mod n < n)%nat) by (apply Nat.mod_upper_bound; lia).
  split; [apply Nat.mod_upper_bound; lia|].
  rewrite Nat.Div0.add_mod_idemp_r.
  rewrite (Nat.Div0.div_mod i n) at 1.
  replace (n * (i / n) + i mod n + (m + n - i mod n))%nat
    with (m + (1 + i / n) * n)%nat by nia.
  rewrite Nat.Div0.mod_add. apply Nat.mod_small. exact Hm.
Qed.

(** X4.  [getNextProxy] gives only a proxy of the list whose health check
    has just answered that it works; the rotation index then stands right
    after that proxy and has advanced by at most the length of the list.
    It gives none (a direct connection) only when the list is empty, the
    state untouched, or when every proxy of the list has been checked and
    stands as not working in the cache, the index advanced by a full turn. *)
Theorem getNextProxy_spec (st : State) :
  match getNextProxy PROXY_LIST clock probe st with
  | (Some proxy, st') =>
      proxy ∈ PROXY_LIST /\
      (exists t, health st' !! proxy = Some (true, t)) /\
      (proxyIndex st < proxyIndex st' <= proxyIndex st + n)%nat /\
      PROXY_LIST !! ((proxyIndex st' - 1) mod n)%nat = Some proxy
  | (None, st') =>
      (PROXY_LIST = [] /\ st' = st) \/
      (proxyIndex st' = (proxyIndex st + n)%nat /\
       forall proxy, proxy ∈ PROXY_LIST ->
         exists t, health st' !! proxy = Some (false, t))
  end.
Proof.
  destruct (getNextProxy PROXY_LIST clock probe st) as [[proxy|] st'] eqn:H.
  - assert (Ht : try n 0%nat st = (Some proxy, st')).
    { unfold getNextProxy in H. destruct PROXY_LIST; [discriminate|exact H]. }
    destruct (tryProxies_some _ _ _ _ _ Ht) as (k & t & Hk & Hi & Hl & Hh).
    split; [exact (list_elem_of_lookup_2 _ _ _ Hl)|].
    split; [eauto|]. split; [lia|].
    rewrite Hi. exact Hl.
  - destruct (decide (PROXY_LIST = [])) as [Hnil|Hne].
    + left. split; [exact Hnil|].
      unfold getNextProxy in H. rewrite Hnil in H. congruence.
    + right.
      assert (Ht : try n 0%nat st = (None, st')).
      { unfold getNextProxy in H. destruct PROXY_LIST; [congruence|exact H]. }
      destruct (tryProxies_none _ _ _ _ Hne Ht) as (Hi & _ & Hall).
      split; [exact Hi|]. intros proxy Hin.
      apply list_elem_of_lookup_1 in Hin as [m Hm].
      destruct (rotation_covers (proxyIndex st) m) as (j & Hj & Hjm).
      { apply lookup_lt_Some in Hm. exact Hm. }
      destruct (Hall j Hj) as (q & t & Hq & Hh).
      rewrite Hjm, Hm in Hq. injection Hq as <-. eauto.
Qed.

(** X5.  While no proxy is down (nothing in the cache says so and every
    probe succeeds) [getNextProxy] hands out the proxies in the order of the
    list, one step per call and round again: the call gives the proxy at
    [proxyIndex mod length], advances the index by one, and leaves a cache
    in which no proxy is down. *)
Theorem getNextProxy_rotates (st : State) :
  PROXY_LIST <> [] ->
  healthy st ->
  (forall k proxy, probe k proxy = true) ->
  (getNextProxy PROXY_LIST clock probe st).1
    = PROXY_LIST !! (proxyIndex st mod n)%nat /\
  proxyIndex (getNextProxy PROXY_LIST clock probe st).2 = S (proxyIndex st) /\
  healthy (getNextProxy PROXY_LIST clock probe st).2.
Proof.
  intros Hne Hst Hup.
  assert (Hn : (0 < n)%nat) by (destruct PROXY_LIST; [congruence|cbn; lia]).
  assert (Hg : getNextProxy PROXY_LIST clock probe st = try n 0%nat st).
  { unfold getNextProxy. destruct PROXY_LIST; [congruence|reflexivity]. }
  rewrite Hg.
  assert (Hs : exists m, n = S m) by (exists (n - 1)%nat; lia).
  destruct Hs as [m Hm]. rewrite Hm. cbn [tryProxies]. rewrite <- Hm.
  destruct (PROXY_LIST !! (proxyIndex st mod n)%nat) as [p|] eqn:Hp.
  2:{ apply lookup_ge_None in Hp.
      pose proof (Nat.mod_upper_bound (proxyIndex st) n). lia. }
  destruct (checkProxyHealth _ _ _ _) as [working h'] eqn:Hc.
  destruct (check_entry _ _ _ _ _ _ Hc) as [[t Ht] Hother].
  assert (Hw : working = true).
  { unfold checkProxyHealth in Hc. rewrite Hup in Hc.
    destruct (health st !! p) as [[w l]|] eqn:Hl.
    - destruct (clock 0%nat - l <? PROXY_CHECK_INTERVAL)%Z; injection Hc as <- _.
      + exact (Hst _ _ _ Hl).
      + reflexivity.
    - injection Hc as <- _. reflexivity. }
  subst working. cbn [fst snd proxyIndex health].
  split; [reflexivity|]. split; [reflexivity|].
  intros q w tq Hq. cbn [health] in Hq.
  destruct (decide (q = p)) as [->|Hqp].
  - rewrite Ht in Hq. congruence.
  - rewrite Hother in Hq by exact Hqp. exact (Hst _ _ _ Hq).
Qed.

End WithWorld.

Lemma getNextProxy_rotates_witness :
  (getNextProxy pool ticking allUp start).1 = Some "http://10.0.0.1:8080" /\
  proxyIndex (getNextProxy pool ticking allUp start).2 = 1%nat.
Proof.
  assert (Hne : pool <> []) by discriminate.
  assert (Hst : healthy start).
  { intros proxy working t H. unfold start in H. cbn [health] in H.
    rewrite lookup_empty in H. discriminate. }
  destruct (getNextProxy_rotates pool ticking allUp start Hne Hst (fun _ _ => eq_refl))
    as (H1 & H2 & _).
  split; [exact H1|exact H2].
Defined.

End ProxyProps.

(** * The scraping run *)

Section RoundBounds.

Lemma round_ge (z : Z) (x : Q) : inject_Z z <= x -> inject_Z z <= JS.round x.
Proof.
  intros H. unfold JS.round. rewrite <- Zle_Qle.
  rewrite <- (Qfloor_Z z). apply Qfloor_resp_le. lra.
Qed.

Lemma round_le (z : Z) (x : Q) : x <= inject_Z z -> JS.round x <= inject_Z z.
Proof.
  intros H. unfold JS.round. rewrite <- Zle_Qle.
  pose proof (Qfloor_le (x + (1 # 2))) as Hf.
  assert (Hlt : inject_Z (Qfloor (x + (1 # 2))) < inject_Z (z + 1)).
  { rewrite inject_Z_plus. change (inject_Z 1) with 1. lra. }
  rewrite <- Zlt_Qlt in Hlt. lia.
Qed.

End RoundBounds.

Section SortByKey.
Context {A : Type} (key : A -> Q).
Import DealFilteringService.

Local Abbreviation cmp := (fun a b : A => key b - key a).
Local Abbreviation desc := (fun a b : A => key b <= key a).




End SortByKey.

Section ScrapeProps.
Import WebScrapingService WebScrapingTool.
Variable w : World.

Lemma sites_configs : config <$> SITES = SITE_CONFIGS.
Proof. reflexivity. Qed.

Local Abbreviation retried initialized site query :=
  (Retry.retryWithBackoff (scrapeSite w initialized site query) 3 2000).1.

Local Abbreviation byDiscountDesc :=
  (fun a b : Deal => discountPercentage b <= discountPercentage a).

(** Three attempts: the first that succeeds, or the last error. *)
Lemma retry3 {T : Type} (operation : nat -> T + string) (b : Q) :
  (Retry.retryWithBackoff operation 3 b).1
  = match operation 1%nat with
    | inl v => inl v
    | inr _ =>
        match operation 2%nat with
        | inl v => inl v
        | inr _ => operation 3%nat
        end
    end.
Proof.
  unfold Retry.retryWithBackoff. cbn [Retry.loop].
  destruct (operation 1%nat); [reflexivity|].
  destruct (operation 2%nat); [reflexivity|].
  destruct (operation 3%nat); reflexivity.
Qed.

Lemma fold_scrape (initialized : bool) (query : string) (sites : list Site) :
  forall acc t,
    (forall d, d ∈ (foldl (scrapeStep w initialized query) (acc, t) sites).1 <->
       d ∈ acc \/
       exists site ds, site ∈ sites /\ retried initialized site query = inl ds /\ d ∈ ds) /\
    sitesAttempted (foldl (scrapeStep w initialized query) (acc, t) sites).2
      = sitesAttempted t /\
    (sitesSucceeded (foldl (scrapeStep w initialized query) (acc, t) sites).2
     + sitesFailed (foldl (scrapeStep w initialized query) (acc, t) sites).2
     = sitesSucceeded t + sitesFailed t + length sites)%nat /\
    (totalDeals (foldl (scrapeStep w initialized query) (acc, t) sites).2 + length acc
     = totalDeals t + length (foldl (scrapeStep w initialized query) (acc, t) sites).1)%nat /\
    (length (errors (foldl (scrapeStep w initialized query) (acc, t) sites).2)
     + sitesFailed t
     = length (errors t)
       + sitesFailed (foldl (scrapeStep w initialized query) (acc, t) sites).2)%nat.
Proof.
  induction sites as [|site sites IH]; intros acc t; cbn [foldl].
  - cbn [fst snd length]. split; [|lia].
    intros d. split; [tauto|]. intros [H|(site & ds & H & _)]; [exact H|].
    apply elem_of_nil in H. contradiction.
  - cbn [scrapeStep].
    destruct (retried initialized site query) as [siteDeals|errorMsg] eqn:Hr.
    + destruct (IH (acc ++ siteDeals)
                  {| sitesAttempted := sitesAttempted t;
                     sitesSucceeded := S (sitesSucceeded t);
                     sitesFailed := sitesFailed t;
                     totalDeals := (totalDeals t + length siteDeals)%nat;
                     errors := errors t |}) as (H1 & H2 & H3 & H4 & H5).
      cbn [sitesAttempted sitesSucceeded sitesFailed totalDeals errors] in *.
      rewrite length_app in H4.
      split; [|cbn [length]; lia].
      intros d. rewrite H1, elem_of_app. split.
      * intros [[H|H]|(s & ds & Hs & Hd & Hin)]; [tauto| |].
        -- right. exists site, siteDeals. rewrite elem_of_cons. tauto.
        -- right. exists s, ds. rewrite elem_of_cons. tauto.
      * intros [H|(s & ds & Hs & Hd & Hin)]; [tauto|].
        apply elem_of_cons in Hs as [->|Hs].
        -- rewrite Hr in Hd. injection Hd as <-. tauto.
        -- right. exists s, ds. tauto.
    + destruct (IH acc
                  {| sitesAttempted := sitesAttempted t;
                     sitesSucceeded := sitesSucceeded t;
                     sitesFailed := S (sitesFailed t);
                     totalDeals := totalDeals t;
                     errors := errors t
                       ++ [SiteConfig.name (config site) +:+ ": " +:+ errorMsg] |})
        as (H1 & H2 & H3 & H4 & H5).
      cbn [sitesAttempted sitesSucceeded sitesFailed totalDeals errors] in *.
      rewrite length_app in H5. cbn [length] in *.
      split; [|lia].
      intros d. rewrite H1. split.
      * intros [H|(s & ds & Hs & Hd & Hin)]; [tauto|].
        right. exists s, ds. rewrite elem_of_cons. tauto.
      * intros [H|(s & ds & Hs & Hd & Hin)]; [tauto|].
        apply elem_of_cons in Hs as [->|Hs].
        -- rewrite Hr in Hd. discriminate.
        -- right. exists s, ds. tauto.
Qed.

Lemma scrapeDeals_unfold (query : string) (sitesToScrape : option (list string)) :
  scrapeDeals w query sitesToScrape
  = (DealFilteringService.sort byDiscount
       (foldl (scrapeStep w (browserInitialized w (sitesConfig sitesToScrape)) query)
          ([], {| sitesAttempted := length (sitesConfig sitesToScrape);
                  sitesSucceeded := 0; sitesFailed := 0; totalDeals := 0;
                  errors := [] |})
          (sitesConfig sitesToScrape)).1,
     (foldl (scrapeStep w (browserInitialized w (sitesConfig sitesToScrape)) query)
          ([], {| sitesAttempted := length (sitesConfig sitesToScrape);
                  sitesSucceeded := 0; sitesFailed := 0; totalDeals := 0;
                  errors := [] |})
          (sitesConfig sitesToScrape)).2).
Proof.
  unfold scrapeDeals. destruct (foldl _ _ _). reflexivity.
Qed.


Lemma scrapeDeals_elem (query : string) (sitesToScrape : option (list string))
    (d : Deal) :
  d ∈ (scrapeDeals w query sitesToScrape).1 <->
  exists site ds,
    site ∈ sitesConfig sitesToScrape /\
    retried (browserInitialized w (sitesConfig sitesToScrape)) site query = inl ds /\
    d ∈ ds.
Proof.
  rewrite scrapeDeals_unfold. cbn [fst].
  rewrite (sort_perm byDiscount).
  destruct (fold_scrape (browserInitialized w (sitesConfig sitesToScrape)) query
              (sitesConfig sitesToScrape) []
              {| sitesAttempted := length (sitesConfig sitesToScrape);
                 sitesSucceeded := 0; sitesFailed := 0; totalDeals := 0;
                 errors := [] |}) as (H1 & _).
  rewrite H1. split; [|tauto].
  intros [H|H]; [|exact H]. apply elem_of_nil in H. contradiction.
Qed.


(** X7.  The telemetry of a run adds up: every site attempted either
    succeeded or failed, there is one error message for each failed site,
    and the count of deals is the length of the list returned. *)
Theorem scrapeDeals_telemetry (query : string) (sitesToScrape : option (list string)) :
  sitesAttempted (scrapeDeals w query sitesToScrape).2
    = length (sitesConfig sitesToScrape) /\
  (sitesSucceeded (scrapeDeals w query sitesToScrape).2
   + sitesFailed (scrapeDeals w query sitesToScrape).2
   = sitesAttempted (scrapeDeals w query sitesToScrape).2)%nat /\
  length (errors (scrapeDeals w query sitesToScrape).2)
    = sitesFailed (scrapeDeals w query sitesToScrape).2 /\
  totalDeals (scrapeDeals w query sitesToScrape).2
    = length (scrapeDeals w query sitesToScrape).1.
Proof.
  rewrite scrapeDeals_unfold. cbn [fst snd].
  rewrite (Permutation_length (sort_perm byDiscount _)).
  destruct (fold_scrape (browserInitialized w (sitesConfig sitesToScrape)) query
              (sitesConfig sitesToScrape) []
              {| sitesAttempted := length (sitesConfig sitesToScrape);
                 sitesSucceeded := 0; sitesFailed := 0; totalDeals := 0;
                 errors := [] |}) as (_ & H2 & H3 & H4 & H5).
  cbn [sitesAttempted sitesSucceeded sitesFailed totalDeals errors length] in *.
  lia.
Qed.





(** What every deal of a page is like, whatever the profile. *)
Lemma listing_sound (cfg : SiteConfig.t) (pageUrl : string) (p : Product) (d : Deal) :
  puppeteerListing cfg pageUrl p = Some d \/ cheerioListing cfg pageUrl p = Some d ->
  title d <> EmptyString /\
  0 < currentPrice d /\
  (exists o, originalPrice d = Some o /\ currentPrice d < o /\
     discountPercentage d
       = JS.round (JS.mul (JS.div (JS.sub o (currentPrice d)) o) 100) /\
     10 <= JS.mul (JS.div (JS.sub o (currentPrice d)) o) 100 <= 100) /\
  (exists z, discountPercentage d = inject_Z z /\ (10 <= z <= 100)%Z).
Proof.
  intros H.
  destruct (extraction_produces cfg pageUrl p d H) as (_ & Ht & _ & _ & Hc & Hd & H10).
  split; [exact Ht|]. split; [exact Hc|].
  unfold Spec.discountComputed in Hd, H10.
  destruct (originalPrice d) as [o|]; [|lra].
  destruct (Qle_bool o (currentPrice d)) eqn:Hle; [lra|].
  assert (Hlt : currentPrice d < o).
  { apply Qnot_le_lt. intros Ho. apply Qle_bool_iff in Ho. congruence. }
  pose proof (percent_range o (currentPrice d) Hc Hlt) as [_ H100].
  split.
  - exists o. repeat split; [exact Hlt|exact Hd|exact H10|exact H100].
  - eexists. split; [exact Hd|].
    pose proof (round_ge 10 _ H10) as Hlo.
    pose proof (round_le 100 _ H100) as Hhi.
    unfold JS.round in Hlo, Hhi. rewrite <- Zle_Qle in Hlo, Hhi. lia.
Qed.



Lemma scrapeSite_listing (initialized : bool) (site : Site) (query : string)
    (k : nat) (ds : list Deal) (d : Deal) :
  scrapeSite w initialized site query k = inl ds -> d ∈ ds ->
  exists p,
    puppeteerListing (config site) (searchUrl site query) p = Some d
    \/ cheerioListing (config site) (searchUrl site query) p = Some d.
Proof.
  unfold scrapeSite. intros H Hd. apply list_elem_of_In in Hd.
  destruct (requiresJS site && initialized).
  - destruct (fetch w true _ k) as [products|]; [|discriminate].
    injection H as <-.
    destruct (scrape_listing _ _ products d (or_introl Hd)) as (p & _ & Hp).
    exists p. exact Hp.
  - destruct (fetch w false _ k) as [products|]; [|discriminate].
    injection H as <-.
    destruct (scrape_listing _ _ products d (or_intror Hd)) as (p & _ & Hp).
    exists p. exact Hp.
Qed.

Lemma retried_attempt (initialized : bool) (site : Site) (query : string)
    (ds : list Deal) :
  retried initialized site query = inl ds ->
  exists k, scrapeSite w initialized site query k = inl ds.
Proof.
  rewrite retry3.
  destruct (scrapeSite w initialized site query 1) eqn:H1.
  { intros H. exists 1%nat. congruence. }
  destruct (scrapeSite w initialized site query 2) eqn:H2.
  { intros H. exists 2%nat. congruence. }
  intros H. exists 3%nat. exact H.
Qed.

(** Every deal of a run comes from a product of a page of a site of the
    run. *)
Lemma scrapeDeals_listing (query : string) (sitesToScrape : option (list string))
    (d : Deal) :
  d ∈ (scrapeDeals w query sitesToScrape).1 ->
  exists s p,
    s ∈ sitesConfig sitesToScrape /\
    (puppeteerListing (config s) (searchUrl s query) p = Some d
     \/ cheerioListing (config s) (searchUrl s query) p = Some d).
Proof.
  intros H. apply scrapeDeals_elem in H as (s & ds & Hs & Hr & Hd).
  apply retried_attempt in Hr as [k Hk].
  destruct (scrapeSite_listing _ _ _ _ _ _ Hk Hd) as [p Hp].
  exists s, p. tauto.
Qed.


End ScrapeProps.

Section ScrapeExamples.
Import WebScrapingService WebScrapingTool.


End ScrapeExamples.

(** * The scraping tool *)

Section ExecuteProps.
Import WebScrapingService WebScrapingTool.
Variable w : World.

Local Abbreviation byDiscountDesc :=
  (fun a b : Deal => discountPercentage b <= discountPercentage a).


Lemma foldl_plus_bounds (a b : Q) (l : list Q) :
  Forall (fun x => a <= x <= b) l ->
  forall acc,
    acc + a * inject_Z (Z.of_nat (length l)) <= foldl Qplus acc l
    /\ foldl Qplus acc l <= acc + b * inject_Z (Z.of_nat (length l)).
Proof.
  induction 1 as [|x l Hx Hl IH]; intros acc.
  - cbn [foldl length]. change (inject_Z (Z.of_nat 0)) with 0. lra.
  - cbn [foldl]. destruct (IH (acc + x)) as [H1 H2].
    rewrite length_cons, Nat2Z.inj_succ. unfold Z.succ.
    rewrite inject_Z_plus. change (inject_Z 1) with 1. lra.
Qed.

(** The rounded mean of whole numbers between two whole numbers lies
    between them. *)
Lemma round_mean_bounds (lo hi : Z) (l : list Q) :
  l <> [] ->
  Forall (fun x => inject_Z lo <= x <= inject_Z hi) l ->
  inject_Z lo <= JS.round (sum l / inject_Z (Z.of_nat (length l))) <= inject_Z hi.
Proof.
  intros Hne Hl.
  destruct (foldl_plus_bounds _ _ _ Hl 0) as [H1 H2]. fold (sum l) in H1, H2.
  assert (Hn : 0 < inject_Z (Z.of_nat (length l))).
  { change 0 with (inject_Z 0). rewrite <- Zlt_Qlt.
    destruct l; [congruence|cbn [length]; lia]. }
  split.
  - apply round_ge. apply Qle_shift_div_l; [exact Hn|lra].
  - apply round_le. apply Qle_shift_div_r; [exact Hn|lra].
Qed.



End ExecuteProps.

Section BrowserFallback.
Import WebScrapingService WebScrapingTool.

Lemma loop_ext {T : Type} (op1 op2 : nat -> T + string) (m : nat) (b : Q) :
  (forall n, op1 n = op2 n) ->
  forall remaining a e,
    Retry.loop op1 m b remaining a e = Retry.loop op2 m b remaining a e.
Proof.
  intros Hop. induction remaining as [|r IH]; intros a e; [reflexivity|].
  cbn [Retry.loop]. rewrite Hop. destruct (op2 a); [reflexivity|].
  rewrite IH. reflexivity.
Qed.

Lemma foldl_ext {A B : Type} (f g : A -> B -> A) (l : list B) :
  (forall a x, f a x = g a x) -> forall a, foldl f a l = foldl g a l.
Proof.
  intros H. induction l as [|x l IH]; intros a; [reflexivity|].
  cbn [foldl]. rewrite H. apply IH.
Qed.

(** X10.  When the browser does not start, a run falls back on plain
    requests for every site, the sites that require JavaScript included:
    what it returns and logs is settled by the answers to plain requests
    alone, whatever a browser would have shown. *)
Theorem scrapeDeals_without_browser (w1 w2 : World) (query : string)
    (sitesToScrape : option (list string)) :
  browserStarts w1 = false ->
  browserStarts w2 = false ->
  (forall url n, fetch w1 false url n = fetch w2 false url n) ->
  scrapeDeals w1 query sitesToScrape = scrapeDeals w2 query sitesToScrape.
Proof.
  intros H1 H2 Hf. unfold scrapeDeals, browserInitialized.
  rewrite H1, H2, andb_false_r.
  rewrite (foldl_ext (scrapeStep w1 false query) (scrapeStep w2 false query)).
  - reflexivity.
  - intros [allDeals t] site. cbn [scrapeStep].
    unfold Retry.retryWithBackoff.
    rewrite (loop_ext (scrapeSite w1 false site query) (scrapeSite w2 false site query)).
    + reflexivity.
    + intros n. unfold scrapeSite. rewrite andb_false_r, Hf. reflexivity.
Qed.

Lemma scrapeDeals_without_browser_witness :
  scrapeDeals (headless slow) "laptop" None
  = scrapeDeals
      {| browserStarts := false;
         fetch := fun browser url n =>
           if browser then inr "no browser" else fetch slow false url n |}
      "laptop" None.
Proof.
  apply scrapeDeals_without_browser; reflexivity.
Defined.

End BrowserFallback.

(** * Scraped deals under math validation *)

Section ScrapedValidation.
Context {rt : JSRuntime}.
Import WebScrapingService DealFilteringService.

Lemma round_near (x : Q) : Qabs (x - JS.round x) <= 1 # 2.
Proof.
  unfold JS.round.
  pose proof (Qfloor_le (x + (1 # 2))) as H1.
  pose proof (Qlt_floor (x + (1 # 2))) as H2.
  rewrite inject_Z_plus in H2. change (inject_Z 1) with 1 in H2.
  apply Qabs_Qle_condition. split; lra.
Qed.

(** Math validation of a deal of a page. *)
Lemma listing_validation (cfg : SiteConfig.t) (pageUrl : string)
    (p : Product) (d : Deal) :
  puppeteerListing cfg pageUrl p = Some d \/ cheerioListing cfg pageUrl p = Some d ->
  exists o,
    originalPrice d = Some o /\
    actualDiscount (validateDiscountMath d)
      = JS.mul (JS.div (JS.sub o (currentPrice d)) o) 100 /\
    Qabs (actualDiscount (validateDiscountMath d) - discountPercentage d) <= 1 # 2 /\
    flags (validateDiscountMath d)
      = (if JS.ltb 95 (actualDiscount (validateDiscountMath d))
         then [extremeFlag] else []) /\
    valid (validateDiscountMath d)
      = JS.leb 50 (actualDiscount (validateDiscountMath d)).
Proof.
  intros H.
  destruct (listing_sound _ _ _ _ H)
    as (_ & Hc & (o & Ho & Hlt & Hdp & H10 & _) & (z & Hz & Hz10 & Hz100)).
  destruct (validate_computed d o Ho ltac:(lra) Hc Hlt) as (Ha & Hv & Hf).
  cbv zeta in Ha, Hv, Hf.
  set (a := JS.mul (JS.div (JS.sub o (currentPrice d)) o) 100) in *.
  assert (Hnear : Qabs (a - discountPercentage d) <= 1 # 2).
  { rewrite Hdp. apply round_near. }
  exists o. rewrite Ha. split; [exact Ho|]. split; [reflexivity|].
  split; [exact Hnear|]. split; [|exact Hv].
  rewrite Hf. unfold JS.abs.
  assert (E1 : JS.ltb 5 (Qabs (JS.sub a (discountPercentage d))) = false).
  { apply ltb_ge. rewrite Hz in Hnear |- *.
    assert (Hs : Qabs (JS.sub a (inject_Z z)) <= 1 # 2).
    { apply sub_near; [apply fl_idem|apply small_Z; lia|exact Hnear]. }
    lra. }
  rewrite E1. cbn [app].
  assert (E2 : JS.ltb a 50 && JS.leb 90 (discountPercentage d) = false).
  { destruct (JS.ltb _ 50) eqn:E; [|reflexivity]. apply ltb_lt in E.
    cbn [andb]. apply leb_gt. apply Qabs_Qle_condition in Hnear. lra. }
  rewrite E2. apply app_nil_r.
Qed.


End ScrapedValidation.

Section ScrapedValidationExamples.
Import Demo WebScrapingService DealFilteringService.


End ScrapedValidationExamples.

(** * Suspicious pricing and the score *)

Section Suspicion.
Import DealFilteringService.

Lemma length_pushIf (b : bool) (x : string) (l : list string) :
  length (pushIf b x l) = (length l + (if b then 1 else 0))%nat.
Proof. destruct b; cbn [pushIf]; [rewrite length_app; reflexivity|lia]. Qed.

Lemma in_pushIf (b : bool) (x y : string) (l : list string) :
  In y (pushIf b x l) <-> In y l \/ (b = true /\ y = x).
Proof.
  destruct b; cbn [pushIf].
  - rewrite in_app_iff. cbn [In]. intuition congruence.
  - intuition congruence.
Qed.

Lemma penny_not_round (c : Q) :
  JS.same c 0.01 = true -> existsb (JS.same c) roundNumbers = false.
Proof.
  unfold JS.same. intros H. apply Qeq_bool_iff in H.
  assert (Hne : forall r, ~ JS.fl 0.01 == JS.fl r -> Qeq_bool (JS.fl c) (JS.fl r) = false).
  { intros r Hr. destruct (Qeq_bool _ _) eqn:E; [|reflexivity].
    apply Qeq_bool_iff in E. rewrite H in E. contradiction. }
  unfold roundNumbers. cbn [existsb].
  rewrite !Hne; [reflexivity|..]; intros E; vm_compute in E; discriminate E.
Qed.

Lemma penny_below_one (c : Q) : JS.same c 0.01 = true -> c < 1.
Proof.
  unfold JS.same. intros H. apply Qeq_bool_iff in H.
  apply Qnot_le_lt. intros Hc. apply fl_mono in Hc. rewrite H in Hc.
  vm_compute in Hc. apply Hc. reflexivity.
Qed.

Lemma detect_at_most_six (d : Deal) :
  (length (detectSuspiciousPricing d) <= 6)%nat.
Proof.
  unfold detectSuspiciousPricing. rewrite !length_pushIf. cbn [length].
  destruct (JS.same (currentPrice d) 0.01) eqn:E2.
  - rewrite (penny_not_round _ E2). cbn [andb].
    repeat match goal with |- context [if ?b then _ else _] => destruct b end; lia.
  - repeat match goal with |- context [if ?b then _ else _] => destruct b end; lia.
Qed.

Lemma penalty_double (d : Deal) :
  JS.min 30 (JS.mul (inject_Z (Z.of_nat (length (detectSuspiciousPricing d)))) 5)
    == 5 * inject_Z (Z.of_nat (length (detectSuspiciousPricing d))).
Proof.
  pose proof (detect_at_most_six d) as Hlen.
  set (n := Z.of_nat (length (detectSuspiciousPricing d))).
  assert (Hn : (0 <= n <= 6)%Z) by (unfold n; lia).
  assert (Hm : JS.mul (inject_Z n) 5 == 5 * inject_Z n).
  { unfold JS.mul. rewrite (fl_Z n) by (apply small_Z; lia).
    change 5 with (inject_Z 5) at 1. rewrite (fl_Z 5) by (cbn; lia).
    rewrite <- inject_Z_mult. rewrite fl_Z by (apply small_Z; lia).
    rewrite inject_Z_mult. change (inject_Z 5) with 5. ring. }
  assert (Hq : inject_Z n <= 6).
  { change 6 with (inject_Z 6). rewrite <- Zle_Qle. lia. }
  destruct (min_spec 30 (JS.mul (inject_Z n) 5)) as [[H ->]|[H ->]];
    [exact Hm|lra].
Qed.

Lemma penalty_uncapped (d : Deal) :
  JS.min 30 (inject_Z (Z.of_nat (length (detectSuspiciousPricing d))) * 5)
    == inject_Z (Z.of_nat (length (detectSuspiciousPricing d))) * 5.
Proof.
  pose proof (detect_at_most_six d) as Hlen.
  assert (Hq : inject_Z (Z.of_nat (length (detectSuspiciousPricing d))) <= inject_Z 6).
  { rewrite <- Zle_Qle. lia. }
  change (inject_Z 6) with 6 in Hq.
  destruct (min_spec 30 (inject_Z (Z.of_nat (length (detectSuspiciousPricing d))) * 5))
    as [[H ->]|[H ->]]; [reflexivity|lra].
Qed.

(** X12.  [detectSuspiciousPricing] never raises more than six of its
    seven factors at once (a price of one cent is none of the round
    prices), so that the cap of 30 on the penalty of five points per factor
    never cuts anything off; and the factor for a price of one cent never
    comes without the factor for a price under one dollar. *)
Theorem suspicion_penalty_uncapped (d : Deal) :
  (length (detectSuspiciousPricing d) <= 6)%nat /\
  JS.min 30 (inject_Z (Z.of_nat (length (detectSuspiciousPricing d))) * 5)
    == inject_Z (Z.of_nat (length (detectSuspiciousPricing d))) * 5 /\
  (In "Penny pricing - classic pricing glitch" (detectSuspiciousPricing d) ->
   In "Price under $1 - likely pricing error" (detectSuspiciousPricing d)).
Proof.
  split; [apply detect_at_most_six|]. split; [apply penalty_uncapped|].
  - unfold detectSuspiciousPricing. rewrite !in_pushIf. cbn [In].
    intros H.
    assert (E2 : JS.same (currentPrice d) 0.01 = true).
    { destruct H as [[[[[[[[]|[_ H]]|[H _]]|[_ H]]|[_ H]]|[_ H]]|[_ H]]|[_ H]];
        try discriminate H. exact H. }
    apply penny_below_one in E2.
    assert (E1 : JS.ltb (currentPrice d) 1 = true) by (apply ltb_lt; exact E2).
    rewrite E1. tauto.
Qed.

Lemma round_mono (x y : Q) : x <= y -> JS.round x <= JS.round y.
Proof.
  intros H. unfold JS.round. rewrite <- Zle_Qle. apply Qfloor_resp_le. lra.
Qed.

Lemma clamp_mono (x y : Q) :
  x <= y -> JS.max 0 (JS.min 100 x) <= JS.max 0 (JS.min 100 y).
Proof.
  intros H.
  destruct (min_spec 100 x) as [[H1 ->]|[H1 ->]];
    destruct (min_spec 100 y) as [[H2 ->]|[H2 ->]];
    repeat match goal with
    | |- context [JS.max 0 ?a] => destruct (max_spec 0 a) as [[? ->]|[? ->]]
    end; lra.
Qed.

(** X13.  The overall score never goes down when the AI confidence or the
    glitch probability goes up, nor when suspicious factors are taken
    away. *)
Theorem score_monotone (m : MathValidation) (a1 a2 : PricingAnalysisResult.t)
    (s1 s2 : list string) :
  PricingAnalysisResult.confidenceScore a1 <= PricingAnalysisResult.confidenceScore a2 ->
  PricingAnalysisResult.pricingGlitchProbability a1
    <= PricingAnalysisResult.pricingGlitchProbability a2 ->
  (length s2 <= length s1)%nat ->
  calculateOverallScore m a1 s1 <= calculateOverallScore m a2 s2.
Proof.
  intros Hc Hp Hs. unfold calculateOverallScore.
  apply clamp_mono, round_mono.
  assert (Hl : inject_Z (Z.of_nat (length s2)) <= inject_Z (Z.of_nat (length s1))).
  { rewrite <- Zle_Qle. lia. }
  cbv zeta.
  set (base := if valid m then _ else _).
  assert (Ha : JS.mul (JS.div (PricingAnalysisResult.confidenceScore a1) 100) 40
               <= JS.mul (JS.div (PricingAnalysisResult.confidenceScore a2) 100) 40).
  { apply mul_mono; [discriminate|]. apply div_mono; [discriminate|exact Hc]. }
  assert (Hpen : JS.min 30 (JS.mul (inject_Z (Z.of_nat (length s2))) 5)
                 <= JS.min 30 (JS.mul (inject_Z (Z.of_nat (length s1))) 5)).
  { apply min_mono. apply mul_mono; [discriminate|exact Hl]. }
  assert (Hsum : JS.sub (JS.add base (JS.mul (JS.div
                   (PricingAnalysisResult.confidenceScore a1) 100) 40))
                   (JS.min 30 (JS.mul (inject_Z (Z.of_nat (length s1))) 5))
                 <= JS.sub (JS.add base (JS.mul (JS.div
                      (PricingAnalysisResult.confidenceScore a2) 100) 40))
                      (JS.min 30 (JS.mul (inject_Z (Z.of_nat (length s2))) 5))).
  { apply sub_mono; [|exact Hpen]. apply add_mono; [lra|exact Ha]. }
  destruct (JS.ltb 70 (PricingAnalysisResult.pricingGlitchProbability a1)) eqn:E1.
  - apply ltb_lt in E1.
    assert (JS.ltb 70 (PricingAnalysisResult.pricingGlitchProbability a2) = true)
      as -> by (apply ltb_lt; lra).
    apply add_mono; [exact Hsum|lra].
  - destruct (JS.ltb 70 (PricingAnalysisResult.pricingGlitchProbability a2));
      [|exact Hsum].
    eapply Qle_trans; [exact Hsum|].
    apply (add_grows _ 20); [lia|apply fl_idem].
Qed.

Lemma score_monotone_witness :
  calculateOverallScore {| valid := true; actualDiscount := 60; flags := [] |}
    {| PricingAnalysisResult.isLegitimate := true;
       PricingAnalysisResult.confidenceScore := 40;
       PricingAnalysisResult.pricingGlitchProbability := 10;
       PricingAnalysisResult.analysis := "";
       PricingAnalysisResult.suspiciousFactors := [];
       PricingAnalysisResult.recommendation := LOW |}
    ["Very short product title - possibly incomplete"]
  <= calculateOverallScore {| valid := true; actualDiscount := 60; flags := [] |}
       {| PricingAnalysisResult.isLegitimate := true;
          PricingAnalysisResult.confidenceScore := 90;
          PricingAnalysisResult.pricingGlitchProbability := 80;
          PricingAnalysisResult.analysis := "";
          PricingAnalysisResult.suspiciousFactors := [];
          PricingAnalysisResult.recommendation := HIGH |}
       [].
Proof.
  apply score_monotone; cbn; [lra|lra|lia].
Defined.

End Suspicion.

(** * What a filtered deal is like *)

Section FilteredDealProps.
Context {rt : JSRuntime}.
Import DealFilteringService Value.

Lemma parse_range (text : string) (r : PricingAnalysisResult.t) :
  parseAIResponse text = Some r ->
  0 <= PricingAnalysisResult.confidenceScore r <= 100 /\
  0 <= PricingAnalysisResult.pricingGlitchProbability r <= 100.
Proof.
  unfold parseAIResponse.
  destruct (JSON_parse (extractJson text)) as [j|]; [|discriminate].
  intros H. assert (Hs : sanitize j = Some r) by (destruct j; congruence).
  clear H. unfold sanitize in Hs. cbv zeta in Hs.
  destruct (toNumber (prop j "confidenceScore")) as [c|];
    cbn [mbind option_bind] in Hs; [|discriminate].
  destruct (toNumber (prop j "pricingGlitchProbability")) as [g|];
    cbn [mbind option_bind] in Hs; [|discriminate].
  destruct (analysisText (prop j "analysis")) as [a|];
    cbn [mbind option_bind] in Hs; [|discriminate].
  injection Hs as <-.
  cbn [PricingAnalysisResult.confidenceScore
       PricingAnalysisResult.pricingGlitchProbability].
  split; apply clamp_range.
Qed.

Lemma analyze_range (ai : Providers) (n : nat) (d : Deal)
    (r : PricingAnalysisResult.t) :
  analyzeWithAI ai n d = Some r ->
  0 <= PricingAnalysisResult.confidenceScore r <= 100 /\
  0 <= PricingAnalysisResult.pricingGlitchProbability r <= 100.
Proof.
  unfold analyzeWithAI.
  destruct (perplexity ai n d ≫= parseAIResponse) as [r1|] eqn:H1.
  - intros H. injection H as <-.
    destruct (perplexity ai n d) as [t|]; [|discriminate]. exact (parse_range _ _ H1).
  - intros H. destruct (openai ai n d) as [t|]; [|discriminate].
    exact (parse_range _ _ H).
Qed.

Lemma score_whole (m : MathValidation) (a : PricingAnalysisResult.t)
    (s : list string) :
  exists z, calculateOverallScore m a s = inject_Z z /\ (0 <= z <= 100)%Z.
Proof.
  unfold calculateOverallScore. cbv zeta.
  match goal with |- context [JS.round ?x] => generalize x end. intros x.
  unfold JS.max, JS.min, JS.round.
  destruct (JS.ltb (inject_Z _) 100) eqn:E1.
  - apply ltb_lt in E1. change 100 with (inject_Z 100) in E1.
    rewrite <- Zlt_Qlt in E1.
    destruct (JS.ltb 0 (inject_Z _)) eqn:E2.
    + apply ltb_lt in E2. change 0 with (inject_Z 0) in E2.
      rewrite <- Zlt_Qlt in E2. eexists. split; [reflexivity|lia].
    + exists 0%Z. split; [reflexivity|lia].
  - destruct (JS.ltb 0 100); [exists 100%Z|exists 0%Z]; (split; [reflexivity|lia]).
Qed.

(** The whole record of an accepted deal. *)
Lemma processDeal_record ai minD minC (seenDeals : gset string) n d fd :
  (processDeal ai minD minC seenDeals n d).2 = Accepted fd ->
  exists r,
    analyzeWithAI ai n d = Some r /\
    validationFlags fd = flags (validateDiscountMath d) /\
    filteringReason fd
      = (if JS.leb 70 (PricingAnalysisResult.pricingGlitchProbability r)
         then "Potential pricing glitch ("
                +:+ printNumber (PricingAnalysisResult.pricingGlitchProbability r)
                +:+ "% probability)"
         else "High discount deal ("
                +:+ toFixed1 (actualDiscount (validateDiscountMath d)) +:+ "% off)") /\
    aiAnalysis fd = PricingAnalysisResult.analysis r /\
    recommendationLevel fd = PricingAnalysisResult.recommendation r /\
    suspiciousFactors fd
      = (JString <$> detectSuspiciousPricing d)
          ++ PricingAnalysisResult.suspiciousFactors r.
Proof.
  unfold processDeal.
  destruct (bool_decide _); [discriminate|].
  destruct (negb _ && _); [discriminate|].
  destruct (analyzeWithAI ai n d) as [r|]; [|discriminate].
  destruct ((_ || _) && _); [|discriminate].
  cbn [snd]. intros H. injection H as <-. exists r. cbn.
  repeat split; reflexivity.
Qed.

Lemma accepted_prices (d : Deal) :
  50 <= actualDiscount (validateDiscountMath d) ->
  exists o, originalPrice d = Some o /\ 0 < o /\ 0 < currentPrice d /\ currentPrice d < o.
Proof.
  intros H. apply not_rejected. intros Hr.
  destruct (validate_rejected d Hr) as (_ & Ha & _). rewrite Ha in H. lra.
Qed.

(** X14.  Every deal that [filterDeals] returns fits the schema of the
    result and the thresholds of the call: both of its numbers lie in
    [0, 100], its confidence score is a whole number that reaches
    [minConfidenceScore]; its prices are sound, with a recomputed discount
    of at least 50, as doubles compute it and also exactly, as
    [100 * (original - current) / original] on the two prices as doubles
    (the prices themselves, when they are doubles); its validation flags
    are those of math validation and never hold the flag of the
    self-consistency guard; and its reason is the glitch one exactly when
    the glitch probability reaches 70, the high-discount one otherwise, in
    which case the recomputed discount reaches [minDiscountPercentage]. *)
Theorem filtered_deal_sound (ai : Providers) (seen0 : gset string)
    (deals : list Deal) (minD minC maxR : Q) (fd : FilteredDeal) :
  In fd (filterDeals ai seen0 deals minD minC maxR).1 ->
  (0 <= confidenceScore fd <= 100 /\ minC <= confidenceScore fd /\
   exists z, confidenceScore fd = inject_Z z) /\
  0 <= pricingGlitchProbability fd <= 100 /\
  (exists o, originalPrice (deal fd) = Some o /\
     0 < currentPrice (deal fd) /\ currentPrice (deal fd) < o /\
     50 <= JS.mul (JS.div (JS.sub o (currentPrice (deal fd))) o) 100 /\
     50 <= 100 * (JS.fl o - JS.fl (currentPrice (deal fd))) / JS.fl o /\
     (JS.isDouble o -> JS.isDouble (currentPrice (deal fd)) ->
      50 <= 100 * (o - currentPrice (deal fd)) / o)) /\
  validationFlags fd = flags (validateDiscountMath (deal fd)) /\
  ~ In guardFlag (validationFlags fd) /\
  (if JS.leb 70 (pricingGlitchProbability fd)
   then filteringReason fd
        = "Potential pricing glitch (" +:+ printNumber (pricingGlitchProbability fd)
            +:+ "% probability)"
   else filteringReason fd
        = "High discount deal ("
            +:+ toFixed1 (actualDiscount (validateDiscountMath (deal fd)))
            +:+ "% off)"
        /\ minD <= actualDiscount (validateDiscountMath (deal fd))).
Proof.
  intros H. apply filterDeals_in, run_filtered in H as (i & d & _ & Hacc).
  destruct (processDeal_accepted _ _ _ _ _ _ _ Hacc)
    as (_ & H50 & r & Hr & [Hq Hconf] & Hd & Hs & Hp).
  destruct (processDeal_record _ _ _ _ _ _ _ Hacc)
    as (r' & Hr' & Hflags & Hreason & _).
  rewrite Hr in Hr'. injection Hr' as <-. subst d.
  destruct (analyze_range _ _ _ _ Hr) as [_ Hpr].
  destruct (accepted_prices _ H50) as (o & Ho & Hpos & Hc & Hlt).
  destruct (validate_computed _ o Ho Hpos Hc Hlt) as (Ha & Hv & Hf). cbv zeta in *.
  rewrite Hs, Hp. split; [|split; [exact Hpr|]].
  { split; [unfold calculateOverallScore; apply clamp_bounds; lra|].
    split; [exact Hconf|].
    destruct (score_whole (validateDiscountMath (deal fd)) r
                (detectSuspiciousPricing (deal fd))) as (z & Hz & _).
    exists z. exact Hz. }
  split.
  { exists o. split; [exact Ho|]. split; [exact Hc|]. split; [exact Hlt|].
    rewrite Ha in H50. split; [exact H50|].
    pose proof (proj2 (half_price o _ Hc Hlt H50)) as Hhalf.
    split; [exact Hhalf|].
    unfold JS.isDouble. intros Eo Ec. rewrite Eo, Ec in Hhalf. exact Hhalf. }
  split; [exact Hflags|]. split.
  - rewrite Hflags, Hf. rewrite Ha in H50.
    assert (E : JS.ltb (JS.mul (JS.div (JS.sub o (currentPrice (deal fd))) o) 100) 50
                = false)
      by (apply ltb_ge; exact H50).
    rewrite E. cbn [andb]. rewrite app_nil_r, in_app_iff.
    intros [Hin|Hin].
    + destruct (JS.ltb 5 _); cbn [In] in Hin; [|contradiction].
      destruct Hin as [Hin|[]]. exact (mismatchFlag_not_guard _ _ Hin).
    + destruct (JS.ltb 95 _); cbn [In] in Hin; [|contradiction].
      destruct Hin as [Hin|[]]. discriminate Hin.
  - rewrite Hreason.
    destruct (JS.leb 70 (PricingAnalysisResult.pricingGlitchProbability r)) eqn:E;
      [reflexivity|].
    split; [reflexivity|]. apply leb_gt in E.
    destruct Hq as [Hq|Hq]; [exact Hq|lra].
Qed.

(** X20.  For a deal that [filterDeals] returns, neither cap of the score
    formula cuts anything off and the penalty for invalid math plays no
    part: its recomputed discount lies between 50 and 100, and its
    confidence score is the clamp to [0, 100] of the rounding to the
    nearest integer of the sum that doubles compute step by step: 50, plus
    0.3 times the recomputed discount, plus the AI confidence divided by
    100 and multiplied by 40, minus 5 for each suspicious factor, plus 20
    for a glitch probability above 70. *)
Theorem accepted_score_formula (ai : Providers) (seen0 : gset string)
    (deals : list Deal) (minD minC maxR : Q) (fd : FilteredDeal) :
  In fd (filterDeals ai seen0 deals minD minC maxR).1 ->
  exists n r,
    analyzeWithAI ai n (deal fd) = Some r /\
    50 <= actualDiscount (validateDiscountMath (deal fd)) <= 100 /\
    JS.min 30 (JS.mul (actualDiscount (validateDiscountMath (deal fd))) 0.3)
      == JS.mul (actualDiscount (validateDiscountMath (deal fd))) 0.3 /\
    JS.min 30 (JS.mul (inject_Z (Z.of_nat (length (detectSuspiciousPricing (deal fd))))) 5)
      == 5 * inject_Z (Z.of_nat (length (detectSuspiciousPricing (deal fd)))) /\
    confidenceScore fd
      == Spec.clamp100
           (JS.round
              (let score :=
                 JS.sub
                   (JS.add
                      (JS.add 50
                         (JS.mul (actualDiscount (validateDiscountMath (deal fd)))
                            0.3))
                      (JS.mul (JS.div (PricingAnalysisResult.confidenceScore r) 100)
                         40))
                   (5 * inject_Z
                          (Z.of_nat (length (detectSuspiciousPricing (deal fd))))) in
               if JS.ltb 70 (pricingGlitchProbability fd)
               then JS.add score 20 else score)).
Proof.
  intros H. apply filterDeals_in, run_filtered in H as (i & d & _ & Hacc).
  destruct (processDeal_accepted _ _ _ _ _ _ _ Hacc)
    as (_ & H50 & r & Hr & _ & Hd & Hs & Hp).
  subst d. exists (S i), r. split; [exact Hr|].
  destruct (accepted_prices _ H50) as (o & Ho & Hpos & Hc & Hlt).
  destruct (validate_computed _ o Ho Hpos Hc Hlt) as (Ha & Hv & _). cbv zeta in *.
  assert (H100 : actualDiscount (validateDiscountMath (deal fd)) <= 100).
  { rewrite Ha. apply percent_range; assumption. }
  split; [split; [exact H50|exact H100]|].
  assert (Hcap : JS.min 30 (JS.mul (actualDiscount (validateDiscountMath (deal fd))) 0.3)
                 == JS.mul (actualDiscount (validateDiscountMath (deal fd))) 0.3).
  { pose proof (share_uncapped _ H100) as Hshare.
    destruct (min_spec 30 (JS.mul (actualDiscount (validateDiscountMath (deal fd))) 0.3))
      as [[Hm ->]|[Hm ->]]; [reflexivity|lra]. }
  pose proof (penalty_double (deal fd)) as Hpen.
  split; [exact Hcap|]. split; [exact Hpen|].
  rewrite Hs, Hp. unfold calculateOverallScore, Spec.clamp100. cbv zeta.
  rewrite max_Qmax, min_Qmin.
  assert (Hvalid : valid (validateDiscountMath (deal fd)) = true).
  { rewrite Hv, <- Ha. apply leb_le. exact H50. }
  rewrite Hvalid.
  assert (Hclamp : forall x y, x == y ->
            Qmax 0 (Qmin 100 (JS.round x)) == Qmax 0 (Qmin 100 (JS.round y))).
  { intros x y E. rewrite (round_comp x y E). reflexivity. }
  apply Hclamp.
  assert (Hsum : JS.sub
                   (JS.add
                      (JS.add 50
                         (JS.min 30
                            (JS.mul (actualDiscount (validateDiscountMath (deal fd)))
                               0.3)))
                      (JS.mul (JS.div (PricingAnalysisResult.confidenceScore r) 100) 40))
                   (JS.min 30
                      (JS.mul (inject_Z (Z.of_nat
                         (length (detectSuspiciousPricing (deal fd))))) 5))
                 == JS.sub
                      (JS.add
                         (JS.add 50
                            (JS.mul (actualDiscount (validateDiscountMath (deal fd)))
                               0.3))
                         (JS.mul (JS.div (PricingAnalysisResult.confidenceScore r) 100)
                            40))
                      (5 * inject_Z
                             (Z.of_nat (length (detectSuspiciousPricing (deal fd)))))).
  { apply sub_comp; [|exact Hpen].
    apply add_comp; [|reflexivity]. apply add_comp; [reflexivity|exact Hcap]. }
  destruct (JS.ltb 70 (PricingAnalysisResult.pricingGlitchProbability r));
    [apply add_comp; [exact Hsum|reflexivity]|exact Hsum].
Qed.

End FilteredDealProps.

Section FilteredDealExamples.
Import Demo DealFilteringService.

Lemma filtered_deal_sound_witness :
  exists fd,
    (filterDeals (answering glitchVerdict) ∅ [kettle] 90 60 25).1 = [fd] /\
    0 <= confidenceScore fd <= 100 /\
    ~ In guardFlag (validationFlags fd).
Proof.
  assert (H : exists fd,
             (filterDeals (answering glitchVerdict) ∅ [kettle] 90 60 25).1 = [fd]).
  { eexists. vm_compute. reflexivity. }
  destruct H as [fd H]. exists fd.
  assert (Hin : In fd (filterDeals (answering glitchVerdict) ∅ [kettle] 90 60 25).1).
  { rewrite H. left. reflexivity. }
  destruct (filtered_deal_sound _ _ _ _ _ _ fd Hin) as ((H1 & _) & _ & _ & _ & H5 & _).
  split; [exact H|]. split; [exact H1|exact H5].
Defined.

Lemma accepted_score_formula_witness :
  exists fd fd',
    (filterDeals (answering soundVerdict) ∅ [kettle; blender] 50 60 25).1 = [fd; fd'] /\
    50 <= actualDiscount (validateDiscountMath (deal fd)) <= 100.
Proof.
  assert (H : exists fd fd',
             (filterDeals (answering soundVerdict) ∅ [kettle; blender] 50 60 25).1
             = [fd; fd']).
  { eexists. eexists. vm_compute. reflexivity. }
  destruct H as (fd & fd' & H). exists fd, fd'.
  assert (Hin : In fd (filterDeals (answering soundVerdict) ∅
                         [kettle; blender] 50 60 25).1).
  { rewrite H. left. reflexivity. }
  destruct (accepted_score_formula _ _ _ _ _ _ fd Hin) as (n & r & _ & H2 & _).
  split; [exact H|exact H2].
Defined.

End FilteredDealExamples.

(** * The filtering tool *)

Section FilteringToolProps.
Context {rt : JSRuntime}.
Import DealFilteringService DealFilteringTool.

Lemma foldl_filtered_length ai minD minC (deals : list Deal) :
  forall st,
    (length (filteredDeals (foldl (loopStep ai minD minC) st deals))
     <= length (filteredDeals st) + length deals)%nat.
Proof.
  induction deals as [|d deals IH]; intros st; cbn [foldl length]; [lia|].
  etransitivity; [apply IH|]. rewrite loopStep_filtered, length_app.
  destruct (processDeal _ _ _ _ _ _).2; cbn [length]; lia.
Qed.

Lemma filterDeals_length ai (seen0 : gset string) (deals : list Deal) minD minC maxR :
  (length (filterDeals ai seen0 deals minD minC maxR).1 <= length deals)%nat.
Proof.
  unfold filterDeals. cbn [fst].
  destruct (slice0_take (sort compareFn
                           (filteredDeals (runLoop ai minD minC seen0 deals))) maxR)
    as [k ->].
  rewrite length_take, (Permutation_length (sort_perm compareFn _)).
  pose proof (foldl_filtered_length ai minD minC deals
                {| seen := seen0; filteredDeals := []; processedCount := 0 |}) as H.
  cbn [filteredDeals length] in H. unfold runLoop. lia.
Qed.

Lemma average_bounds (field : FilteredDeal -> Q) (lo hi : Z)
    (l : list FilteredDeal) :
  l <> [] ->
  (forall fd, In fd l -> inject_Z lo <= field fd <= inject_Z hi) ->
  inject_Z lo <= average field l <= inject_Z hi.
Proof.
  intros Hne Hall. unfold average. destruct l as [|fd0 l0] eqn:Hl; [congruence|].
  rewrite <- Hl in *.
  rewrite <- (foldl_fmap Qplus 0 l field), <- (length_fmap field l).
  apply round_mean_bounds.
  - rewrite Hl. discriminate.
  - apply Forall_forall. intros x Hx. apply list_elem_of_fmap in Hx as (fd & -> & Hfd).
    apply Hall. apply list_elem_of_In. exact Hfd.
Qed.

(** X15.  [execute] of the filtering tool throws exactly when neither API
    key is set.  Otherwise it returns the deals of [filterDeals] on a
    service that has seen no deal, with a summary that agrees with them:
    [finalResults] is their number and is at most [inputDeals], the number
    of deals given; the two counts are at most [finalResults]; the two
    averages lie in [0, 100] and are 0 when no deal is returned, and the
    average confidence score then reaches [minConfidenceScore] otherwise. *)
Theorem filtering_summary (env : Env) (ai : Providers) (deals : list Deal)
    (minD minC maxR : Q) :
  match execute env ai deals minD minC maxR with
  | inr _ =>
      WebScrapingService.truthyOpt (PERPLEXITY_API_KEY env) = false /\
      WebScrapingService.truthyOpt (OPENAI_API_KEY env) = false
  | inl (out, s) =>
      (WebScrapingService.truthyOpt (PERPLEXITY_API_KEY env) = true \/
       WebScrapingService.truthyOpt (OPENAI_API_KEY env) = true) /\
      out = (filterDeals ai ∅ deals minD minC maxR).1 /\
      inputDeals s = length deals /\
      finalResults s = length out /\
      (finalResults s <= inputDeals s)%nat /\
      (topRecommendations s <= finalResults s)%nat /\
      (pricingGlitchesFound s <= finalResults s)%nat /\
      0 <= averageConfidenceScore s <= 100 /\
      0 <= averagePricingGlitchProbability s <= 100 /\
      match out with
      | [] => averageConfidenceScore s == 0 /\ averagePricingGlitchProbability s == 0
      | _ => minC <= averageConfidenceScore s
      end
  end.
Proof.
  unfold execute.
  destruct (WebScrapingService.truthyOpt (PERPLEXITY_API_KEY env)) eqn:Hp;
    destruct (WebScrapingService.truthyOpt (OPENAI_API_KEY env)) eqn:Ho;
    cbn [negb andb]; try (split; reflexivity).
  all: cbn [inputDeals finalResults topRecommendations pricingGlitchesFound
            averageConfidenceScore averagePricingGlitchProbability].
  all: set (out := (filterDeals ai ∅ deals minD minC maxR).1).
  all: assert (Hsound : forall fd, In fd out ->
         (0 <= confidenceScore fd <= 100 /\ minC <= confidenceScore fd /\
          exists z, confidenceScore fd = inject_Z z) /\
         0 <= pricingGlitchProbability fd <= 100)
    by (intros fd Hin; apply filterDeals_in, run_filtered in Hin as (i & d & _ & Hacc);
        destruct (processDeal_accepted _ _ _ _ _ _ _ Hacc)
          as (_ & _ & r & Hr & [_ Hconf] & _ & Hs & Hpg);
        destruct (analyze_range _ _ _ _ Hr) as [_ Hpr];
        destruct (score_whole (validateDiscountMath d) r (detectSuspiciousPricing d))
          as (z & Hz & _);
        rewrite Hs, Hpg; split; [|exact Hpr];
        split; [unfold calculateOverallScore; apply clamp_bounds; lra|];
        split; [exact Hconf|exists z; exact Hz]).
  all: assert (Hc : 0 <= average confidenceScore out <= 100)
    by (destruct (decide (out = [])) as [->|Hne]; [cbn; lra|];
        apply (average_bounds confidenceScore 0 100 out Hne);
        intros fd Hin; apply (Hsound fd Hin)).
  all: assert (Hg : 0 <= average pricingGlitchProbability out <= 100)
    by (destruct (decide (out = [])) as [->|Hne]; [cbn; lra|];
        apply (average_bounds pricingGlitchProbability 0 100 out Hne);
        intros fd Hin; apply (Hsound fd Hin)).
  all: assert (Hmin : match out with
                      | [] => average confidenceScore out == 0
                              /\ average pricingGlitchProbability out == 0
                      | _ => minC <= average confidenceScore out
                      end).
  1,3,5: destruct out as [|fd0 rest] eqn:Hout; [split; reflexivity|];
    rewrite <- Hout in *;
    assert (Hall : forall fd, In fd out ->
              inject_Z (Qceiling minC) <= confidenceScore fd <= inject_Z 100)
      by (intros fd Hin; destruct (Hsound fd Hin) as ((Hr & Hm & z & Hz) & _);
          split; [|exact (proj2 Hr)];
          rewrite Hz in *; rewrite <- Zle_Qle;
          rewrite <- (Qceiling_Z z); apply Qceiling_resp_le; exact Hm);
    assert (Hne : out <> []) by (rewrite Hout; discriminate);
    pose proof (average_bounds confidenceScore _ _ out Hne Hall) as [Hlo _];
    pose proof (Qle_ceiling minC); lra.
  all: split; [tauto|]; split; [reflexivity|]; split; [reflexivity|];
       split; [reflexivity|]; split; [apply filterDeals_length|];
       split; [apply List.filter_length_le|]; split; [apply List.filter_length_le|];
       split; [exact Hc|]; split; [exact Hg|exact Hmin].
Qed.

End FilteringToolProps.

(** * Storage without a database *)

Section SortGeneral.
Context {A : Type} (cmp : A -> A -> Q) (R : A -> A -> Prop).
Import DealFilteringService.
Hypothesis cmp_R : forall a b, cmp a b <= 0 <-> R a b.
Hypothesis R_total : forall a b, R a b \/ R b a.
Hypothesis R_trans : forall a b c, R a b -> R b c -> R a c.

Lemma insertSorted_by (x : A) (l : list A) :
  StronglySorted R l -> StronglySorted R (insertSorted cmp x l).
Proof.
  induction 1 as [|y l Hs IH Hy]; cbn [insertSorted]; [repeat constructor|].
  destruct (JS.leb (cmp x y) 0) eqn:E.
  - apply leb_le, cmp_R in E. constructor; [constructor; assumption|].
    constructor; [exact E|].
    eapply Forall_impl; [exact Hy|]. cbn. intros z Hz. exact (R_trans _ _ _ E Hz).
  - apply leb_gt in E. constructor; [exact IH|].
    rewrite (insertSorted_perm cmp x l). constructor; [|exact Hy].
    destruct (R_total y x) as [H|H]; [exact H|].
    apply cmp_R in H. lra.
Qed.

Lemma sort_sorted_by (l : list A) : StronglySorted R (sort cmp l).
Proof.
  induction l as [|x l IH]; cbn [sort foldr]; [constructor|].
  apply insertSorted_by. exact IH.
Qed.

End SortGeneral.

Lemma sorted_impl {A : Type} (R R' : A -> A -> Prop) (l : list A) :
  (forall a b, R a b -> R' a b) -> StronglySorted R l -> StronglySorted R' l.
Proof.
  intros H. induction 1 as [|x l Hs IH Hx]; constructor; [exact IH|].
  eapply Forall_impl; [exact Hx|]. intros y. apply H.
Qed.

Section StorageProps.
Import PostgreSQLDealStorage.

Lemma orNumber_zero (x : Q) : orNumber x 0 == x.
Proof.
  unfold orNumber. destruct (JS.eqb x 0) eqn:E; [|reflexivity].
  apply eqb_eq in E. symmetry. exact E.
Qed.

Lemma byKeys_le (k1 k2 : StoredDeal.t -> Q) (a b : StoredDeal.t) :
  byKeys k1 k2 a b <= 0 <-> lexDescending k1 k2 a b.
Proof.
  unfold byKeys, orNumber, lexDescending.
  destruct (JS.eqb (k1 b - k1 a) 0) eqn:E.
  - apply eqb_eq in E. split; [intros H; right; split; lra|].
    intros [H|[_ H]]; lra.
  - apply eqb_neq in E. split.
    + intros H. left. apply Qnot_le_lt. intros Hle. apply E. lra.
    + intros [H|[H _]]; [lra|]. exfalso. apply E. lra.
Qed.

Lemma lexDescending_total (k1 k2 : StoredDeal.t -> Q) (a b : StoredDeal.t) :
  lexDescending k1 k2 a b \/ lexDescending k1 k2 b a.
Proof.
  unfold lexDescending.
  destruct (Q_dec (k1 a) (k1 b)) as [[H|H]|H]; [right; left; exact H|left; left; exact H|].
  destruct (Qlt_le_dec (k2 a) (k2 b)) as [H2|H2].
  - right. right. split; [exact H|lra].
  - left. right. split; [symmetry; exact H|exact H2].
Qed.

Lemma lexDescending_trans (k1 k2 : StoredDeal.t -> Q) (a b c : StoredDeal.t) :
  lexDescending k1 k2 a b -> lexDescending k1 k2 b c -> lexDescending k1 k2 a c.
Proof.
  unfold lexDescending. intros [H1|[H1 H1']] [H2|[H2 H2']].
  - left. lra.
  - left. lra.
  - left. lra.
  - right. split; lra.
Qed.

(** What a query of the memory gives: the kept deals that pass the test,
    in the order of the two keys, cut at the limit. *)
Lemma query_spec (k1 k2 : StoredDeal.t -> Q) (test : StoredDeal.t -> bool)
    (memoryDeals : list StoredDeal.t) (limit : Q) :
  let out :=
    stored <$> (formatDeal <$>
      DealFilteringService.slice0
        (DealFilteringService.sort (byKeys k1 k2) (List.filter test memoryDeals))
        limit) in
  (forall d, In d out -> In d memoryDeals /\ test d = true) /\
  StronglySorted (lexDescending k1 k2) out /\
  (0 <= limit -> inject_Z (Z.of_nat (length out)) <= limit) /\
  (inject_Z (Z.of_nat (length (List.filter test memoryDeals))) <= limit ->
   forall d, In d memoryDeals -> test d = true -> In d out).
Proof.
  cbv zeta. rewrite <- list_fmap_compose.
  rewrite (list_fmap_ext (stored ∘ formatDeal) id _) by reflexivity.
  rewrite list_fmap_id.
  set (sorted := DealFilteringService.sort (byKeys k1 k2) (List.filter test memoryDeals)).
  assert (Hp : Permutation sorted (List.filter test memoryDeals)) by apply sort_perm.
  split; [|split; [|split]].
  - intros d Hd. apply slice0_in in Hd.
    apply List.filter_In. eapply Permutation_in; [exact Hp|exact Hd].
  - destruct (slice0_take sorted limit) as [k ->]. apply take_sorted.
    apply (sort_sorted_by (byKeys k1 k2) (lexDescending k1 k2)).
    + apply byKeys_le.
    + apply lexDescending_total.
    + apply lexDescending_trans.
  - apply slice0_length.
  - intros Hlen d Hd Ht. rewrite slice0_all.
    + eapply Permutation_in; [symmetry; exact Hp|]. apply List.filter_In. tauto.
    + rewrite (Permutation_length Hp). exact Hlen.
Qed.

(** X16.  Without a database [getTopDeals] returns kept deals only, each
    with a discount of at least [minDiscount] and a confidence score of at
    least 60, ordered by discount, highest first, and by confidence score
    among equal discounts; at most [limit] of them, and all of those that
    qualify when they are no more than [limit]. *)
Theorem getTopDeals_spec (memoryDeals : list StoredDeal.t) (minDiscount limit : Q) :
  (forall d, In d (stored <$> getTopDeals memoryDeals minDiscount limit) ->
     In d memoryDeals /\
     minDiscount <= StoredDeal.discountPercentage d /\
     60 <= StoredDeal.confidenceScore d) /\
  StronglySorted (lexDescending StoredDeal.discountPercentage StoredDeal.confidenceScore)
    (stored <$> getTopDeals memoryDeals minDiscount limit) /\
  (0 <= limit ->
   inject_Z (Z.of_nat (length (getTopDeals memoryDeals minDiscount limit))) <= limit) /\
  (inject_Z (Z.of_nat (length memoryDeals)) <= limit ->
   forall d, In d memoryDeals ->
     minDiscount <= StoredDeal.discountPercentage d ->
     60 <= StoredDeal.confidenceScore d ->
     In d (stored <$> getTopDeals memoryDeals minDiscount limit)).
Proof.
  destruct (query_spec StoredDeal.discountPercentage confidence
              (fun d => JS.leb minDiscount (StoredDeal.discountPercentage d)
                        && JS.leb 60 (confidence d))
              memoryDeals limit) as (H1 & H2 & H3 & H4).
  fold (getTopDeals memoryDeals minDiscount limit) in H1, H2, H3, H4.
  split; [|split; [|split]].
  - intros d Hd. destruct (H1 d Hd) as [Hin Ht]. split; [exact Hin|].
    apply andb_true_iff in Ht as [Ha Hb]. apply leb_le in Ha, Hb.
    unfold confidence in Hb. rewrite orNumber_zero in Hb. tauto.
  - eapply sorted_impl; [|exact H2].
    unfold lexDescending, confidence. intros a b. rewrite !orNumber_zero. tauto.
  - intros Hl. rewrite length_fmap in H3. exact (H3 Hl).
  - intros Hlen d Hd Hm Hc. apply H4; [|exact Hd|].
    + pose proof (List.filter_length_le
                    (fun d => JS.leb minDiscount (StoredDeal.discountPercentage d)
                              && JS.leb 60 (confidence d)) memoryDeals) as Hf.
      apply (inj_le _ _) in Hf. rewrite Zle_Qle in Hf. lra.
    + apply andb_true_iff. split; apply leb_le; [exact Hm|].
      unfold confidence. rewrite orNumber_zero. exact Hc.
Qed.

(** X17.  Without a database [getPricingGlitches] returns kept deals
    only, each with a glitch probability of at least [minProbability],
    ordered by glitch probability, highest first, and by confidence score
    among equals; at most [limit] of them, and all of those that qualify
    when they are no more than [limit]. *)
Theorem getPricingGlitches_spec (memoryDeals : list StoredDeal.t)
    (minProbability limit : Q) :
  (forall d, In d (stored <$> getPricingGlitches memoryDeals minProbability limit) ->
     In d memoryDeals /\
     minProbability <= StoredDeal.pricingGlitchProbability d) /\
  StronglySorted
    (lexDescending StoredDeal.pricingGlitchProbability StoredDeal.confidenceScore)
    (stored <$> getPricingGlitches memoryDeals minProbability limit) /\
  (0 <= limit ->
   inject_Z (Z.of_nat (length (getPricingGlitches memoryDeals minProbability limit)))
     <= limit) /\
  (inject_Z (Z.of_nat (length memoryDeals)) <= limit ->
   forall d, In d memoryDeals ->
     minProbability <= StoredDeal.pricingGlitchProbability d ->
     In d (stored <$> getPricingGlitches memoryDeals minProbability limit)).
Proof.
  destruct (query_spec glitch confidence
              (fun d => JS.leb minProbability (glitch d)) memoryDeals limit)
    as (H1 & H2 & H3 & H4).
  fold (getPricingGlitches memoryDeals minProbability limit) in H1, H2, H3, H4.
  split; [|split; [|split]].
  - intros d Hd. destruct (H1 d Hd) as [Hin Ht]. split; [exact Hin|].
    apply leb_le in Ht. unfold glitch in Ht. rewrite orNumber_zero in Ht. exact Ht.
  - eapply sorted_impl; [|exact H2].
    unfold lexDescending, confidence, glitch. intros a b. rewrite !orNumber_zero. tauto.
  - intros Hl. rewrite length_fmap in H3. exact (H3 Hl).
  - intros Hlen d Hd Hm. apply H4; [|exact Hd|].
    + pose proof (List.filter_length_le
                    (fun d => JS.leb minProbability (glitch d)) memoryDeals) as Hf.
      apply (inj_le _ _) in Hf. rewrite Zle_Qle in Hf. lra.
    + apply leb_le. unfold glitch. rewrite orNumber_zero. exact Hm.
Qed.

End StorageProps.

Section SaveDeal.
Context {rt : JSRuntime}.
Import PostgreSQLDealStorage.

Lemma findIndex_Some (h : string) (l : list StoredDeal.t) (i : nat) :
  findIndex h l = Some i -> exists x, l !! i = Some x /\ StoredDeal.hash x = h.
Proof.
  revert i. induction l as [|y l IH]; intros i; cbn [findIndex]; [discriminate|].
  destruct (String.eqb (StoredDeal.hash y) h) eqn:E.
  - intros H. injection H as <-. apply String.eqb_eq in E. exists y. tauto.
  - destruct (findIndex h l) as [j|]; [|discriminate].
    intros H. injection H as <-. exact (IH j eq_refl).
Qed.

Lemma findIndex_None (h : string) (l : list StoredDeal.t) :
  findIndex h l = None -> forall x, x ∈ l -> StoredDeal.hash x <> h.
Proof.
  induction l as [|y l IH]; cbn [findIndex]; intros H x Hx.
  - apply elem_of_nil in Hx. contradiction.
  - destruct (String.eqb (StoredDeal.hash y) h) eqn:E; [discriminate|].
    apply String.eqb_neq in E.
    destruct (findIndex h l); [discriminate|].
    apply elem_of_cons in Hx as [->|Hx]; [exact E|exact (IH eq_refl x Hx)].
Qed.

Lemma NoDup_fmap_eq {A B : Type} (f : A -> B) (l : list A) (x y : A) :
  NoDup (f <$> l) -> x ∈ l -> y ∈ l -> f x = f y -> x = y.
Proof.
  induction l as [|z l IH]; intros Hn Hx Hy Hf.
  - apply elem_of_nil in Hx. contradiction.
  - rewrite fmap_cons in Hn. apply NoDup_cons in Hn as [Hz Hn].
    apply elem_of_cons in Hx as [->|Hx]; apply elem_of_cons in Hy as [->|Hy].
    + reflexivity.
    + exfalso. apply Hz. rewrite Hf. apply list_elem_of_fmap. eauto.
    + exfalso. apply Hz. rewrite <- Hf. apply list_elem_of_fmap. eauto.
    + exact (IH Hn Hx Hy Hf).
Qed.

(** X18.  Without a database [saveDeal] keeps at most one deal for each
    hash and at most 1000 deals, provided this held before: afterwards the
    deal just saved is kept, under the hash of [generateDealHash], and is
    the only kept deal with that hash, so that a deal saved earlier under
    the same hash is replaced; every other kept deal was kept before; and a
    deal kept before under another hash is still kept, unless it was the
    oldest of 1000. *)
Theorem saveDeal_spec (now : Z) (memoryDeals : list StoredDeal.t)
    (dealData : FilteredDeal) :
  NoDup (StoredDeal.hash <$> memoryDeals) ->
  (length memoryDeals <= 1000)%nat ->
  (saveDeal now memoryDeals dealData).1 = formatDeal (dealWithMeta now dealData) /\
  StoredDeal.hash (dealWithMeta now dealData)
    = DealFilteringService.generateDealHash (deal dealData) /\
  NoDup (StoredDeal.hash <$> (saveDeal now memoryDeals dealData).2) /\
  (length (saveDeal now memoryDeals dealData).2 <= 1000)%nat /\
  dealWithMeta now dealData ∈ (saveDeal now memoryDeals dealData).2 /\
  (forall x, x ∈ (saveDeal now memoryDeals dealData).2 ->
     StoredDeal.hash x = StoredDeal.hash (dealWithMeta now dealData) ->
     x = dealWithMeta now dealData) /\
  (forall x, x ∈ (saveDeal now memoryDeals dealData).2 ->
     x = dealWithMeta now dealData \/ x ∈ memoryDeals) /\
  (forall x, x ∈ memoryDeals ->
     StoredDeal.hash x <> StoredDeal.hash (dealWithMeta now dealData) ->
     x ∈ (saveDeal now memoryDeals dealData).2
     \/ (length memoryDeals = 1000%nat /\ head memoryDeals = Some x)).
Proof.
  intros Hn Hlen.
  set (d := dealWithMeta now dealData).
  assert (Hmain :
    NoDup (StoredDeal.hash <$> (saveDeal now memoryDeals dealData).2) /\
    (length (saveDeal now memoryDeals dealData).2 <= 1000)%nat /\
    d ∈ (saveDeal now memoryDeals dealData).2 /\
    (forall x, x ∈ (saveDeal now memoryDeals dealData).2 -> x = d \/ x ∈ memoryDeals) /\
    (forall x, x ∈ memoryDeals -> StoredDeal.hash x <> StoredDeal.hash d ->
       x ∈ (saveDeal now memoryDeals dealData).2
       \/ (length memoryDeals = 1000%nat /\ head memoryDeals = Some x))).
  { unfold saveDeal. cbv zeta. fold d. cbn [snd].
    destruct (findIndex (StoredDeal.hash d) memoryDeals) as [i|] eqn:Hf.
    - destruct (findIndex_Some _ _ _ Hf) as (y & Hy & Hh).
      pose proof (lookup_lt_Some _ _ _ Hy) as Hi.
      rewrite length_insert.
      destruct (Nat.ltb_spec 1000 (length memoryDeals)) as [|_]; [lia|].
      split; [|split; [|split; [|split]]].
      + rewrite list_fmap_insert, list_insert_id; [exact Hn|].
        rewrite list_lookup_fmap, Hy. cbn [fmap option_fmap option_map].
        rewrite Hh. reflexivity.
      + rewrite length_insert. exact Hlen.
      + eapply list_elem_of_lookup_2. apply list_lookup_insert_eq. exact Hi.
      + intros x Hx. apply list_elem_of_lookup_1 in Hx as [j Hj].
        apply list_lookup_insert_Some in Hj as [(_ & <- & _)|(_ & Hj)]; [tauto|].
        right. exact (list_elem_of_lookup_2 _ _ _ Hj).
      + intros x Hx Hne. left. apply list_elem_of_lookup_1 in Hx as [j Hj].
        apply (list_elem_of_lookup_2 _ j). rewrite list_lookup_insert_ne; [exact Hj|].
        intros <-. rewrite Hy in Hj. injection Hj as <-. congruence.
    - pose proof (findIndex_None _ _ Hf) as Hnew.
      assert (Hn' : NoDup (StoredDeal.hash <$> memoryDeals ++ [d])).
      { rewrite fmap_app. apply NoDup_app. split; [exact Hn|]. split.
        - intros h Hh Hd. cbn in Hd. apply list_elem_of_singleton in Hd. subst h.
          apply list_elem_of_fmap in Hh as (x & Hx & Hin).
          exact (Hnew x Hin (eq_sym Hx)).
        - cbn. apply NoDup_singleton. }
      rewrite length_app. cbn [length].
      destruct (Nat.ltb_spec 1000 (length memoryDeals + 1)) as [Hfull|Hroom].
      + assert (Hl : length memoryDeals = 1000%nat) by lia.
        destruct memoryDeals as [|y rest]; [cbn in Hl; lia|].
        cbn [length] in Hl.
        replace (length (y :: rest) + 1 - 1000)%nat with 1%nat by (cbn [length]; lia).
        cbn [app drop]. rewrite drop_0.
        split; [|split; [|split; [|split]]].
        * cbn [app] in Hn'. rewrite fmap_cons in Hn'.
          apply NoDup_cons in Hn' as [_ Hn']. exact Hn'.
        * rewrite length_app. cbn [length]. lia.
        * apply elem_of_app. right. apply list_elem_of_singleton. reflexivity.
        * intros x Hx. apply elem_of_app in Hx as [Hx|Hx].
          -- right. apply elem_of_cons. tauto.
          -- left. apply list_elem_of_singleton in Hx. exact Hx.
        * intros x Hx _. apply elem_of_cons in Hx as [->|Hx].
          -- right. split; [cbn [length]; lia|reflexivity].
          -- left. apply elem_of_app. tauto.
      + split; [exact Hn'|]. split; [rewrite length_app; cbn [length]; lia|].
        split; [apply elem_of_app; right; apply list_elem_of_singleton; reflexivity|].
        split.
        * intros x Hx. apply elem_of_app in Hx as [Hx|Hx]; [tauto|].
          left. apply list_elem_of_singleton in Hx. exact Hx.
        * intros x Hx _. left. apply elem_of_app. tauto. }
  destruct Hmain as (H1 & H2 & H3 & H4 & H5).
  split; [reflexivity|]. split; [reflexivity|].
  split; [exact H1|]. split; [exact H2|]. split; [exact H3|].
  split; [|split; [exact H4|exact H5]].
  intros x Hx Hh. exact (NoDup_fmap_eq StoredDeal.hash _ x d H1 Hx H3 Hh).
Qed.

End SaveDeal.

Section SaveDealExamples.
Import Demo PostgreSQLDealStorage.

(** The kettle saved a second time, in a store that holds the blender and
    the kettle: the kettle of the first time is replaced. *)
Lemma saveDeal_spec_witness :
  NoDup (StoredDeal.hash <$> [dealWithMeta 0 blenderDeal; dealWithMeta 0 kettleDeal]) /\
  (length [dealWithMeta 0 blenderDeal; dealWithMeta 0 kettleDeal] <= 1000)%nat /\
  StoredDeal.hash (dealWithMeta 0 kettleDeal)
    = StoredDeal.hash (dealWithMeta 7 kettleAgain) /\
  (saveDeal 7 [dealWithMeta 0 blenderDeal; dealWithMeta 0 kettleDeal] kettleAgain).2
    = [dealWithMeta 0 blenderDeal; dealWithMeta 7 kettleAgain] /\
  (forall x,
     x ∈ (saveDeal 7 [dealWithMeta 0 blenderDeal; dealWithMeta 0 kettleDeal]
            kettleAgain).2 ->
     StoredDeal.hash x = StoredDeal.hash (dealWithMeta 7 kettleAgain) ->
     x = dealWithMeta 7 kettleAgain).
Proof.
  assert (Hn : NoDup (StoredDeal.hash
                        <$> [dealWithMeta 0 blenderDeal; dealWithMeta 0 kettleDeal])).
  { refine (bool_decide_unpack _ _). vm_compute. exact I. }
  assert (Hl : (length [dealWithMeta 0 blenderDeal; dealWithMeta 0 kettleDeal]
                <= 1000)%nat) by (cbn; lia).
  destruct (saveDeal_spec 7 _ kettleAgain Hn Hl) as (_ & _ & _ & _ & _ & H6 & _).
  split; [exact Hn|]. split; [exact Hl|].
  split; [reflexivity|]. split; [vm_compute; reflexivity|exact H6].
Defined.

End SaveDealExamples.

(** * Filtering what was scraped *)

Section Pipeline.
Context {rt : JSRuntime}.
Import WebScrapingService WebScrapingTool DealFilteringService.

(** X19.  When [filterDeals] is given the deals of the scraping tool, every
    deal it returns is a scraped deal whose reported discount reaches the
    threshold of the scraping tool and is at least 50; the reported and the
    recomputed discount differ by one half at most, whatever the pages
    showed; and the only validation flag such a deal can carry is the one
    for a discount above 95. *)
Theorem scraped_then_filtered (w : World) (ai : Providers) (seen0 : gset string)
    (query : string) (sites : option (list string)) (minScraped minD minC maxR : Q)
    (fd : FilteredDeal) :
  In fd (filterDeals ai seen0 (execute w query sites minScraped).1 minD minC maxR).1 ->
  deal fd ∈ (scrapeDeals w query sites).1 /\
  minScraped <= discountPercentage (deal fd) /\
  50 <= discountPercentage (deal fd) /\
  Qabs (actualDiscount (validateDiscountMath (deal fd)) - discountPercentage (deal fd))
    <= 1 # 2 /\
  validationFlags fd
    = (if JS.ltb 95 (actualDiscount (validateDiscountMath (deal fd)))
       then [extremeFlag] else []).
Proof.
  intros H. apply filterDeals_in in H.
  destruct (run_hashes ai minD minC seen0 (execute w query sites minScraped).1)
    as [_ Hrun].
  destruct (Hrun fd H) as (Hin & _).
  apply run_filtered in H as (i & d & _ & Hacc).
  destruct (processDeal_accepted _ _ _ _ _ _ _ Hacc) as (_ & H50 & r & _ & _ & Hd & _).
  destruct (processDeal_record _ _ _ _ _ _ _ Hacc) as (_ & _ & Hflags & _).
  subst d.
  apply list_elem_of_In in Hin. unfold execute in Hin. cbn [fst] in Hin.
  apply list_elem_of_filter in Hin as [Hmin Hs]. apply leb_le in Hmin.
  destruct (scrapeDeals_listing w _ _ _ Hs) as (s & p & _ & Hp).
  destruct (listing_validation _ _ _ _ Hp) as (o & Ho & Ha & Hnear & Hf & _).
  destruct (listing_sound _ _ _ _ Hp) as (_ & _ & (o' & Ho' & _ & Hdp & _) & _).
  rewrite Ho in Ho'. injection Ho' as <-.
  split; [exact Hs|]. split; [exact Hmin|]. split.
  - rewrite Hdp. apply (round_ge 50). change (inject_Z 50) with 50.
    rewrite <- Ha. exact H50.
  - split; [exact Hnear|]. rewrite Hflags. exact Hf.
Qed.

End Pipeline.

Section PipelineExamples.
Import Demo WebScrapingTool DealFilteringService.

Lemma scraped_then_filtered_witness :
  exists fd,
    (filterDeals (answering glitchVerdict) ∅
       (execute slow "head phones" (Some ["eBay"]) 50).1 90 60 25).1 = [fd] /\
    50 <= discountPercentage (deal fd) /\
    validationFlags fd
      = (if JS.ltb 95 (actualDiscount (validateDiscountMath (deal fd)))
         then [extremeFlag] else []).
Proof.
  assert (H : exists fd,
             (filterDeals (answering glitchVerdict) ∅
                (execute slow "head phones" (Some ["eBay"]) 50).1 90 60 25).1 = [fd]).
  { eexists. vm_compute. reflexivity. }
  destruct H as [fd H]. exists fd.
  assert (Hin : In fd (filterDeals (answering glitchVerdict) ∅
                         (execute slow "head phones" (Some ["eBay"]) 50).1 90 60 25).1).
  { rewrite H. left. reflexivity. }
  destruct (scraped_then_filtered _ _ _ _ _ _ _ _ _ fd Hin) as (_ & _ & H3 & _ & H5).
  split; [exact H|]. split; [exact H3|exact H5].
Defined.

End PipelineExamples.
